(** * Parent-side dispatcher of jades_force (dispatcher.py)

    A shallow embedding of [SuperScene] (the master source catalog with its
    checkout / checkin protocol and the circular patch selection) and of
    [MPIQueue] (the idle / busy worker queue), followed by the properties
    of the specification that are stated about them.

    Conventions.
    - The geometry (positions, radii, distances) is decided by
      comparisons; its floats are taken as the rationals [Q] they denote.
    - The seed weights are IEEE-754 binary64 values with the arithmetic
      of the Standard Library's [SpecFloat] at precision 53: rounding,
      overflow to inf, signed zeros and nan are those of float64.
    - A Python exception is [Raise e]; code that mutates [self] before it
      raises leaves the mutation in place, which is why the methods live
      in a state-and-exception monad over the object.
    - Library calls whose result the code only consumes ([np.hypot],
      [np.exp], the summation of a float array, the sky-to-scene
      projection of astropy, the MPI communicator, the outcome of one
      random draw) are parameters. *)

From Stdlib Require Import ZArith QArith Lia Sorted.
From Stdlib Require Import Floats.SpecFloat.
From stdpp Require Import base list gmap strings.

(** ** Exceptions and results *)

Inductive exn : Set := IndexError | ValueError | KeyError.

Inductive res (A : Type) : Type :=
| Ok (a : A)
| Raise (e : exn).
Arguments Ok {A} a.
Arguments Raise {A} e.

Definition res_bind {A B} (m : res A) (f : A → res B) : res B :=
  match m with
  | Ok a => f a
  | Raise e => Raise e
  end.

#[export] Instance res_mret : MRet res := λ _ a, Ok a.
#[export] Instance res_mbind : MBind res := λ _ _ f m, res_bind m f.

#[export] Instance Q_inhabited : Inhabited Q := populate 0%Q.

(** [a < b] on floats, as a boolean. *)
Definition Qlt_bool (a b : Q) : bool := negb (Qle_bool b a).

(** ** float64 *)
Module F64.

(** IEEE-754 binary64: 53 bits of precision, exponents below 1024. *)
Definition prec : Z := 53.
Definition emax : Z := 1024.
Definition t : Type := spec_float.

Definition zero : t := S754_zero false.
Definition one : t := S754_finite false 4503599627370496 (-52).
Definition nan : t := S754_nan.
Definition inf : t := S754_infinity false.

Definition add : t → t → t := SFadd prec emax.
Definition sub : t → t → t := SFsub prec emax.
Definition mul : t → t → t := SFmul prec emax.
Definition div : t → t → t := SFdiv prec emax.
Definition leb : t → t → bool := SFleb.
Definition ltb : t → t → bool := SFltb.

(** [float(n)] for an int: the nearest float64, ties to even. *)
Definition of_Z (n : Z) : t := binary_normalize prec emax n 0 false.

(** [b.astype(np.float)] for a bool. *)
Definition of_bool (b : bool) : t := if b then one else zero.

Definition is_nan (x : t) : bool :=
  match x with
  | S754_nan => true
  | _ => false
  end.

(** A zero of either sign. *)
Definition is_zero (x : t) : bool :=
  match x with
  | S754_zero _ => true
  | _ => false
  end.

(** A number with the sign bit clear: +0.0, a positive float or +inf. *)
Definition sign_clear (x : t) : bool :=
  match x with
  | S754_zero false | S754_infinity false | S754_finite false _ _ => true
  | _ => false
  end.

(** The rational that a finite float denotes. *)
Definition to_Q (x : t) : option Q :=
  match x with
  | S754_zero _ => Some 0%Q
  | S754_finite s m e =>
      Some ((if s then -1 else 1) * inject_Z (Z.pos m) * Qpower 2 e)%Q
  | _ => None
  end.

(** The result of a rounding keeps the sign it is given. *)
Ltac round_sign :=
  unfold binary_round, binary_round_aux;
  repeat match goal with
         | |- context [let '(_, _) := ?x in _] => destruct x
         | |- context [match shr_m ?x with _ => _ end] => destruct (shr_m x)
         | |- context [if ?b then _ else _] => destruct b
         end; reflexivity.

(** The sum, in exact arithmetic, of finite floats. *)
Definition exact_sum (l : list t) : option Q :=
  foldr (λ x acc, match to_Q x, acc with
                  | Some q, Some a => Some (Qred (q + a))
                  | _, _ => None
                  end) (Some 0%Q) l.

End F64.

(** ** Python built-ins used by the dispatcher *)
Module Py.

(** [if k:] on an int. *)
Definition truthy (k : Z) : bool := negb (k =? 0)%Z.

(** Position addressed by [a[k]] in a sequence of length [n]: negative
    indices count from the end, anything else is an [IndexError]. *)
Definition norm_index (n : nat) (k : Z) : res nat :=
  if ((0 <=? k) && (k <? Z.of_nat n))%Z then Ok (Z.to_nat k)
  else if ((- Z.of_nat n <=? k) && (k <? 0))%Z then Ok (Z.to_nat (k + Z.of_nat n))
  else Raise IndexError.

(** Clamped position of a slice bound. *)
Definition slice_bound (n : nat) (k : Z) : nat :=
  if (k <? 0)%Z then Z.to_nat (Z.max 0 (Z.of_nat n + k)) else Z.to_nat k.

(** [l[:k]] and [l[k:]]. *)
Definition slice_to {A} (k : Z) (l : list A) : list A :=
  take (slice_bound (length l) k) l.
Definition slice_from {A} (k : Z) (l : list A) : list A :=
  drop (slice_bound (length l) k) l.

(** [max(a, b)]: the first argument unless the second is greater. *)
Definition max (a b : Q) : Q := if Qlt_bool a b then b else a.

(** [list(range(n + 1))[1:]]. *)
Definition range1 (n : nat) : list nat := seq 1 n.

End Py.

(** ** NumPy operations used by the dispatcher *)
Module Np.

(** Whole-array check of a fancy index: every entry must address a row,
    otherwise [IndexError] is raised before anything is read or written. *)
Fixpoint norm_inds (n : nat) (inds : list Z) : res (list nat) :=
  match inds with
  | [] => Ok []
  | k :: inds' =>
      i ← Py.norm_index n k;
      is' ← norm_inds n inds';
      Ok (i :: is')
  end.

(** [a[inds] = vals] after the index check: the writes happen in order,
    so a repeated index keeps the last value. *)
Definition scatter {A V} (upd : V → A → A) (inds : list nat) (vals : list V)
    (a : list A) : list A :=
  foldl (λ acc iv, alter (upd iv.2) iv.1 acc) a (zip inds vals).

(** [a[inds]] (a copy of the addressed rows). *)
Definition gather {A} `{Inhabited A} (a : list A) (inds : list nat) : list A :=
  (λ i, a !!! i) <$> inds.

(** Stable insertion of index [i] among indices sorted by [key]. *)
Fixpoint insert_key (key : nat → Q) (i : nat) (l : list nat) : list nat :=
  match l with
  | [] => [i]
  | j :: l' =>
      if Qle_bool (key i) (key j) then i :: j :: l' else j :: insert_key key i l'
  end.

(** Order of two indices by their keys. *)
Definition key_le (key : nat → Q) (i j : nat) : Prop :=
  Qle_bool (key i) (key j) = true.

(** [np.argsort(a)].  NumPy's default sort leaves the relative order of
    equal keys unspecified; here equal keys keep their input order. *)
Definition argsort (a : list Q) : list nat :=
  foldr (insert_key (λ j, a !!! j)) [] (seq 0 (length a)).

Fixpoint first_false (l : list bool) : option nat :=
  match l with
  | [] => None
  | b :: l' => if b then S <$> first_false l' else Some 0
  end.

(** [np.argmin] of a boolean array: the position of the first [False];
    position 0 when every entry is [True] (the minimum is then [True],
    first met at 0); [ValueError] on an empty array. *)
Definition argmin (l : list bool) : res nat :=
  match l with
  | [] => Raise ValueError
  | _ => Ok (default 0 (first_false l))
  end.

(** [a.max()]: [ValueError] on a zero-size array. *)
Definition amax (l : list Q) : res Q :=
  match l with
  | [] => Raise ValueError
  | x :: l' => Ok (foldl (λ m y, if Qlt_bool m y then y else m) x l')
  end.

(** [a.min()] on an integer column. *)
Definition amin (l : list Z) : res Z :=
  match l with
  | [] => Raise ValueError
  | x :: l' => Ok (foldl Z.min x l')
  end.

(** [np.any]. *)
Definition any (l : list bool) : bool := existsb (λ b : bool, b) l.

(** NumPy's float routines that the dispatcher calls and only consumes,
    with the facts about them that the properties below rely on: none of
    them produces a negative value out of non-negative ones. *)
Class Library := {
  (** [np.exp] on a float64. *)
  np_exp : F64.t → F64.t;
  (** [a.sum()] of a float64 array (pairwise summation). *)
  np_sum : list F64.t → F64.t;
  (** The validation of [p] in [np.random.choice(n, p=p)], which raises
      [ValueError] unless the probabilities are numbers, none of them
      negative, that sum to 1 within a tolerance. *)
  np_choice_valid : list F64.t → bool;
  (** [np.exp] returns nan or a number with the sign bit clear. *)
  np_exp_sign x : F64.is_nan (np_exp x) || F64.sign_clear (np_exp x) = true;
  (** The sum of a non-empty array of such values is such a value. *)
  np_sum_sign l :
    l ≠ [] →
    Forall (λ x, F64.is_nan x || F64.sign_clear x = true) l →
    F64.is_nan (np_sum l) || F64.sign_clear (np_sum l) = true;
  (** The sum of a non-empty array of zeros and nans is a zero or nan. *)
  np_sum_zeros l :
    l ≠ [] →
    Forall (λ x, F64.is_nan x || F64.is_zero x = true) l →
    F64.is_nan (np_sum l) || F64.is_zero (np_sum l) = true;
  (** Probabilities that pass the validation are numbers. *)
  np_choice_numbers p :
    np_choice_valid p = true → Forall (λ x, F64.is_nan x = false) p;
}.

(** [a.mean()] of an integer array: the float64 sum of its entries
    divided by their number. *)
Definition mean `{Library} (n : list Z) : F64.t :=
  F64.div (np_sum (F64.of_Z <$> n)) (F64.of_Z (Z.of_nat (length n))).

End Np.

(** ** The master catalog: [SuperScene] *)
Module Scene.

(** What dispatcher.py imports and only calls. *)
Class Imports := {
  (** [catalog.PAR_COLS]: the names of the parameter columns (float
      columns of the catalog); the module [catalog] is not part of the
      sources at hand. *)
  PAR_COLS : list string;
  (** [np.hypot]. *)
  hypot : Q → Q → Q;
  (** [SuperScene.sky_to_scene]: the astropy projection of (ra, dec) into
      the scene frame, in arcsec; the frame is cached on first use. *)
  sky_to_scene : Q → Q → Q * Q;
  (** The field names of [catalog.sourcecat_dtype(bands)], the dtype of
      [sourcecat] and of the rows copied out of it. *)
  sourcecat_dtype : list string;
}.

(** One row of the structured array [sourcecat].  All float columns
    (ra, dec, rhalf and the parameter columns) live in [cols], keyed by
    column name. *)
Record source := Source {
  source_index : Z;
  cols : gmap string Q;
  is_active : bool;
  is_valid : bool;
  n_iter : Z;
  n_patch : Z;
}.

(** A row of [np.zeros(n, dtype)]. *)
Definition zero_source : source :=
  Source 0 ∅ false false 0 0.

#[export] Instance source_inhabited : Inhabited source := populate zero_source.

(** [row[f]] for a float column [f]. *)
Definition fld (r : source) (f : string) : Q := default 0%Q (cols r !! f).

Definition set_col (f : string) (v : Q) (r : source) : source :=
  Source (source_index r) (<[f := v]> (cols r)) (is_active r) (is_valid r)
         (n_iter r) (n_patch r).
Definition set_is_active (b : bool) (r : source) : source :=
  Source (source_index r) (cols r) b (is_valid r) (n_iter r) (n_patch r).
Definition set_is_valid (b : bool) (r : source) : source :=
  Source (source_index r) (cols r) (is_active r) b (n_iter r) (n_patch r).
Definition set_n_iter (n : Z) (r : source) : source :=
  Source (source_index r) (cols r) (is_active r) (is_valid r) n (n_patch r).
Definition set_n_patch (n : Z) (r : source) : source :=
  Source (source_index r) (cols r) (is_active r) (is_valid r) (n_iter r) n.

(** A structured array handed to or returned by the dispatcher: the field
    names of its dtype and its rows. *)
Record recarray := RecArray {
  names : list string;
  recs : list source;
}.

(** [region.CircularRegion(ra, dec, radius)]. *)
Record CircularRegion := {
  region_ra : Q;
  region_dec : Q;
  region_radius : Q;
}.

(** The attributes of a [SuperScene] that the dispatcher reads or writes.
    [scene_coordinates] is the cached array the KD-tree is built from. *)
Record SuperScene := {
  sourcecat : list source;
  scene_coordinates : list (Q * Q);
  n_sources : nat;
  n_active : Z;
  n_fixed : Z;
  maxactive_fraction : Q;
  target_niter : Z;
  maxradius : Q;
  minradius : Q;
  maxactive : Z;
  boundary_radius : Q;
  nscale : Q;
}.

Definition with_sourcecat (s : SuperScene) (c : list source) : SuperScene :=
  {| sourcecat := c; scene_coordinates := scene_coordinates s;
     n_sources := n_sources s; n_active := n_active s; n_fixed := n_fixed s;
     maxactive_fraction := maxactive_fraction s; target_niter := target_niter s;
     maxradius := maxradius s; minradius := minradius s;
     maxactive := maxactive s; boundary_radius := boundary_radius s;
     nscale := nscale s |}.

Definition with_counts (s : SuperScene) (na nf : Z) : SuperScene :=
  {| sourcecat := sourcecat s; scene_coordinates := scene_coordinates s;
     n_sources := n_sources s; n_active := na; n_fixed := nf;
     maxactive_fraction := maxactive_fraction s; target_niter := target_niter s;
     maxradius := maxradius s; minradius := minradius s;
     maxactive := maxactive s; boundary_radius := boundary_radius s;
     nscale := nscale s |}.

(** *** State and exceptions *)

(** A method body: it reads and writes [self] and returns or raises. *)
Definition M (A : Type) : Type := SuperScene → res A * SuperScene.

Definition ret {A} (a : A) : M A := λ s, (Ok a, s).
Definition bind {A B} (m : M A) (f : A → M B) : M B := λ s,
  match m s with
  | (Ok a, s') => f a s'
  | (Raise e, s') => (Raise e, s')
  end.
Definition lift {A} (r : res A) : M A := λ s, (r, s).
Definition get : M SuperScene := λ s, (Ok s, s).

#[export] Instance M_mret : MRet M := λ _ a, ret a.
#[export] Instance M_mbind : MBind M := λ _ _ f m, bind m f.

(** [self.n_active += d] and [self.n_fixed += d]; [-= d] adds [-d]. *)
Definition add_n_active (d : Z) : M unit := λ s,
  (Ok tt, with_counts s (n_active s + d) (n_fixed s)).
Definition add_n_fixed (d : Z) : M unit := λ s,
  (Ok tt, with_counts s (n_active s) (n_fixed s + d)).

(** [for x in l: body x]. *)
Fixpoint for_each {A} (l : list A) (body : A → M unit) : M unit :=
  match l with
  | [] => ret tt
  | x :: l' => bind (body x) (λ _, for_each l' body)
  end.

(** [self.sourcecat[col][inds] = vals].  The values are a column of the
    rows that the indices come from, so both have the same length. *)
Definition setitem {V} (upd : V → source → source) (inds : list Z)
    (vals : list V) : M unit := λ s,
  match Np.norm_inds (length (sourcecat s)) inds with
  | Ok ks => (Ok tt, with_sourcecat s (Np.scatter upd ks vals (sourcecat s)))
  | Raise e => (Raise e, s)
  end.

(** [self.sourcecat[col][inds] = v] for a scalar [v], broadcast. *)
Definition setitem_scalar {V} (upd : V → source → source) (inds : list Z)
    (v : V) : M unit :=
  setitem upd inds (replicate (length inds) v).

(** [self.sourcecat[col][inds] += d]: the addressed values are read, [d]
    is added, and the sums are written back, so a repeated index is
    incremented once. *)
Definition iadd (col : source → Z) (upd : Z → source → source)
    (inds : list Z) (d : Z) : M unit := λ s,
  match Np.norm_inds (length (sourcecat s)) inds with
  | Ok ks =>
      let vals := (λ k, (col (sourcecat s !!! k) + d)%Z) <$> ks in
      (Ok tt, with_sourcecat s (Np.scatter upd ks vals (sourcecat s)))
  | Raise e => (Raise e, s)
  end.

(** [rows["source_index"]].  The rows are NumPy structured arrays, as
    [checkout_region] hands them out: the lookup of a field that the
    dtype does not have raises [ValueError], which the clause
    [except(KeyError): raise] of [checkin_region] does not intercept, so
    that it propagates as it is. *)
Definition getitem_index (a : recarray) : res (list Z) :=
  if decide ("source_index" ∈ names a) then Ok (source_index <$> recs a)
  else Raise ValueError.

(** [rows[f]] for a float column. *)
Definition getitem_col (a : recarray) (f : string) : res (list Q) :=
  if decide (f ∈ names a) then Ok ((λ r, fld r f) <$> recs a)
  else Raise ValueError.

(** What [checkout_region] returns: [(center, None, None)] when the
    selection found an active source, otherwise the region with copies of
    its active and fixed rows. *)
Inductive checkout :=
| Conflict (center : Q * Q)
| Region (region : CircularRegion) (active fixed : recarray).

Section Methods.
Context `{Imports} `{Np.Library}.

(** [SuperScene.__init__], given the catalog that [ingest] built from the
    file.  The keyword arguments are, in order: target_niter,
    maxactive_fraction, maxactive_per_patch, nscale, boundary_radius,
    maxradius, minradius. *)
Definition init (cat : list source) (target_niter' : Z) (maxactive_fraction' : Q)
    (maxactive_per_patch : Z) (nscale' : Q)
    (boundary_radius' maxradius' minradius' : Q) : SuperScene :=
  {| sourcecat := cat;
     scene_coordinates := (λ r, sky_to_scene (fld r "ra") (fld r "dec")) <$> cat;
     n_sources := length cat;
     n_active := 0;
     n_fixed := 0;
     maxactive_fraction := maxactive_fraction';
     target_niter := target_niter';
     maxradius := maxradius';
     minradius := minradius';
     maxactive := maxactive_per_patch;
     boundary_radius := boundary_radius';
     nscale := 3 |}.

(** [self.kdt.query_ball_point(center, r)]: the rows whose scene
    coordinates lie within Euclidean distance [r] of [center], bound
    included (the distance is taken with [hypot]).  SciPy gives no order;
    here they come in catalog order. *)
Fixpoint ball_from (i : nat) (pts : list (Q * Q)) (center : Q * Q) (r : Q)
    : list nat :=
  match pts with
  | [] => []
  | p :: pts' =>
      if Qle_bool (hypot (p.1 - center.1) (p.2 - center.2)) r
      then i :: ball_from (S i) pts' center r
      else ball_from (S i) pts' center r
  end.

Definition query_ball_point (s : SuperScene) (center : Q * Q) (r : Q) : list nat :=
  ball_from 0 (scene_coordinates s) center r.

(** The arrays [outer] and [inner] of [get_circular_scene]: for each
    candidate its distance from the center plus, respectively minus,
    [nscale] half-light radii. *)
Definition outer_inner (s : SuperScene) (center : Q * Q) (kinds : list nat)
    : list Q * list Q :=
  let cand := Np.gather (sourcecat s) kinds in
  let rhalf := (λ r, fld r "rhalf") <$> cand in
  let distance :=
    (λ p : Q * Q, hypot (p.1 - center.1) (p.2 - center.2))
      <$> Np.gather (scene_coordinates s) kinds in
  (zip_with (λ d h, d + nscale s * h)%Q distance rhalf,
   zip_with (λ d h, d - nscale s * h)%Q distance rhalf).

(** [SuperScene.get_circular_scene].  [None] stands for the triple
    [(None, None, None)]. *)
Definition get_circular_scene (s : SuperScene) (center : Q * Q)
    : res (option (Q * list nat * list nat)) :=
  let kinds := query_ball_point s center (boundary_radius s) in
  (* an empty [np.array([])] is a float array and cannot index *)
  if bool_decide (kinds = []) then Raise IndexError else
  let cand := Np.gather (sourcecat s) kinds in
  if Np.any (is_active <$> cand) then Ok None else
  let outer := (outer_inner s center kinds).1 in
  let inner := (outer_inner s center kinds).2 in
  let order := Np.argsort outer in
  N_inside ← Np.argmin ((λ o, Qlt_bool o (maxradius s)) <$> Np.gather outer order);
  let N_active := Z.min (maxactive s) (Z.of_nat N_inside) in
  let active_inds := Py.slice_to N_active order in
  let finds := Py.slice_from N_active order in
  radius ← Np.amax (Py.slice_to N_active (Np.gather outer order));
  let radius := Py.max (minradius s) radius in
  let fixed_inds :=
    Py.slice_to (Z.min (maxactive s) (Z.of_nat (length finds)))
      (List.filter (λ j, Qlt_bool (inner !!! j) radius) finds) in
  let fixed_inds :=
    if (length fixed_inds =? 0)%nat then Py.slice_to 1 finds else fixed_inds in
  Ok (Some (radius, Np.gather kinds active_inds, Np.gather kinds fixed_inds)).

(** The locals of [get_circular_scene] that the selection is stated
    with: the candidates, their sort order, [outer[order]], [N_inside],
    and the number of sorted candidates with [outer < maxradius]. *)
Definition candidates (s : SuperScene) (center : Q * Q) : list nat :=
  query_ball_point s center (boundary_radius s).
Definition sort_order (s : SuperScene) (center : Q * Q) : list nat :=
  Np.argsort (outer_inner s center (candidates s center)).1.
Definition sorted_outer (s : SuperScene) (center : Q * Q) : list Q :=
  Np.gather (outer_inner s center (candidates s center)).1 (sort_order s center).
Definition N_inside (s : SuperScene) (center : Q * Q) : res nat :=
  Np.argmin ((λ o, Qlt_bool o (maxradius s)) <$> sorted_outer s center).
Definition count_inside (s : SuperScene) (center : Q * Q) : nat :=
  length (List.filter (λ o, Qlt_bool o (maxradius s)) (sorted_outer s center)).

(** [SuperScene.exp_weight], in float64.  [mu] is computed and not used,
    but [n.min()] raises on an empty catalog. *)
Definition exp_weight (s : SuperScene) : res (list F64.t) :=
  let w := (λ r, F64.of_bool (negb (is_active r))) <$> sourcecat s in
  let n := n_iter <$> sourcecat s in
  nmin ← Np.amin n;
  let mu := Z.min nmin (target_niter s) in
  let sigma := F64.of_Z 20 in
  let mean := Np.mean n in
  let w :=
    zip_with
      (λ wi ni,
         F64.mul wi (Np.np_exp (F64.div (F64.sub mean (F64.of_Z ni)) sigma)))
      w n in
  let total := Np.np_sum w in
  Ok ((λ wi, F64.div wi total) <$> w).

Definition seed_weight (s : SuperScene) : res (list F64.t) := exp_weight s.

(** [np.random.choice(n, p=p)], with [rnd] the index that the generator
    draws on this call: [n] must be positive and [p] must be [n]
    probabilities that pass the validation. *)
Definition random_choice (n : nat) (p : list F64.t) (rnd : nat) : res Z :=
  if (0 <? n)%nat && (length p =? n)%nat && Np.np_choice_valid p
  then Ok (Z.of_nat rnd) else Raise ValueError.

(** [if seed_index:] for an int or [None]. *)
Definition seed_given (seed_index : option Z) : bool :=
  match seed_index with
  | Some k => Py.truthy k
  | None => false
  end.

(** [SuperScene.draw_center]. *)
Definition draw_center (s : SuperScene) (seed_index : option Z) (rnd : nat)
    : res (Q * Q) :=
  k ← (if seed_given seed_index then Ok (default 0%Z seed_index)
       else p ← seed_weight s; random_choice (n_sources s) p rnd);
  i ← Py.norm_index (length (sourcecat s)) k;
  let seed := sourcecat s !!! i in
  Ok (fld seed "ra", fld seed "dec").

(** [self.sourcecat[inds]]: a copy of the addressed rows. *)
Definition getrows (inds : list Z) : M recarray := λ s,
  match Np.norm_inds (length (sourcecat s)) inds with
  | Ok ks => (Ok (RecArray sourcecat_dtype (Np.gather (sourcecat s) ks)), s)
  | Raise e => (Raise e, s)
  end.

(** [SuperScene.checkout_region]. *)
Definition checkout_region (seed_index : option Z) (rnd : nat) : M checkout :=
  s ← get;
  c ← lift (draw_center s seed_index rnd);
  let center := sky_to_scene c.1 c.2 in
  sel ← lift (get_circular_scene s center);
  match sel with
  | None => ret (Conflict center)
  | Some (radius, active_nat, fixed_nat) =>
      let region := {| region_ra := c.1; region_dec := c.2;
                       region_radius := (radius / 3600)%Q |} in
      let active_inds := Z.of_nat <$> active_nat in
      let fixed_inds := Z.of_nat <$> fixed_nat in
      _ ← setitem_scalar set_is_active active_inds true;
      _ ← setitem_scalar set_is_valid active_inds false;
      _ ← setitem_scalar set_is_valid fixed_inds false;
      _ ← add_n_active (Z.of_nat (length active_inds));
      _ ← add_n_fixed (Z.of_nat (length fixed_inds));
      active ← getrows active_inds;
      fixed ← getrows fixed_inds;
      ret (Region region active fixed)
  end.

(** [SuperScene.checkin_region]. *)
Definition checkin_region (active fixed : recarray) (niter : Z) : M unit :=
  active_inds ← lift (getitem_index active);
  fixed_inds ← lift (getitem_index fixed);
  _ ← for_each PAR_COLS (λ f,
        vals ← lift (getitem_col active f);
        setitem (set_col f) active_inds vals);
  _ ← iadd n_iter set_n_iter active_inds niter;
  _ ← setitem_scalar set_is_active active_inds false;
  _ ← iadd n_patch set_n_patch active_inds 1;
  _ ← setitem_scalar set_is_valid active_inds true;
  _ ← setitem_scalar set_is_valid fixed_inds true;
  _ ← add_n_active (- Z.of_nat (length active_inds));
  add_n_fixed (- Z.of_nat (length fixed_inds)).

(** The catalog after the parameter columns [cs] of the rows [active]
    have been written at positions [ka]. *)
Definition write_cols (active : recarray) (ka : list nat) (cs : list string)
    (cat : list source) : list source :=
  foldl (λ c f, Np.scatter (set_col f) ka ((λ r, fld r f) <$> recs active) c) cat cs.

(** The catalog that [checkin_region] leaves, statement by statement. *)
Definition checkin_cat (active : recarray) (ka kf : list nat) (niter : Z)
    (cat : list source) : list source :=
  let c1 := write_cols active ka PAR_COLS cat in
  let c2 := Np.scatter set_n_iter ka ((λ k, (n_iter (c1 !!! k) + niter)%Z) <$> ka) c1 in
  let c3 := Np.scatter set_is_active ka (replicate (length ka) false) c2 in
  let c4 := Np.scatter set_n_patch ka ((λ k, (n_patch (c3 !!! k) + 1)%Z) <$> ka) c3 in
  let c5 := Np.scatter set_is_valid ka (replicate (length ka) true) c4 in
  Np.scatter set_is_valid kf (replicate (length kf) true) c5.

(** What the spec says a checked-in active row becomes: the catalog row
    [r] with the parameter values of the returned [row], [d] more
    iterations, one more patch, inactive and valid. *)
Definition checked_in (row : source) (d : Z) (r : source) : source :=
  Source (source_index r)
         (foldl (λ m f, <[f := fld row f]> m) (cols r) PAR_COLS)
         false true (n_iter r + d) (n_patch r + 1).

(** *** The checkout / checkin protocol seen from the caller *)

(** [rows["source_index"]] as values. *)
Definition ids (a : recarray) : list Z := source_index <$> recs a.

(** The catalog's own record that the row addressed by [k] is held by an
    outstanding region: its [is_valid] flag is false. *)
Definition checked_out (s : SuperScene) (k : Z) : Prop :=
  ∃ i r, Py.norm_index (length (sourcecat s)) k = Ok i
         ∧ sourcecat s !! i = Some r ∧ is_valid r = false.

(** The condition under which the spec lets a checkin fail: a table
    without index field, or a row whose index is not checked out. *)
Definition identity_violation (s : SuperScene) (active fixed : recarray) : Prop :=
  "source_index" ∉ names active ∨ "source_index" ∉ names fixed
  ∨ ∃ k, k ∈ ids active ++ ids fixed ∧ ¬ checked_out s k.

(** A region that was handed out and is not checked in yet: the index
    values of its active and of its fixed rows. *)
Definition held : Type := list Z * list Z.
Definition held_ids (h : held) : list Z := h.1 ++ h.2.

(** No two outstanding regions hold the same index. *)
Definition disjoint_held (out : list held) : Prop :=
  ∀ j1 j2 h1 h2 k,
    out !! j1 = Some h1 → out !! j2 = Some h2 → j1 ≠ j2 →
    k ∈ held_ids h1 → k ∉ held_ids h2.

(** A call of the protocol.  A checkin gives back the rows of the [j]-th
    outstanding region. *)
Inductive call :=
| Checkout (seed_index : option Z) (rnd : nat)
| Checkin (j : nat) (active fixed : recarray) (niter : Z).

(** One call that returns, on the object and the list of outstanding
    regions.  A call that raises ends the run ([None]), and so does a
    checkin of rows that are not those of the [j]-th outstanding region. *)
Definition track (c : call) (st : SuperScene * list held)
    : option (SuperScene * list held) :=
  match c with
  | Checkout seed_index rnd =>
      match checkout_region seed_index rnd st.1 with
      | (Ok (Region _ a f), s') => Some (s', st.2 ++ [(ids a, ids f)])
      | (Ok (Conflict _), s') => Some (s', st.2)
      | (Raise _, _) => None
      end
  | Checkin j a f niter =>
      match st.2 !! j, checkin_region a f niter st.1 with
      | Some h, (Ok _, s') =>
          if bool_decide (ids a = h.1 ∧ ids f = h.2)
          then Some (s', delete j st.2) else None
      | _, _ => None
      end
  end.

(** The instants of a run from [st0] in which no two outstanding regions
    ever hold the same index. *)
Inductive reachable (st0 : SuperScene * list held) : SuperScene * list held → Prop :=
| reach_start : disjoint_held st0.2 → reachable st0 st0
| reach_call st c st' :
    reachable st0 st → track c st = Some st' → disjoint_held st'.2 →
    reachable st0 st'.

(** A catalog as [ingest] numbers it: [source_index] is the row number. *)
Definition numbered (cat : list source) : Prop :=
  source_index <$> cat = Z.of_nat <$> seq 0 (length cat).

(** Row [i] of the catalog is held by an outstanding region. *)
Definition is_held (out : list held) (i : nat) : Prop :=
  ∃ h, h ∈ out ∧ Z.of_nat i ∈ held_ids h.

(** Row [i] was invalid in the catalog before the first call.  [ingest]
    creates the catalog with [np.zeros] and copies the columns that the
    input file has: without an [is_valid] column in the file every row
    starts with [is_valid] false. *)
Definition invalid_at_start (s0 : SuperScene) (i : nat) : Prop :=
  ∃ r0, sourcecat s0 !! i = Some r0 ∧ is_valid r0 = false.

(** The catalog that a successful [checkout_region] leaves. *)
Definition checkout_cat (an fn : list nat) (cat : list source) : list source :=
  Np.scatter set_is_valid fn (replicate (length fn) false)
    (Np.scatter set_is_valid an (replicate (length an) false)
       (Np.scatter set_is_active an (replicate (length an) true) cat)).

(** The invariant carried along a run from [s0]: rows are numbered by
    position, held indices address rows, a held row is invalid, and an
    invalid row is held or was invalid before the first call. *)
Definition protocol_inv (s0 : SuperScene) (st : SuperScene * list held) : Prop :=
  numbered (sourcecat st.1)
  ∧ (∀ h k, h ∈ st.2 → k ∈ held_ids h →
       (0 ≤ k < Z.of_nat (length (sourcecat st.1)))%Z)
  ∧ (∀ i r, sourcecat st.1 !! i = Some r →
       (is_held st.2 i → is_valid r = false)
       ∧ (is_valid r = false → is_held st.2 i ∨ invalid_at_start s0 i)).

(** *** Seed weights *)

(** The weight of a row before the normalisation, for the mean
    iteration count [mean]. *)
Definition raw_weight (mean : F64.t) (r : source) : F64.t :=
  F64.mul (F64.of_bool (negb (is_active r)))
    (Np.np_exp (F64.div (F64.sub mean (F64.of_Z (n_iter r))) (F64.of_Z 20))).

(** The weight law of the spec for one catalog state: the weights are
    returned, one per row, none is negative, they sum to 1, and the
    weight of an active row is 0.  (A nan is not [0 <= w], and only
    finite floats have a sum.) *)
Definition weight_law (s : SuperScene) : Prop :=
  ∃ ws : list F64.t,
    exp_weight s = Ok ws
    ∧ length ws = length (sourcecat s)
    ∧ Forall (λ w, F64.leb F64.zero w = true) ws
    ∧ F64.exact_sum ws = Some 1%Q
    ∧ (∀ i r w, sourcecat s !! i = Some r → is_active r = true →
                ws !! i = Some w → F64.is_zero w = true).


(** The local [fixed_inds] of [get_circular_scene], as positions among
    the candidates, for the value of [N_active] and the patch radius. *)
Definition fixed_positions (s : SuperScene) (center : Q * Q) (N_active : Z)
    (radius : Q) : list nat :=
  let inner := (outer_inner s center (candidates s center)).2 in
  let finds := Py.slice_from N_active (sort_order s center) in
  let fixed_inds :=
    Py.slice_to (Z.min (maxactive s) (Z.of_nat (length finds)))
      (List.filter (λ j, Qlt_bool (inner !!! j) radius) finds) in
  if (length fixed_inds =? 0)%nat then Py.slice_to 1 finds else fixed_inds.


(** *** What the methods leave alone *)

(** Two states of the object with the same setup: the cached scene
    coordinates, the number of sources, the configuration, the number of
    catalog rows and their [source_index] column. *)
Definition same_setup (s s' : SuperScene) : Prop :=
  scene_coordinates s' = scene_coordinates s
  ∧ n_sources s' = n_sources s
  ∧ maxactive_fraction s' = maxactive_fraction s
  ∧ target_niter s' = target_niter s
  ∧ maxradius s' = maxradius s
  ∧ minradius s' = minradius s
  ∧ maxactive s' = maxactive s
  ∧ boundary_radius s' = boundary_radius s
  ∧ nscale s' = nscale s
  ∧ source_index <$> sourcecat s' = source_index <$> sourcecat s.

(** The iteration and patch counters of every row are at least what they
    were, and no row is added or lost. *)
Definition counters_grow (s s' : SuperScene) : Prop :=
  length (sourcecat s') = length (sourcecat s)
  ∧ ∀ i r r', sourcecat s !! i = Some r → sourcecat s' !! i = Some r' →
      (n_iter r ≤ n_iter r')%Z ∧ (n_patch r ≤ n_patch r')%Z.

(** A method body whose final state is related to its initial state by
    [R], whether it returns or raises. *)
Definition keeps {A} (R : SuperScene → SuperScene → Prop) (m : M A) : Prop :=
  ∀ s, R s (m s).2.


(** *** Convergence oracles *)

(** The property [SuperScene.undone]. *)
Definition undone (s : SuperScene) : bool :=
  Np.any ((λ n, (n <? target_niter s)%Z) <$> (n_iter <$> sourcecat s)).



(** The row that a checkout of the active rows [an] and the fixed rows
    [fn] leaves at position [i], from the row [r] that was there. *)
Definition marked (an fn : list nat) (i : nat) (r : source) : source :=
  if decide (i ∈ an) then set_is_valid false (set_is_active true r)
  else if decide (i ∈ fn) then set_is_valid false r
  else r.


(** *** Runs of the protocol without any condition on the regions *)

(** The instants of a run of returning calls from [st0]. *)
Inductive reaches (st0 : SuperScene * list held) : SuperScene * list held → Prop :=
| reaches_start : reaches st0 st0
| reaches_call st c st' :
    reaches st0 st → track c st = Some st' → reaches st0 st'.

(** The sum of [g h] over the outstanding regions. *)
Definition total (g : held → nat) (out : list held) : Z :=
  foldr (λ h acc, (Z.of_nat (g h) + acc)%Z) 0%Z out.

(** What a run keeps true, besides the setup: held indices address rows,
    a row is active exactly when an outstanding region holds it as
    active, no region lists an active index twice, no two regions share
    an active index, and the occupancy counters count the held rows. *)
Definition activity_inv (s0 : SuperScene) (st : SuperScene * list held) : Prop :=
  length (scene_coordinates st.1) = length (sourcecat st.1)
  ∧ source_index <$> sourcecat st.1 = Z.of_nat <$> seq 0 (length (sourcecat st.1))
  ∧ (∀ h k, h ∈ st.2 → k ∈ held_ids h →
       (0 ≤ k < Z.of_nat (length (sourcecat st.1)))%Z)
  ∧ (∀ i r, sourcecat st.1 !! i = Some r →
       (is_active r = true ↔ ∃ h, h ∈ st.2 ∧ Z.of_nat i ∈ h.1))
  ∧ (∀ h, h ∈ st.2 → NoDup h.1)
  ∧ (∀ j1 j2 h1 h2 k, st.2 !! j1 = Some h1 → st.2 !! j2 = Some h2 → j1 ≠ j2 →
       k ∈ h1.1 → k ∉ h2.1)
  ∧ n_active st.1 = (n_active s0 + total (λ h, length h.1) st.2)%Z
  ∧ n_fixed st.1 = (n_fixed s0 + total (λ h, length h.2) st.2)%Z.


(** *** What a raising call leaves behind *)

(** The occupancy counters are the same in two states. *)
Definition same_occupancy (s s' : SuperScene) : Prop :=
  n_active s' = n_active s ∧ n_fixed s' = n_fixed s.

(** A method body that raises only exceptions in [E], and only from
    states related to its initial state by [R]. *)
Definition raising {A} (R : SuperScene → SuperScene → Prop) (E : exn → Prop)
    (m : M A) : Prop :=
  ∀ s e s', m s = (Raise e, s') → R s s' ∧ E e.

(** The exceptions of an access by field name or by index. *)
Definition lookup_error (e : exn) : Prop := e = ValueError ∨ e = IndexError.

End Methods.

End Scene.

(** ** The worker queue: [MPIQueue] *)
Module Queue.

(** The MPI communicator, as far as the queue uses it.  [Iprobe] and
    [recv] depend on when they are called: the clock counts the probes
    issued so far. *)
Class Comm := {
  task : Type;
  request : Type;
  message : Type;
  (** [comm.isend(task, dest=child, tag=tag)]: the request object. *)
  isend : task → nat → Z → request;
  (** [comm.Iprobe(source=child, tag=MPI.ANY_TAG)] at a clock value. *)
  Iprobe : nat → nat → bool;
  (** [comm.recv(source=child, tag=MPI.ANY_TAG)] at a clock value. *)
  recv : nat → nat → message;
}.

Section Methods.
Context `{Comm}.

(** Python values that [collect_one] builds its return value from;
    [PTuple a b] is the 2-tuple [(a, b)]. *)
Inductive pyobj :=
| PInt (n : Z)
| PReq (r : request)
| PMsg (m : message)
| PTuple (a b : pyobj).

Record MPIQueue := {
  busy : list (nat * request);
  idle : list nat;
  n_children : Z;
  parent : Z;
}.

(** [MPIQueue.__init__]. *)
Definition init (n_children' : Z) : MPIQueue :=
  {| busy := [];
     idle := Py.range1 (Z.to_nat n_children');
     n_children := n_children';
     parent := 0 |}.

(** One pass of [for i, (child, req) in enumerate(self.busy)], entered at
    position [i] with clock [t]: the first entry whose probe answers, with
    the clock at that probe, or the clock after the last probe. *)
Fixpoint scan (t i : nat) (l : list (nat * request))
    : (nat * (nat * request) * nat) + nat :=
  match l with
  | [] => inr t
  | (child, req) :: l' =>
      if Iprobe t child then inl (i, (child, req), t)
      else scan (S t) (S i) l'
  end.

(** [MPIQueue.collect_one]: [fuel] bounds the passes of [while True];
    [None] means that the loop is still polling after [fuel] passes.  The
    result carries the returned value, the queue and the clock. *)
Fixpoint collect_one (fuel t : nat) (q : MPIQueue)
    : option (pyobj * MPIQueue * nat) :=
  match fuel with
  | O => None
  | S fuel' =>
      match scan t 0 (busy q) with
      | inl (i, (child, req), t') =>
          let result := recv t' child in
          let ret := PTuple (PInt (Z.of_nat child)) (PReq req) in
          Some (PTuple ret (PMsg result),
                {| busy := delete i (busy q);
                   idle := idle q ++ [child];
                   n_children := n_children q;
                   parent := parent q |},
                S t')
      | inr t' => collect_one fuel' t' q
      end
  end.

(** [MPIQueue.submit]: [self.idle.pop(0)] raises [IndexError] on an empty
    list. *)
Definition submit (tk : task) (tag : Z) (q : MPIQueue) : res nat * MPIQueue :=
  match idle q with
  | [] => (Raise IndexError, q)
  | child :: idle' =>
      let req := isend tk child tag in
      (Ok child,
       {| busy := busy q ++ [(child, req)];
          idle := idle';
          n_children := n_children q;
          parent := parent q |})
  end.

(** A call made by the parent process. *)
Inductive call :=
| Submit (tk : task) (tag : Z)
| CollectOne (fuel : nat).

(** A sequence of calls, each of which returns: a [submit] that raises
    or a [collect_one] that is still polling ends the run with [None]. *)
Fixpoint run (cs : list call) (t : nat) (q : MPIQueue) : option (MPIQueue * nat) :=
  match cs with
  | [] => Some (q, t)
  | Submit tk tag :: cs' =>
      match submit tk tag q with
      | (Ok _, q') => run cs' t q'
      | (Raise _, _) => None
      end
  | CollectOne fuel :: cs' =>
      match collect_one fuel t q with
      | Some (_, q', t') => run cs' t' q'
      | None => None
      end
  end.

(** The worker ids held by the queue, idle ones first. *)
Definition workers (q : MPIQueue) : list nat := idle q ++ (fst <$> busy q).


(** [MPIQueue.closeout]: the kill messages [comm.send(None, dest=child,
    tag=0)], as the pairs (destination, tag) in the order they are sent. *)
Definition closeout (q : MPIQueue) : list (nat * Z) :=
  (λ child, (child, 0%Z)) <$> Py.range1 (Z.to_nat (n_children q)).

(** The calls [submit(task, tag)] for a list of tasks with their tags. *)
Definition submits (tks : list (task * Z)) : list call :=
  (λ x, Submit x.1 x.2) <$> tks.

End Methods.

End Queue.

(** ** Concrete settings used to run the model *)
Module Demo.
Import Scene.

(** [np.hypot] on arguments whose hypotenuse is rational (in particular
    when one argument is 0); other results are rounded down. *)
Definition hypot_exact (x y : Q) : Q :=
  let s := Qred (x * x + y * y) in
  Qred (Z.sqrt (Qnum s * Z.pos (Qden s)) # Qden s).

(** A flat sky: scene coordinates are the sky coordinates themselves;
    one parameter column, "flux". *)
#[export] Instance flat : Imports := {|
  PAR_COLS := ["flux"];
  hypot := hypot_exact;
  sky_to_scene := λ ra dec, (ra, dec);
  sourcecat_dtype :=
    ["source_index"; "is_active"; "is_valid"; "n_iter"; "n_patch";
     "ra"; "dec"; "rhalf"; "flux"];
|}.

(** [np.exp] where its float64 value is beyond doubt: 1 at a zero, inf
    from 710 on (exp overflows above 709.78), 0 up to -746 (exp
    underflows below -745.13), and the limits at the infinities.  Other
    arguments are not tabulated: the table answers nan there, and no
    scenario reaches them. *)
Definition exp_table (x : F64.t) : F64.t :=
  match x with
  | S754_nan => F64.nan
  | S754_zero _ => F64.one
  | S754_infinity false => F64.inf
  | S754_infinity true => F64.zero
  | S754_finite _ _ _ =>
      if F64.leb (F64.of_Z 710) x then F64.inf
      else if F64.leb x (F64.of_Z (-746)) then F64.zero
      else F64.nan
  end.

(** The sum of a short array: NumPy adds fewer than 8 entries one after
    the other. *)
Definition sum_seq (l : list F64.t) : F64.t := foldl F64.add F64.zero l.

(** The validation of probabilities: numbers, none negative, whose sum
    is within [sqrt(eps)] = 2^-26 of 1. *)
Definition choice_valid (p : list F64.t) : bool :=
  forallb (λ x, negb (F64.is_nan x)) p
  && forallb (λ x, F64.leb F64.zero x) p
  && match F64.exact_sum p with
     | Some q => Qle_bool (1 - Qpower 2 (-26)) q && Qle_bool q (1 + Qpower 2 (-26))
     | None => false
     end.

#[export, refine] Instance numpy_small : Np.Library := {|
  Np.np_exp := exp_table;
  Np.np_sum := sum_seq;
  Np.np_choice_valid := choice_valid;
|}.
Proof.
  - intros [s|[]| |s m e]; try reflexivity. unfold exp_table.
    destruct (F64.leb _ _); [reflexivity|]. destruct (F64.leb _ _); reflexivity.
  - intros l _ Hl. unfold sum_seq.
    assert (F64.is_nan F64.zero || F64.sign_clear F64.zero = true) as Hz by done.
    revert Hz. generalize F64.zero.
    induction Hl as [|x l Hx _ IH]; intros a Ha; [done|].
    cbn [foldl]. apply IH.
    destruct a as [[]|[]| |[] ma ea], x as [[]|[]| |[] mx ex]; try done.
    unfold F64.add, SFadd. cbn [cond_Zopp].
    destruct (shl_align ma ea _) as [a1 a2], (shl_align mx ex _) as [b1 b2].
    cbn [fst].
    change (Z.pos a1 + Z.pos b1)%Z with (Z.pos (a1 + b1)). unfold binary_normalize.
    F64.round_sign.
  - intros l _ Hl. unfold sum_seq.
    assert (F64.is_nan F64.zero || F64.is_zero F64.zero = true) as Hz by done.
    revert Hz. generalize F64.zero.
    induction Hl as [|x l Hx _ IH]; intros a Ha; [done|].
    cbn [foldl]. apply IH.
    destruct a as [[]|[]| |[] ma ea], x as [[]|[]| |[] mx ex]; done.
  - intros p Hp. unfold choice_valid in Hp.
    apply andb_prop in Hp as [Hp _]. apply andb_prop in Hp as [Hp _].
    apply Forall_forall. intros x Hx. rewrite forallb_forall in Hp.
    apply negb_true_iff, Hp. by apply list_elem_of_In.
Defined.

(** A valid, inactive source at [(x, 0)] with half-light radius [rh]. *)
Definition src (i : Z) (x rh : Q) : source :=
  Source i (<["ra" := x]> (<["dec" := 0%Q]> (<["rhalf" := rh]> (<["flux" := 1%Q]> ∅))))
         false true 0 0.

(** Scenario A: five sources on a line at x = 0, 2, 4, 6, 8 with
    rhalf = 0.1, and the reference configuration with two active sources
    per patch. *)
Definition line5 : list source :=
  [src 0 0 (1 # 10); src 1 2 (1 # 10); src 2 4 (1 # 10); src 3 6 (1 # 10);
   src 4 8 (1 # 10)].
Definition sceneA : SuperScene := init line5 200 (1 # 10) 2 3 8 5 1.

(** Two sources close to each other: both lie inside [maxradius]. *)
Definition near2 : list source := [src 0 0 (1 # 10); src 1 1 (1 # 10)].
Definition scene2 : SuperScene := init near2 200 (1 # 10) 20 3 8 5 1.

(** The first source of [near2] handed in as an active row, with no fixed
    rows, although nothing was checked out. *)
Definition rows0 : recarray := RecArray sourcecat_dtype [src 0 0 (1 # 10)].
Definition norows : recarray := RecArray sourcecat_dtype [].

(** Scenario A after a checkout seeded with source 1 (x = 2): the state
    it leaves and the rows it hands out. *)
Definition checkoutA : res checkout * SuperScene :=
  checkout_region (Some 1%Z) 0 sceneA.
Definition sceneA1 : SuperScene := checkoutA.2.
Definition activeA : recarray :=
  match checkoutA.1 with
  | Ok (Region _ a _) => a
  | _ => norows
  end.
Definition fixedA : recarray :=
  match checkoutA.1 with
  | Ok (Region _ _ f) => f
  | _ => norows
  end.

(** A catalog whose only source is checked out as active. *)
Definition busy1 : list source := [set_is_active true (src 0 0 (1 # 10))].
Definition scene_busy : SuperScene := init busy1 200 (1 # 10) 20 3 8 5 1.

(** Scenario B: two workers; tasks and messages are strings, a request
    object records the task and its destination; worker 2 has finished
    and worker 1 has not. *)
#[export] Instance mpi2 : Queue.Comm := {|
  Queue.task := string;
  Queue.request := string * nat;
  Queue.message := string;
  Queue.isend := λ tk child _, (tk, child);
  Queue.Iprobe := λ _ child, (child =? 2)%nat;
  Queue.recv := λ _ child, if (child =? 2)%nat then "result_B" else "result_A";
|}.

(** Scenario B after [submit(A)] and [submit(B)]: both workers busy. *)
Definition queueB : Queue.MPIQueue :=
  (Queue.submit "B" 1 (Queue.submit "A" 1 (Queue.init 2)).2).2.

(** Scenario B after the collection of the finished worker. *)
Definition queueB_collected : Queue.MPIQueue :=
  match Queue.collect_one 1 0 queueB with
  | Some (_, q, _) => q
  | None => queueB
  end.


(** The region of that checkout, and the instant of the run after it:
    one outstanding region, holding rows 1 and 0 as active and row 2 as
    fixed. *)
Definition regionA : CircularRegion :=
  match checkoutA.1 with
  | Ok (Region g _ _) => g
  | _ => {| region_ra := 0; region_dec := 0; region_radius := 0 |}
  end.
Definition runA1 : SuperScene * list held := (sceneA1, [([1; 0]%Z, [2%Z])]).

(** Scenario A with a target of 0 iterations: nothing is left to do. *)
Definition sceneA_done : SuperScene := init line5 0 (1 # 10) 2 3 8 5 1.

(** The rows of [line5] with other flags and counters, same activity and
    sizes. *)
Definition line5_touched : list source :=
  (λ r, set_is_valid false (set_n_iter 7 r)) <$> line5.


(** The first source of [near2] listed twice as an active row. *)
Definition rows00 : recarray :=
  RecArray sourcecat_dtype [src 0 0 (1 # 10); src 0 0 (1 # 10)].

(** A fixed row whose index addresses no row of [line5]. *)
Definition rows9 : recarray := RecArray sourcecat_dtype [src 9 0 (1 # 10)].


(** Scenario B before the second submit: worker 1 is busy and has no
    result; the two tasks of the scenario with their tags. *)
Definition queueA : Queue.MPIQueue := (Queue.submit "A" 1 (Queue.init 2)).2.
Definition tasksB : list (Queue.task * Z) := [("A", 1%Z); ("B", 1%Z)].

(** Scenario A after the checkout, when the rows come back with a fixed
    row that does not exist. *)
Definition sceneA1_failed : SuperScene :=
  (checkin_region activeA rows9 10 sceneA1).2.


(** What [collect_one] returns in Scenario B. *)
Definition resultB : @Queue.pyobj mpi2 :=
  @Queue.PTuple mpi2
    (@Queue.PTuple mpi2 (@Queue.PInt mpi2 2) (@Queue.PReq mpi2 ("B", 2%nat)))
    (@Queue.PMsg mpi2 "result_B").


(** Two sources far apart in iterations: source 0 is checked out as
    active, source 1 has made 30000 iterations. *)
Definition far2 : list source :=
  [set_is_active true (src 0 0 (1 # 10)); set_n_iter 30000 (src 1 1 (1 # 10))].
Definition scene_far : SuperScene := init far2 200 (1 # 10) 20 3 8 5 1.

(** Six sources on a line that have made no iteration. *)
Definition six : list source :=
  (λ i, src (Z.of_nat i) (inject_Z (Z.of_nat i)) (1 # 10)) <$> seq 0 6.
Definition scene6 : SuperScene := init six 200 (1 # 10) 20 3 8 5 1.

(** The rows of [line5] as [ingest] builds them from a file that has no
    [is_valid] column: [np.zeros] leaves the flag false. *)
Definition ingested5 : list source := set_is_valid false <$> line5.
Definition sceneZ : SuperScene := init ingested5 200 (1 # 10) 2 3 8 5 1.

(** Rows without any field, for a source index that addresses no row. *)
Definition nofield9 : recarray := RecArray [] [src 9 0 (1 # 10)].


(** On [sceneZ]: the checkout seeded with source 1, and the checkin of
    the rows it hands out with 10 iterations. *)
Definition checkoutZ : res checkout * SuperScene :=
  checkout_region (Some 1%Z) 0 sceneZ.
Definition sceneZ1 : SuperScene := checkoutZ.2.
Definition activeZ : recarray :=
  match checkoutZ.1 with
  | Ok (Region _ a _) => a
  | _ => norows
  end.
Definition fixedZ : recarray :=
  match checkoutZ.1 with
  | Ok (Region _ _ f) => f
  | _ => norows
  end.
Definition sceneZ2 : SuperScene := (checkin_region activeZ fixedZ 10 sceneZ1).2.

End Demo.

(** * Properties *)

(** ** Index arithmetic and array updates *)
Section ArrayFacts.

Lemma norm_index_lt n k i : Py.norm_index n k = Ok i → (i < n)%nat.
Proof.
  unfold Py.norm_index.
  destruct ((0 <=? k) && (k <? Z.of_nat n))%Z eqn:E1.
  - intros [= <-]. apply andb_prop in E1 as [? ?]. lia.
  - destruct ((- Z.of_nat n <=? k) && (k <? 0))%Z eqn:E2; [|discriminate].
    intros [= <-]. apply andb_prop in E2 as [? ?]. lia.
Qed.

Lemma norm_index_nonneg n k :
  (0 ≤ k < Z.of_nat n)%Z → Py.norm_index n k = Ok (Z.to_nat k).
Proof.
  intros Hk. unfold Py.norm_index.
  replace ((0 <=? k) && (k <? Z.of_nat n))%Z with true; [done|].
  symmetry. apply andb_true_intro. split; lia.
Qed.

Lemma norm_index_of_nat n i i' :
  Py.norm_index n (Z.of_nat i) = Ok i' → i' = i ∧ (i < n)%nat.
Proof.
  intros Hn. pose proof (norm_index_lt _ _ _ Hn) as Hlt.
  unfold Py.norm_index in Hn.
  destruct ((0 <=? Z.of_nat i) && (Z.of_nat i <? Z.of_nat n))%Z eqn:E1.
  - injection Hn as <-. apply andb_prop in E1 as [? ?]. lia.
  - destruct ((- Z.of_nat n <=? Z.of_nat i) && (Z.of_nat i <? 0))%Z eqn:E2;
      [|discriminate].
    apply andb_prop in E2 as [? ?]. lia.
Qed.

Lemma norm_inds_cons_inv n k inds ks :
  Np.norm_inds n (k :: inds) = Ok ks →
  ∃ i ks', ks = i :: ks' ∧ Py.norm_index n k = Ok i ∧ Np.norm_inds n inds = Ok ks'.
Proof.
  cbn. destruct (Py.norm_index n k) as [i|]; cbn; [|discriminate].
  destruct (Np.norm_inds n inds) as [ks'|]; cbn; [|discriminate].
  intros [= <-]. eauto.
Qed.

Lemma norm_inds_of_nat n l ks :
  Np.norm_inds n (Z.of_nat <$> l) = Ok ks → ks = l.
Proof.
  revert ks. induction l as [|i l IH]; intros ks.
  - cbn. by intros [= <-].
  - rewrite fmap_cons. intros Hn.
    apply norm_inds_cons_inv in Hn as (i' & ks' & -> & Hi & Hks).
    apply norm_index_of_nat in Hi as [-> _]. f_equal. by apply IH.
Qed.

Lemma norm_inds_nonneg n inds :
  Forall (λ k, 0 ≤ k < Z.of_nat n)%Z inds →
  Np.norm_inds n inds = Ok (Z.to_nat <$> inds).
Proof.
  induction 1 as [|k inds Hk _ IH]; [done|].
  cbn. rewrite norm_index_nonneg by done. cbn. by rewrite IH.
Qed.

Lemma norm_inds_bound n inds ks :
  Np.norm_inds n inds = Ok ks → Forall (λ i, i < n)%nat ks.
Proof.
  revert ks. induction inds as [|k inds IH]; intros ks.
  - cbn. intros [= <-]. constructor.
  - intros Hn. apply norm_inds_cons_inv in Hn as (i & ks' & -> & Hi & Hks).
    constructor; [by eapply norm_index_lt | by apply IH].
Qed.

Lemma norm_inds_length n inds ks :
  Np.norm_inds n inds = Ok ks → length ks = length inds.
Proof.
  revert ks. induction inds as [|k inds IH]; intros ks.
  - cbn. by intros [= <-].
  - intros Hn. apply norm_inds_cons_inv in Hn as (i & ks' & -> & Hi & Hks).
    cbn. f_equal. by apply IH.
Qed.

Context {A V : Type}.
Implicit Types (upd : V → A → A) (a : list A) (ks : list nat) (vals : list V).

Lemma scatter_nil_l upd vals a : Np.scatter upd [] vals a = a.
Proof. done. Qed.

Lemma scatter_nil_r upd ks a : Np.scatter upd ks [] a = a.
Proof. unfold Np.scatter. by destruct ks. Qed.

Lemma scatter_cons upd i ks v vals a :
  Np.scatter upd (i :: ks) (v :: vals) a = Np.scatter upd ks vals (alter (upd v) i a).
Proof. done. Qed.

Lemma scatter_length upd ks vals a : length (Np.scatter upd ks vals a) = length a.
Proof.
  revert vals a. induction ks as [|i ks IH]; intros [|v vals] a; try done.
  rewrite scatter_cons, IH. apply length_alter.
Qed.

(** A row that the index array does not address is not written. *)
Lemma scatter_lookup_notin upd ks vals a i :
  i ∉ ks → Np.scatter upd ks vals a !! i = a !! i.
Proof.
  revert vals a. induction ks as [|k ks IH]; intros [|v vals] a Hi; try done.
  rewrite scatter_cons. apply not_elem_of_cons in Hi as [Hne Hi].
  rewrite IH by done. by apply list_lookup_alter_ne.
Qed.

(** With distinct indices, row [ks[j]] receives [vals[j]]. *)
Lemma scatter_lookup_nodup upd ks vals a j i v :
  NoDup ks → ks !! j = Some i → vals !! j = Some v →
  Np.scatter upd ks vals a !! i = upd v <$> a !! i.
Proof.
  revert vals a j. induction ks as [|k ks IH]; intros [|w vals] a j Hnd Hj Hv;
    try done.
  apply NoDup_cons in Hnd as [Hk Hnd]. rewrite scatter_cons.
  destruct j as [|j]; cbn in Hj, Hv.
  - injection Hj as ->. injection Hv as ->.
    rewrite scatter_lookup_notin by done. apply list_lookup_alter_eq.
  - rewrite (IH vals _ j) by done.
    rewrite list_lookup_alter_ne; [done|].
    intros ->. apply Hk. by eapply list_elem_of_lookup_2.
Qed.

(** A column that the update does not touch keeps all its values. *)
Lemma scatter_preserves {B} (g : A → B) upd ks vals a :
  (∀ v r, g (upd v r) = g r) →
  g <$> Np.scatter upd ks vals a = g <$> a.
Proof.
  intros Hg. revert vals a.
  induction ks as [|k ks IH]; intros [|v vals] a; try done.
  rewrite scatter_cons, IH. apply list_eq. intros i.
  rewrite !list_lookup_fmap.
  destruct (decide (k = i)) as [->|Hne].
  - rewrite list_lookup_alter_eq. destruct (a !! i); cbn; [|done].
    by rewrite Hg.
  - by rewrite list_lookup_alter_ne.
Qed.

(** Broadcasting one value: every addressed row gets it, also when an
    index is repeated. *)
Lemma scatter_scalar_lookup upd ks v a i :
  (∀ r, upd v (upd v r) = upd v r) →
  Np.scatter upd ks (replicate (length ks) v) a !! i
  = if decide (i ∈ ks) then upd v <$> a !! i else a !! i.
Proof.
  intros Hidem. revert a. induction ks as [|k ks IH]; intros a.
  - cbn. by rewrite decide_False by set_solver.
  - cbn [length replicate]. rewrite scatter_cons, IH.
    destruct (decide (k = i)) as [->|Hne].
    + rewrite (decide_True (P := i ∈ i :: ks)) by constructor.
      rewrite list_lookup_alter_eq.
      destruct (decide (i ∈ ks)); [|done].
      destruct (a !! i); cbn; [|done]. by rewrite Hidem.
    + rewrite list_lookup_alter_ne by done.
      destruct (decide (i ∈ ks)).
      * by rewrite decide_True by (by constructor).
      * by rewrite decide_False by (by apply not_elem_of_cons).
Qed.

End ArrayFacts.

(** ** The state-and-exception monad *)
Section MonadFacts.
Import Scene.

Lemma bind_ok_inv {A B} (m : M A) (f : A → M B) s b s' :
  bind m f s = (Ok b, s') → ∃ a s1, m s = (Ok a, s1) ∧ f a s1 = (Ok b, s').
Proof.
  unfold bind. destruct (m s) as [[a|e] s1]; [eauto|discriminate].
Qed.

Lemma bind_ok {A B} (m : M A) (f : A → M B) s a s1 :
  m s = (Ok a, s1) → bind m f s = f a s1.
Proof. unfold bind. by intros ->. Qed.

Lemma bind_raise {A B} (m : M A) (f : A → M B) s e s1 :
  m s = (Raise e, s1) → bind m f s = (Raise e, s1).
Proof. unfold bind. by intros ->. Qed.

Lemma lift_ok_inv {A} (r : res A) s a s' :
  lift r s = (Ok a, s') → r = Ok a ∧ s' = s.
Proof. unfold lift. by intros [= -> ->]. Qed.

End MonadFacts.

(** ** Patch selection and checkout *)
Section SelectionFacts.
Import Scene.
Context `{Imports} `{Np.Library}.

(** C10.  The [nscale] argument of the constructor is ignored: whatever
    value the caller passes, the attribute read by the patch selection is
    3, and the selection computed from the constructed object is the same
    for any two values of the argument. *)
Theorem nscale_argument_ignored cat tn mf mp (ns ns' : Q) br maxr minr center :
  nscale (init cat tn mf mp ns br maxr minr) = 3%Q
  ∧ init cat tn mf mp ns br maxr minr = init cat tn mf mp ns' br maxr minr
  ∧ get_circular_scene (init cat tn mf mp ns br maxr minr) center
    = get_circular_scene (init cat tn mf mp ns' br maxr minr) center.
Proof. repeat split; reflexivity. Qed.

Lemma any_true (l : list bool) : Np.any l = true ↔ true ∈ l.
Proof.
  unfold Np.any. induction l as [|b l IH]; cbn.
  - split; [discriminate | by intros ?%elem_of_nil].
  - destruct b; cbn.
    + split; [intros _; constructor | done].
    + rewrite IH. split; [intros ?; by constructor|].
      intros [?|?]%elem_of_cons; done.
Qed.

Lemma gather_lookup {A} `{Inhabited A} (a : list A) ks j k x :
  ks !! j = Some k → a !! k = Some x → Np.gather a ks !! j = Some x.
Proof.
  intros Hj Hk. unfold Np.gather. rewrite list_lookup_fmap, Hj. cbn.
  by rewrite (list_lookup_total_correct _ _ _ Hk).
Qed.

(** A conflict found by the selection: some row inside the boundary
    radius is active. *)
Lemma get_circular_scene_conflict s center k r :
  k ∈ query_ball_point s center (boundary_radius s) →
  sourcecat s !! k = Some r → is_active r = true →
  get_circular_scene s center = Ok None.
Proof.
  intros Hk Hr Ha. unfold get_circular_scene.
  rewrite bool_decide_eq_false_2 by (intros E; rewrite E in Hk; by apply elem_of_nil in Hk).
  replace (Np.any _) with true; [done|]. symmetry. apply any_true.
  apply list_elem_of_lookup_1 in Hk as [j Hj].
  apply list_elem_of_lookup. exists j.
  rewrite list_lookup_fmap, (gather_lookup _ _ _ _ _ Hj Hr). cbn. by rewrite Ha.
Qed.

(** C3.  When a row within [boundary_radius] of the drawn center is
    active, [checkout_region] returns the conflict value
    [(center, None, None)] and the object is left exactly as it was: no
    [is_active] or [is_valid] flag and neither occupancy counter changes. *)
Theorem checkout_conflict_no_mutation s seed_index rnd c k r :
  draw_center s seed_index rnd = Ok c →
  k ∈ query_ball_point s (sky_to_scene c.1 c.2) (boundary_radius s) →
  sourcecat s !! k = Some r →
  is_active r = true →
  checkout_region seed_index rnd s = (Ok (Conflict (sky_to_scene c.1 c.2)), s).
Proof.
  intros Hc Hk Hr Ha. unfold checkout_region, mbind, M_mbind.
  rewrite (bind_ok get _ s s s) by done.
  rewrite (bind_ok _ _ s c s) by (by rewrite Hc).
  rewrite (bind_ok _ _ s None s); [done|].
  by rewrite (get_circular_scene_conflict _ _ _ _ Hk Hr Ha).
Qed.

(** *** [N_inside] *)

Lemma insert_key_perm key i l : Np.insert_key key i l ≡ₚ i :: l.
Proof.
  induction l as [|j l IH]; [done|]. cbn.
  destruct (Qle_bool (key i) (key j)); [done|].
  rewrite IH. apply Permutation_swap.
Qed.

Lemma argsort_perm a : Np.argsort a ≡ₚ seq 0 (length a).
Proof.
  unfold Np.argsort. induction (seq 0 (length a)) as [|i l IH]; [done|].
  cbn. by rewrite insert_key_perm, IH.
Qed.

Lemma argsort_length a : length (Np.argsort a) = length a.
Proof. by rewrite (Permutation_length (argsort_perm a)), length_seq. Qed.

Lemma key_le_trans key i j k : Np.key_le key i j → Np.key_le key j k → Np.key_le key i k.
Proof.
  unfold Np.key_le. rewrite !Qle_bool_iff. apply Qle_trans.
Qed.

Lemma key_le_total key i j : Qle_bool (key i) (key j) = false → Np.key_le key j i.
Proof.
  unfold Np.key_le. intros Hf. apply Qle_bool_iff, Qlt_le_weak, Qnot_le_lt.
  intros Hle. apply Qle_bool_iff in Hle. rewrite Hle in Hf. discriminate.
Qed.

Lemma insert_key_sorted key i l :
  StronglySorted (Np.key_le key) l → StronglySorted (Np.key_le key) (Np.insert_key key i l).
Proof.
  induction 1 as [|j l Hl IH Hj]; cbn; [repeat constructor|].
  destruct (Qle_bool (key i) (key j)) eqn:Hij.
  - constructor; [by constructor|]. constructor; [done|].
    eapply Forall_impl; [exact Hj|]. intros k Hk. by eapply key_le_trans.
  - constructor; [done|].
    rewrite (insert_key_perm key i l). constructor; [|done].
    by apply key_le_total.
Qed.

Lemma argsort_sorted a : StronglySorted (Np.key_le (λ j, a !!! j)) (Np.argsort a).
Proof.
  unfold Np.argsort. induction (seq 0 (length a)) as [|i l IH]; [constructor|].
  cbn. by apply insert_key_sorted.
Qed.

(** In a boolean array that never goes from [False] back to [True], the
    position of the first [False] is the number of [True] entries. *)
Lemma first_false_count (l : list bool) n :
  StronglySorted (λ b1 b2 : bool, b2 = true → b1 = true) l →
  Np.first_false l = Some n →
  n = length (List.filter (λ b : bool, b) l).
Proof.
  intros Hl. revert n. induction Hl as [|b l Hl IH Hb]; intros n; [discriminate|].
  cbn. destruct b.
  - destruct (Np.first_false l) as [n'|]; [|discriminate].
    intros [= <-]. cbn. f_equal. by apply IH.
  - intros [= <-]. clear IH Hl. induction Hb as [|b l Hb _ IH]; [done|].
    cbn. destruct b; [by specialize (Hb eq_refl)|done].
Qed.

Lemma first_false_some (l : list bool) : false ∈ l → is_Some (Np.first_false l).
Proof.
  induction l as [|b l IH]; [by intros ?%elem_of_nil|].
  cbn. destruct b; [|eauto].
  intros [?|Hl]%elem_of_cons; [done|].
  destruct (IH Hl) as [n ->]. eauto.
Qed.

Lemma first_false_none (l : list bool) :
  Forall (λ b, b = true) l → Np.first_false l = None.
Proof. induction 1 as [|b l -> _ IH]; [done|]. cbn. by rewrite IH. Qed.

Lemma argmin_count (l : list bool) :
  false ∈ l →
  StronglySorted (λ b1 b2 : bool, b2 = true → b1 = true) l →
  Np.argmin l = Ok (length (List.filter (λ b : bool, b) l)).
Proof.
  intros Hf Hl. destruct (first_false_some l Hf) as [n Hn].
  rewrite <- (first_false_count l n Hl Hn).
  unfold Np.argmin. rewrite Hn.
  destruct l; [by apply elem_of_nil in Hf|done].
Qed.

Lemma sorted_outer_monotone s center :
  StronglySorted (λ b1 b2 : bool, b2 = true → b1 = true)
    ((λ o, Qlt_bool o (maxradius s)) <$> sorted_outer s center).
Proof.
  unfold sorted_outer, sort_order.
  generalize (outer_inner s center (candidates s center)).1. intros outer.
  pose proof (argsort_sorted outer) as Hs.
  induction Hs as [|i l Hl IH Hi]; [constructor|].
  cbn. constructor; [done|].
  apply Forall_fmap, Forall_fmap. eapply Forall_impl; [exact Hi|].
  intros j Hij. cbn. unfold Qlt_bool. rewrite !negb_true_iff.
  intros Hj. unfold Np.key_le in Hij. apply Qle_bool_iff in Hij.
  destruct (Qle_bool (maxradius s) (outer !!! i)) eqn:Hm; [|done].
  apply Qle_bool_iff in Hm.
  assert (Qle_bool (maxradius s) (outer !!! j) = true) as Hc
    by (apply Qle_bool_iff; by eapply Qle_trans).
  congruence.
Qed.

Lemma count_inside_filter s center :
  count_inside s center
  = length (List.filter (λ b : bool, b)
              ((λ o, Qlt_bool o (maxradius s)) <$> sorted_outer s center)).
Proof.
  unfold count_inside. induction (sorted_outer s center) as [|o l IH]; [done|].
  cbn. destruct (Qlt_bool o (maxradius s)); cbn; by rewrite IH.
Qed.

(** Where the code does what C2 says: as soon as one candidate has
    [outer >= maxradius], [N_inside] is the number of sorted candidates
    with [outer < maxradius]. *)
Lemma N_inside_counts s center o :
  o ∈ sorted_outer s center → Qlt_bool o (maxradius s) = false →
  N_inside s center = Ok (count_inside s center).
Proof.
  intros Ho Hout. rewrite count_inside_filter. unfold N_inside.
  apply argmin_count; [|apply sorted_outer_monotone].
  rewrite <- Hout.
  by apply (list_elem_of_fmap_2 (λ o, Qlt_bool o (maxradius s))).
Qed.

(** The active set returned by the selection is the slice
    [order[:min(maxactive, N_inside)]] of the sort order. *)
Lemma get_circular_scene_active s center radius a f :
  get_circular_scene s center = Ok (Some (radius, a, f)) →
  ∃ n, N_inside s center = Ok n
       ∧ a = Np.gather (candidates s center)
               (Py.slice_to (Z.min (maxactive s) (Z.of_nat n)) (sort_order s center)).
Proof.
  unfold get_circular_scene, N_inside, sorted_outer, sort_order, candidates.
  destruct (bool_decide _); [discriminate|].
  destruct (Np.any _); [discriminate|].
  destruct (Np.argmin _) as [n|]; [|discriminate]. cbn.
  destruct (Np.amax _) as [m|]; [|discriminate]. cbn.
  intros [= _ <- _]. eauto.
Qed.

Lemma ball_from_bound i pts center r k :
  k ∈ ball_from i pts center r → (i ≤ k < i + length pts)%nat.
Proof.
  revert i. induction pts as [|p pts IH]; intros i; cbn; [by intros ?%elem_of_nil|].
  destruct (Qle_bool _ r).
  - intros [->|Hk]%elem_of_cons; [lia|]. apply IH in Hk. lia.
  - intros Hk. apply IH in Hk. lia.
Qed.

Lemma outer_length s center kinds :
  length (outer_inner s center kinds).1 = length kinds.
Proof.
  unfold outer_inner, Np.gather. cbn.
  rewrite length_zip_with, !length_fmap. lia.
Qed.

Lemma sorted_outer_length s center :
  length (sorted_outer s center) = length (candidates s center).
Proof.
  unfold sorted_outer, sort_order, Np.gather.
  by rewrite length_fmap, argsort_length, outer_length.
Qed.

(** The failing case of C2 in general.  When every candidate has
    [outer < maxradius] (no candidate active, [maxactive] not negative),
    [np.argmin] of the all-[True] array is 0: [N_inside] is 0 although
    all candidates are inside, the active slice is empty, and the
    selection ends in the [ValueError] of [max] on an empty array. *)
Lemma all_inside_selection_raises s center :
  length (scene_coordinates s) = length (sourcecat s) →
  candidates s center ≠ [] →
  (∀ k r, k ∈ candidates s center → sourcecat s !! k = Some r →
          is_active r = false) →
  Forall (λ o, Qlt_bool o (maxradius s) = true) (sorted_outer s center) →
  (0 ≤ maxactive s)%Z →
  N_inside s center = Ok 0%nat
  ∧ count_inside s center = length (candidates s center)
  ∧ get_circular_scene s center = Raise ValueError.
Proof.
  intros Hwf Hne Hina Hall Hmax.
  assert (N_inside s center = Ok 0%nat) as HN.
  { unfold N_inside, Np.argmin.
    rewrite first_false_none by (by apply Forall_fmap).
    destruct (sorted_outer s center) as [|o l] eqn:E; [|done].
    exfalso. apply Hne. apply length_zero_iff_nil.
    by rewrite <- sorted_outer_length, E. }
  split; [done|]. split.
  - rewrite <- sorted_outer_length. unfold count_inside.
    induction Hall as [|o l Ho _ IH]; [done|]. cbn. rewrite Ho. cbn. by rewrite IH.
  - unfold get_circular_scene.
    change (query_ball_point s center (boundary_radius s)) with (candidates s center).
    rewrite bool_decide_eq_false_2 by done.
    replace (Np.any _) with false; last first.
    { symmetry. apply not_true_is_false. rewrite any_true.
      intros Hin. apply list_elem_of_fmap in Hin as (r & Hr & Hin).
      unfold Np.gather in Hin. apply list_elem_of_fmap in Hin as (k & -> & Hk).
      pose proof (ball_from_bound _ _ _ _ _ Hk) as Hb.
      destruct (lookup_lt_is_Some_2 (sourcecat s) k) as [r Hr']; [lia|].
      rewrite (list_lookup_total_correct _ _ _ Hr') in Hr.
      specialize (Hina k r Hk Hr'). congruence. }
    change (Np.argmin _) with (N_inside s center). rewrite HN.
    unfold mbind, res_mbind, res_bind at 1.
    replace (Z.min (maxactive s) (Z.of_nat 0)) with 0%Z by lia.
    reflexivity.
Qed.

(** *** The selected rows are distinct *)

Lemma ball_from_NoDup i pts center r : NoDup (ball_from i pts center r).
Proof.
  revert i. induction pts as [|p pts IH]; intros i; cbn; [constructor|].
  destruct (Qle_bool _ r); [|done].
  constructor; [|done]. intros Hi. apply ball_from_bound in Hi. lia.
Qed.

Lemma slice_to_take {A} (k : Z) (l : list A) :
  Py.slice_to k l = take (Py.slice_bound (length l) k) l.
Proof. done. Qed.

Lemma gather_NoDup (kinds : list nat) ps :
  NoDup kinds → Forall (λ p, p < length kinds)%nat ps → NoDup ps →
  NoDup (Np.gather kinds ps).
Proof.
  intros Hk Hps Hnd. unfold Np.gather.
  apply NoDup_fmap_2_strong; [|done].
  intros p q Hp Hq Heq. rewrite Forall_forall in Hps.
  destruct (lookup_lt_is_Some_2 kinds p (Hps p Hp)) as [x Hx].
  destruct (lookup_lt_is_Some_2 kinds q (Hps q Hq)) as [y Hy].
  rewrite (list_lookup_total_correct _ _ _ Hx),
    (list_lookup_total_correct _ _ _ Hy) in Heq. subst y.
  by apply (NoDup_lookup kinds p q x).
Qed.

Lemma gather_disjoint (kinds : list nat) ps qs i :
  NoDup kinds →
  Forall (λ p, p < length kinds)%nat ps → Forall (λ p, p < length kinds)%nat qs →
  (∀ p, p ∈ ps → p ∉ qs) →
  i ∈ Np.gather kinds ps → i ∉ Np.gather kinds qs.
Proof.
  intros Hk Hps Hqs Hdisj Hi Hi'. unfold Np.gather in *.
  apply list_elem_of_fmap in Hi as (p & -> & Hp).
  apply list_elem_of_fmap in Hi' as (q & Heq & Hq).
  rewrite Forall_forall in Hps. rewrite Forall_forall in Hqs.
  destruct (lookup_lt_is_Some_2 kinds p (Hps p Hp)) as [x Hx].
  destruct (lookup_lt_is_Some_2 kinds q (Hqs q Hq)) as [y Hy].
  rewrite (list_lookup_total_correct _ _ _ Hx),
    (list_lookup_total_correct _ _ _ Hy) in Heq. subst y.
  assert (p = q) as -> by (by apply (NoDup_lookup kinds p q x)).
  by apply (Hdisj q).
Qed.

(** The active rows of a selection are pairwise distinct and none of
    them is among its fixed rows. *)
Lemma get_circular_scene_distinct s center radius an fn :
  get_circular_scene s center = Ok (Some (radius, an, fn)) →
  NoDup an ∧ ∀ i, i ∈ an → i ∉ fn.
Proof.
  unfold get_circular_scene.
  change (query_ball_point s center (boundary_radius s)) with (candidates s center).
  destruct (bool_decide _); [discriminate|].
  destruct (Np.any _); [discriminate|].
  destruct (Np.argmin _) as [n|]; [|discriminate].
  unfold mbind, res_mbind, res_bind at 1.
  destruct (Np.amax _) as [m|]; [|discriminate].
  unfold mbind, res_mbind, res_bind at 1.
  set (outer := (outer_inner s center (candidates s center)).1).
  set (inner := (outer_inner s center (candidates s center)).2).
  set (order := Np.argsort outer).
  set (k := Z.min (maxactive s) (Z.of_nat n)).
  set (finds := Py.slice_from k order).
  set (fixed_inds := if (_ =? 0)%nat then _ else _).
  intros [= _ <- <-].
  assert (NoDup (candidates s center)) as Hkinds by apply ball_from_NoDup.
  assert (NoDup order) as Hord.
  { unfold order. rewrite argsort_perm. apply NoDup_seq. }
  assert (Forall (λ p, p < length (candidates s center))%nat order) as Hrange.
  { apply Forall_forall. intros p Hp. unfold order in Hp.
    rewrite argsort_perm in Hp. apply elem_of_seq in Hp.
    unfold outer in Hp. rewrite outer_length in Hp. lia. }
  assert (∀ p, p ∈ fixed_inds → p ∈ finds) as Hfixed.
  { intros p. unfold fixed_inds.
    destruct (_ =? 0)%nat; rewrite slice_to_take.
    - apply subseteq_take.
    - intros Hp%subseteq_take. apply list_elem_of_In in Hp.
      apply filter_In in Hp as [Hp _]. by apply list_elem_of_In. }
  assert (order = Py.slice_to k order ++ finds) as Hsplit
    by (unfold finds, Py.slice_to, Py.slice_from; by rewrite take_drop).
  rewrite Hsplit in Hord. apply NoDup_app in Hord as (Hact & Hdisj & _).
  rewrite Hsplit in Hrange. apply Forall_app in Hrange as [Hra Hrf].
  split.
  - by apply gather_NoDup.
  - intros i. apply gather_disjoint; try done.
    + apply Forall_forall. intros p Hp. rewrite Forall_forall in Hrf.
      by apply Hrf, Hfixed.
    + intros p Hp Hp'. by apply (Hdisj p), Hfixed.
Qed.

End SelectionFacts.

(** ** Checkin *)
Section CheckinFacts.
Import Scene.
Context `{Imports} `{Np.Library}.

Lemma with_sourcecat_id s : with_sourcecat s (sourcecat s) = s.
Proof. by destruct s. Qed.

Lemma with_sourcecat_twice s c c' :
  with_sourcecat (with_sourcecat s c) c' = with_sourcecat s c'.
Proof. done. Qed.

Lemma setitem_ok {V} (upd : V → source → source) inds vals ks s :
  Np.norm_inds (length (sourcecat s)) inds = Ok ks →
  setitem upd inds vals s
  = (Ok tt, with_sourcecat s (Np.scatter upd ks vals (sourcecat s))).
Proof. unfold setitem. by intros ->. Qed.

Lemma iadd_ok (col : source → Z) upd inds d ks s :
  Np.norm_inds (length (sourcecat s)) inds = Ok ks →
  iadd col upd inds d s
  = (Ok tt, with_sourcecat s
      (Np.scatter upd ks ((λ k, (col (sourcecat s !!! k) + d)%Z) <$> ks)
         (sourcecat s))).
Proof. unfold iadd. by intros ->. Qed.

Lemma write_cols_cons active ka f cs cat :
  write_cols active ka (f :: cs) cat
  = write_cols active ka cs
      (Np.scatter (set_col f) ka ((λ r, fld r f) <$> recs active) cat).
Proof. done. Qed.

Lemma write_cols_length active ka cs cat :
  length (write_cols active ka cs cat) = length cat.
Proof.
  revert cat. induction cs as [|f cs IH]; intros cat; [done|].
  rewrite write_cols_cons, IH. apply scatter_length.
Qed.

Lemma checkin_cat_length active ka kf niter cat :
  length (checkin_cat active ka kf niter cat) = length cat.
Proof.
  unfold checkin_cat. cbv zeta. rewrite !scatter_length. apply write_cols_length.
Qed.

Lemma for_each_cols_ok active ai ka cs s :
  (∀ f, f ∈ cs → f ∈ names active) →
  Np.norm_inds (length (sourcecat s)) ai = Ok ka →
  for_each cs (λ f, vals ← lift (getitem_col active f);
                    setitem (set_col f) ai vals) s
  = (Ok tt, with_sourcecat s (write_cols active ka cs (sourcecat s))).
Proof.
  revert s. induction cs as [|f cs IH]; intros s Hcs Hn.
  - cbn. unfold ret. by rewrite with_sourcecat_id.
  - cbn [for_each]. unfold mbind, M_mbind.
    assert (getitem_col active f = Ok ((λ r, fld r f) <$> recs active)) as Hf.
    { unfold getitem_col. rewrite decide_True; [done|]. apply Hcs. constructor. }
    erewrite bind_ok; last first.
    { erewrite bind_ok; [|by rewrite Hf]. by apply setitem_ok. }
    rewrite IH.
    + by rewrite with_sourcecat_twice, write_cols_cons.
    + intros g Hg. apply Hcs. by constructor.
    + cbn. by rewrite scatter_length.
Qed.

(** Rows with an index column whose entries address catalog rows, and
    with every parameter column, are checked in without an exception. *)
Lemma checkin_region_ok active fixed niter s ka kf :
  "source_index" ∈ names active →
  "source_index" ∈ names fixed →
  (∀ f, f ∈ PAR_COLS → f ∈ names active) →
  Np.norm_inds (length (sourcecat s)) (source_index <$> recs active) = Ok ka →
  Np.norm_inds (length (sourcecat s)) (source_index <$> recs fixed) = Ok kf →
  checkin_region active fixed niter s
  = (Ok tt,
     with_counts (with_sourcecat s (checkin_cat active ka kf niter (sourcecat s)))
       (n_active s + - Z.of_nat (length (recs active)))
       (n_fixed s + - Z.of_nat (length (recs fixed)))).
Proof.
  intros Hia Hif Hcols Hka Hkf.
  unfold checkin_region, mbind, M_mbind, getitem_index.
  rewrite !decide_True by done.
  rewrite (bind_ok _ _ s _ s) by done.
  rewrite (bind_ok _ _ s _ s) by done.
  erewrite bind_ok; [|by apply for_each_cols_ok].
  erewrite bind_ok;
    [|apply iadd_ok; cbn; by rewrite write_cols_length].
  erewrite bind_ok;
    [|apply setitem_ok; cbn; by rewrite scatter_length, write_cols_length].
  erewrite bind_ok;
    [|apply iadd_ok; cbn; by rewrite !scatter_length, write_cols_length].
  erewrite bind_ok;
    [|apply setitem_ok; cbn; by rewrite !scatter_length, write_cols_length].
  erewrite bind_ok;
    [|apply setitem_ok; cbn; by rewrite !scatter_length, write_cols_length].
  erewrite bind_ok; [|reflexivity].
  unfold add_n_fixed, checkin_cat. cbn.
  rewrite !length_fmap.
  rewrite (norm_inds_length _ _ _ Hka), (norm_inds_length _ _ _ Hkf), !length_fmap.
  reflexivity.
Qed.

Lemma write_cols_notin active ka cs cat i :
  i ∉ ka → write_cols active ka cs cat !! i = cat !! i.
Proof.
  intros Hi. revert cat. induction cs as [|f cs IH]; intros cat; [done|].
  rewrite write_cols_cons, IH. by apply scatter_lookup_notin.
Qed.

Lemma write_cols_lookup active ka cs cat j i row r :
  NoDup ka → ka !! j = Some i → recs active !! j = Some row →
  cat !! i = Some r →
  write_cols active ka cs cat !! i
  = Some (Source (source_index r)
            (foldl (λ m f, <[f := fld row f]> m) (cols r) cs)
            (is_active r) (is_valid r) (n_iter r) (n_patch r)).
Proof.
  intros Hnd Hj Hrow. revert cat r.
  induction cs as [|f cs IH]; intros cat r Hr.
  - cbn. rewrite Hr. by destruct r.
  - rewrite write_cols_cons.
    rewrite (IH _ (set_col f (fld row f) r)); [done|].
    erewrite scatter_lookup_nodup; [|done|done|].
    + by rewrite Hr.
    + by rewrite list_lookup_fmap, Hrow.
Qed.

Lemma checkin_cat_active active ka kf d cat j i row r :
  NoDup ka → ka !! j = Some i → i ∉ kf →
  recs active !! j = Some row → cat !! i = Some r →
  checkin_cat active ka kf d cat !! i = Some (checked_in row d r).
Proof.
  intros Hnd Hj Hkf Hrow Hr. unfold checkin_cat. cbv zeta.
  pose proof (write_cols_lookup active ka PAR_COLS cat j i row r Hnd Hj Hrow Hr) as H1.
  set (c1 := write_cols active ka PAR_COLS cat) in *.
  assert (j < length ka)%nat as Hlt by (by eapply lookup_lt_Some).
  rewrite scatter_lookup_notin by done.
  erewrite scatter_lookup_nodup;
    [|done|done|by apply lookup_replicate_2].
  erewrite scatter_lookup_nodup; [|done|done|by rewrite list_lookup_fmap, Hj].
  erewrite scatter_lookup_nodup;
    [|done|done|by apply lookup_replicate_2].
  erewrite (list_lookup_total_correct (Np.scatter set_is_active _ _ _) i); last first.
  { erewrite scatter_lookup_nodup;
      [|done|done|by apply lookup_replicate_2].
    erewrite scatter_lookup_nodup; [|done|done|by rewrite list_lookup_fmap, Hj].
    by rewrite H1. }
  erewrite scatter_lookup_nodup; [|done|done|by rewrite list_lookup_fmap, Hj].
  rewrite (list_lookup_total_correct _ _ _ H1), H1. reflexivity.
Qed.

Lemma checkin_cat_fixed active ka kf d cat i :
  i ∉ ka → i ∈ kf →
  checkin_cat active ka kf d cat !! i = set_is_valid true <$> cat !! i.
Proof.
  intros Hka Hkf. unfold checkin_cat. cbv zeta.
  rewrite scatter_scalar_lookup by done. rewrite decide_True by done.
  rewrite !scatter_lookup_notin by done. by rewrite write_cols_notin.
Qed.

Lemma checkin_cat_other active ka kf d cat i :
  i ∉ ka → i ∉ kf → checkin_cat active ka kf d cat !! i = cat !! i.
Proof.
  intros Hka Hkf. unfold checkin_cat. cbv zeta.
  rewrite !scatter_lookup_notin by done. by apply write_cols_notin.
Qed.

Lemma fld_write (row : source) (cs : list string) (m : gmap string Q) f :
  f ∈ cs →
  foldl (λ m g, <[g := fld row g]> m) m cs !! f = Some (fld row f).
Proof.
  revert m. induction cs as [|g cs IH] using rev_ind; intros m Hf.
  - by apply elem_of_nil in Hf.
  - rewrite foldl_app. cbn. apply elem_of_app in Hf as [Hf|Hf].
    + destruct (decide (g = f)) as [->|Hne].
      * apply lookup_insert_eq.
      * rewrite lookup_insert_ne by done. by apply IH.
    + apply list_elem_of_singleton in Hf as ->. apply lookup_insert_eq.
Qed.

(** C4.  Checking in rows as a checkout hands them out (distinct active
    indices that address catalog rows, none of them among the fixed
    indices) with delta [d]: the call returns; every active row of the
    catalog takes the parameter values of the returned row, has [n_iter]
    increased by [d], [n_patch] by 1, [is_active] false and [is_valid]
    true; every fixed row only has [is_valid] set to true; all other rows
    are as before. *)
Theorem checkin_region_effect s active fixed d ka kf :
  "source_index" ∈ names active →
  "source_index" ∈ names fixed →
  (∀ f, f ∈ PAR_COLS → f ∈ names active) →
  Np.norm_inds (length (sourcecat s)) (source_index <$> recs active) = Ok ka →
  Np.norm_inds (length (sourcecat s)) (source_index <$> recs fixed) = Ok kf →
  NoDup ka →
  (∀ i, i ∈ ka → i ∉ kf) →
  ∃ s', checkin_region active fixed d s = (Ok tt, s')
    ∧ (∀ j i row r,
         ka !! j = Some i → recs active !! j = Some row →
         sourcecat s !! i = Some r →
         ∃ r', sourcecat s' !! i = Some r'
           ∧ (∀ f, f ∈ PAR_COLS → fld r' f = fld row f)
           ∧ (∀ f, f ∉ PAR_COLS → fld r' f = fld r f)
           ∧ n_iter r' = (n_iter r + d)%Z
           ∧ n_patch r' = (n_patch r + 1)%Z
           ∧ is_active r' = false
           ∧ is_valid r' = true)
    ∧ (∀ i r, i ∈ kf → sourcecat s !! i = Some r →
         sourcecat s' !! i = Some (set_is_valid true r))
    ∧ (∀ i, i ∉ ka → i ∉ kf → sourcecat s' !! i = sourcecat s !! i).
Proof.
  intros Hia Hif Hcols Hka Hkf Hnd Hdisj.
  eexists. split; [by eapply checkin_region_ok|]. cbn.
  split; [|split].
  - intros j i row r Hj Hrow Hr.
    exists (checked_in row d r). split.
    { eapply checkin_cat_active; eauto.
      apply Hdisj. by eapply list_elem_of_lookup_2. }
    repeat split.
    + intros f Hf. unfold fld, checked_in. cbn. by rewrite fld_write.
    + intros f Hf. unfold fld, checked_in. cbn. f_equal.
      clear -Hf. revert Hf. generalize (cols r).
      induction PAR_COLS as [|g cs IH]; intros m Hf; [done|].
      cbn. apply not_elem_of_cons in Hf as [Hne Hf].
      rewrite IH by done. by apply lookup_insert_ne.
  - intros i r Hi Hr. rewrite checkin_cat_fixed; [by rewrite Hr| |done].
    intros Hi'. by apply (Hdisj i).
  - intros i Hi1 Hi2. by apply checkin_cat_other.
Qed.

(** Without the index field in one of the tables the first two
    statements raise, before anything is written. *)
Lemma checkin_region_no_index s active fixed d :
  "source_index" ∉ names active ∨ "source_index" ∉ names fixed →
  checkin_region active fixed d s = (Raise ValueError, s).
Proof.
  intros Hno. unfold checkin_region, mbind, M_mbind, getitem_index.
  destruct (decide ("source_index" ∈ names active)) as [Ha|Ha]; [|done].
  destruct Hno as [Hno|Hno]; [done|].
  rewrite (bind_ok _ _ s _ s) by done.
  by rewrite decide_False.
Qed.

(** C9, as the code has it.  The only identity check of
    [checkin_region] is the lookup of the [source_index] field.  When
    the active or the fixed rows lack it the call raises (the
    [ValueError] of the structured array) and the object is unchanged,
    whatever else the rows hold.  For rows that carry the parameter
    columns and whose indices address catalog rows this is the only
    failure: they are accepted, checked out or not. *)
Theorem checkin_fails_only_without_index_field s active fixed d :
  ("source_index" ∉ names active ∨ "source_index" ∉ names fixed →
   checkin_region active fixed d s = (Raise ValueError, s))
  ∧ ((∀ f, f ∈ PAR_COLS → f ∈ names active) →
     (∃ ka, Np.norm_inds (length (sourcecat s)) (ids active) = Ok ka) →
     (∃ kf, Np.norm_inds (length (sourcecat s)) (ids fixed) = Ok kf) →
     (fst (checkin_region active fixed d s) ≠ Ok tt
      ↔ "source_index" ∉ names active ∨ "source_index" ∉ names fixed)).
Proof.
  split; [apply checkin_region_no_index|].
  intros Hcols [ka Hka] [kf Hkf]. split.
  - intros Hfail.
    destruct (decide ("source_index" ∈ names active)) as [Ha|Ha]; [|by left].
    destruct (decide ("source_index" ∈ names fixed)) as [Hf|Hf]; [|by right].
    exfalso. apply Hfail.
    by rewrite (checkin_region_ok active fixed d s ka kf).
  - intros Hno. by rewrite checkin_region_no_index.
Qed.

End CheckinFacts.

(** ** Seed weights and the draw of a center *)
Section WeightFacts.
Import Scene.
Context `{Imports} `{Np.Library}.

(** *** float64: signs, zeros and nan through the operations *)

Lemma mul_sign b x :
  F64.is_nan x || F64.sign_clear x = true →
  F64.is_nan (F64.mul (F64.of_bool b) x)
  || F64.sign_clear (F64.mul (F64.of_bool b) x) = true.
Proof.
  destruct b, x as [[]|[]| |[] m e]; try done. intros _.
  unfold F64.mul, F64.of_bool, F64.one, SFmul. cbn [xorb]. F64.round_sign.
Qed.

Lemma mul_zero_l x :
  F64.is_nan (F64.mul F64.zero x) || F64.is_zero (F64.mul F64.zero x) = true.
Proof. by destruct x as [[]|[]| |[] m e]. Qed.

Lemma mul_zero_sign x :
  F64.is_nan x || F64.sign_clear x = true →
  F64.mul F64.zero x = F64.nan ∨ F64.mul F64.zero x = F64.zero.
Proof. destruct x as [[]|[]| |[] m e]; try done; intros _; by (left + right). Qed.

Lemma div_sign x y :
  F64.is_nan x || F64.sign_clear x = true →
  F64.is_nan y || F64.sign_clear y = true →
  F64.is_nan (F64.div x y) || F64.sign_clear (F64.div x y) = true.
Proof.
  destruct x as [[]|[]| |[] mx ex], y as [[]|[]| |[] my ey]; try done.
  intros _ _. unfold F64.div, SFdiv.
  destruct (SFdiv_core_binary _ _ _ _ _ _) as [[mz ez] lz]. cbn [xorb].
  F64.round_sign.
Qed.

Lemma div_zero_sign x y :
  x = F64.nan ∨ x = F64.zero →
  F64.is_nan y || F64.sign_clear y = true →
  F64.div x y = F64.nan ∨ F64.div x y = F64.zero.
Proof.
  intros [->| ->]; [by left|].
  destruct y as [[]|[]| |[] my ey]; try done; intros _; by (left + right).
Qed.

Lemma div_zeros x y :
  F64.is_nan x || F64.is_zero x = true →
  F64.is_nan y || F64.is_zero y = true →
  F64.div x y = F64.nan.
Proof. by destruct x as [[]|[]| |[] mx ex], y as [[]|[]| |[] my ey]. Qed.

Lemma leb_zero x :
  F64.is_nan x || F64.sign_clear x = true →
  F64.is_nan x = true ∨ F64.leb F64.zero x = true.
Proof. destruct x as [[]|[]| |[] m e]; try done; intros _; by (left + right). Qed.

(** *** The weights *)

Lemma zip_with_fmap_same {A B C D} (f : B → C → D) (g : A → B) (h : A → C)
    (l : list A) :
  zip_with f (g <$> l) (h <$> l) = (λ x, f (g x) (h x)) <$> l.
Proof. induction l as [|x l IH]; [done|]. cbn. by rewrite IH. Qed.

(** The weights computed by [exp_weight] on a catalog with at least one
    row: each raw weight divided by the sum of all. *)
Lemma exp_weight_unfold s :
  sourcecat s ≠ [] →
  exp_weight s
  = Ok ((λ wi, F64.div wi
                 (Np.np_sum (raw_weight (Np.mean (n_iter <$> sourcecat s))
                               <$> sourcecat s)))
          <$> (raw_weight (Np.mean (n_iter <$> sourcecat s)) <$> sourcecat s)).
Proof.
  intros Hne. unfold exp_weight.
  assert (∃ m, Np.amin (n_iter <$> sourcecat s) = Ok m) as [m ->].
  { destruct (sourcecat s); [done|]. cbn. eauto. }
  cbn [mbind res_mbind res_bind]. cbv zeta.
  by rewrite (zip_with_fmap_same _ (λ r, F64.of_bool (negb (is_active r))) n_iter).
Qed.

Lemma raw_weight_sign mean r :
  F64.is_nan (raw_weight mean r) || F64.sign_clear (raw_weight mean r) = true.
Proof. apply mul_sign, Np.np_exp_sign. Qed.

Lemma raw_weight_active mean r :
  is_active r = true →
  raw_weight mean r = F64.nan ∨ raw_weight mean r = F64.zero.
Proof.
  intros Ha. unfold raw_weight. rewrite Ha. apply mul_zero_sign, Np.np_exp_sign.
Qed.

Lemma raw_weight_active_zeros mean r :
  is_active r = true →
  F64.is_nan (raw_weight mean r) || F64.is_zero (raw_weight mean r) = true.
Proof. intros Ha. unfold raw_weight. rewrite Ha. apply mul_zero_l. Qed.

(** Without an inactive row every weight is nan: the sum of the raw
    weights is a zero or nan, and so is every raw weight. *)
Lemma exp_weight_all_nan s :
  sourcecat s ≠ [] →
  (∀ r, r ∈ sourcecat s → is_active r = true) →
  exp_weight s = Ok (replicate (length (sourcecat s)) F64.nan).
Proof.
  intros Hne Hall. rewrite exp_weight_unfold by done. f_equal.
  set (W := raw_weight _ <$> sourcecat s).
  assert (Forall (λ x, F64.is_nan x || F64.is_zero x = true) W) as HW.
  { apply Forall_fmap, Forall_forall. intros r Hr. cbn.
    by apply raw_weight_active_zeros, Hall. }
  assert (W ≠ []) as HWne by (unfold W; by destruct (sourcecat s)).
  pose proof (Np.np_sum_zeros W HWne HW) as HT.
  rewrite <- (length_fmap (raw_weight (Np.mean (n_iter <$> sourcecat s)))).
  fold W. clear HWne. revert HT. generalize (Np.np_sum W). intros T HT.
  induction HW as [|w W Hw _ IH]; [done|].
  cbn. by rewrite IH, div_zeros.
Qed.


(** C5, as the code has it.  A seed index other than 0 that addresses a
    catalog row makes [draw_center] return the position of that row,
    whatever the random generator would have drawn. *)
Theorem draw_center_nonzero_seed s k rnd i r :
  k ≠ 0%Z →
  Py.norm_index (length (sourcecat s)) k = Ok i →
  sourcecat s !! i = Some r →
  draw_center s (Some k) rnd = Ok (fld r "ra", fld r "dec").
Proof.
  intros Hk Hi Hr. unfold draw_center, seed_given, Py.truthy.
  replace (k =? 0)%Z with false by (symmetry; by apply Z.eqb_neq).
  cbn. rewrite Hi. cbn. by rewrite (list_lookup_total_correct _ _ _ Hr).
Qed.

(** The seed index 0 is not taken as given: the call is the call
    without a seed, and the center is the row that the random generator
    draws. *)
Lemma draw_center_seed_zero s rnd :
  draw_center s (Some 0%Z) rnd = draw_center s None rnd.
Proof. reflexivity. Qed.

End WeightFacts.

(** ** The validity invariant of the protocol *)
Section ProtocolFacts.
Import Scene.
Context `{Imports} `{Np.Library}.

Lemma setitem_scalar_ok_inv {V} (upd : V → source → source) inds v s u s' :
  setitem_scalar upd inds v s = (Ok u, s') →
  ∃ ks, Np.norm_inds (length (sourcecat s)) inds = Ok ks
        ∧ s' = with_sourcecat s
                 (Np.scatter upd ks (replicate (length ks) v) (sourcecat s)).
Proof.
  unfold setitem_scalar, setitem.
  destruct (Np.norm_inds _ inds) as [ks|] eqn:E; [|discriminate].
  intros [= _ <-]. exists ks. split; [done|].
  by rewrite (norm_inds_length _ _ _ E).
Qed.

Lemma getrows_ok_inv inds s a s' :
  getrows inds s = (Ok a, s') →
  ∃ ks, Np.norm_inds (length (sourcecat s)) inds = Ok ks
        ∧ a = RecArray sourcecat_dtype (Np.gather (sourcecat s) ks) ∧ s' = s.
Proof.
  unfold getrows.
  destruct (Np.norm_inds _ inds) as [ks|] eqn:E; [|discriminate].
  intros [= <- <-]. eauto.
Qed.

Lemma checkout_cat_length an fn cat : length (checkout_cat an fn cat) = length cat.
Proof. unfold checkout_cat. by rewrite !scatter_length. Qed.

(** What a checkout that returns a region did: it marked the rows [an]
    active and the rows [an] and [fn] invalid, and copied them out. *)
Lemma checkout_region_inv seed_index rnd s region a f s' :
  checkout_region seed_index rnd s = (Ok (Region region a f), s') →
  ∃ an fn,
    (∃ center radius, get_circular_scene s center = Ok (Some (radius, an, fn)))
    ∧ names a = sourcecat_dtype ∧ names f = sourcecat_dtype
    ∧ Forall (λ i, i < length (sourcecat s))%nat an
    ∧ Forall (λ i, i < length (sourcecat s))%nat fn
    ∧ sourcecat s' = checkout_cat an fn (sourcecat s)
    ∧ recs a = Np.gather (sourcecat s') an
    ∧ recs f = Np.gather (sourcecat s') fn.
Proof.
  unfold checkout_region, mbind, M_mbind. intros Hrun.
  apply bind_ok_inv in Hrun as (s0 & s1 & Hget & Hrun).
  injection Hget as <- <-.
  apply bind_ok_inv in Hrun as (c & s1 & Hc & Hrun).
  apply lift_ok_inv in Hc as [Hc ->].
  apply bind_ok_inv in Hrun as (sel & s1 & Hsel & Hrun).
  apply lift_ok_inv in Hsel as [Hsel ->].
  destruct sel as [[[radius an] fn]|]; [|discriminate].
  apply bind_ok_inv in Hrun as (u1 & s1 & H1 & Hrun).
  apply setitem_scalar_ok_inv in H1 as (k1 & Hk1 & ->).
  apply bind_ok_inv in Hrun as (u2 & s2 & H2 & Hrun).
  apply setitem_scalar_ok_inv in H2 as (k2 & Hk2 & ->).
  apply bind_ok_inv in Hrun as (u3 & s3 & H3 & Hrun).
  apply setitem_scalar_ok_inv in H3 as (k3 & Hk3 & ->).
  apply bind_ok_inv in Hrun as (u4 & s4 & Hadd & Hrun).
  injection Hadd as _ <-.
  apply bind_ok_inv in Hrun as (u5 & s5 & Hadd & Hrun).
  injection Hadd as _ <-.
  apply bind_ok_inv in Hrun as (a' & s6 & Ha & Hrun).
  apply getrows_ok_inv in Ha as (k4 & Hk4 & -> & ->).
  apply bind_ok_inv in Hrun as (f' & s7 & Hf & Hrun).
  apply getrows_ok_inv in Hf as (k5 & Hk5 & -> & ->).
  injection Hrun as <- <- <- <-.
  pose proof (norm_inds_bound _ _ _ Hk1) as Hb1.
  pose proof (norm_inds_bound _ _ _ Hk5) as Hb5.
  apply norm_inds_of_nat in Hk1 as ->, Hk2 as ->, Hk3 as ->, Hk4 as ->, Hk5 as ->.
  exists an, fn. cbn in *. rewrite !scatter_length in Hb5.
  split; [eauto|]. done.
Qed.

Lemma numbered_lookup (cat : list source) i r :
  source_index <$> cat = Z.of_nat <$> seq 0 (length cat) →
  cat !! i = Some r → source_index r = Z.of_nat i.
Proof.
  intros Hnum Hr.
  assert ((source_index <$> cat) !! i = Some (source_index r)) as Hi
    by (by rewrite list_lookup_fmap, Hr).
  rewrite Hnum, list_lookup_fmap in Hi.
  rewrite lookup_seq_lt in Hi by (by eapply lookup_lt_Some).
  by injection Hi as <-.
Qed.

Lemma gather_ids (cat : list source) ks :
  source_index <$> cat = Z.of_nat <$> seq 0 (length cat) →
  Forall (λ i, i < length cat)%nat ks →
  source_index <$> Np.gather cat ks = Z.of_nat <$> ks.
Proof.
  intros Hnum Hks. unfold Np.gather. rewrite <- list_fmap_compose.
  apply Forall_fmap_ext_1. eapply Forall_impl; [done|].
  intros i Hi. cbn.
  destruct (lookup_lt_is_Some_2 cat i Hi) as [r Hr].
  rewrite (list_lookup_total_correct _ _ _ Hr).
  by eapply numbered_lookup.
Qed.

(** The rows that a checkout hands out can be checked in: their index
    columns address catalog rows, the active indices are distinct and
    none of them is a fixed index. *)
Lemma checkout_rows_distinct seed_index rnd s region a f s' :
  source_index <$> sourcecat s = Z.of_nat <$> seq 0 (length (sourcecat s)) →
  checkout_region seed_index rnd s = (Ok (Region region a f), s') →
  ∃ ka kf,
    Np.norm_inds (length (sourcecat s')) (ids a) = Ok ka
    ∧ Np.norm_inds (length (sourcecat s')) (ids f) = Ok kf
    ∧ NoDup ka ∧ (∀ i, i ∈ ka → i ∉ kf)
    ∧ names a = sourcecat_dtype ∧ names f = sourcecat_dtype.
Proof.
  intros Hnum Hrun.
  apply checkout_region_inv in Hrun
    as (an & fn & (center & radius & Hsel) & Hna & Hnf & Han & Hfn & Hcat & Ha & Hf).
  assert (length (sourcecat s') = length (sourcecat s)) as Hlen
    by (by rewrite Hcat, checkout_cat_length).
  assert (source_index <$> sourcecat s'
          = Z.of_nat <$> seq 0 (length (sourcecat s'))) as Hnum'.
  { rewrite Hlen, <- Hnum, Hcat. unfold checkout_cat.
    by rewrite !(scatter_preserves source_index). }
  assert (∀ ks, Forall (λ i, i < length (sourcecat s))%nat ks →
            Np.norm_inds (length (sourcecat s')) (Z.of_nat <$> ks) = Ok ks) as Hnorm.
  { intros ks Hks. rewrite norm_inds_nonneg.
    - f_equal. rewrite <- list_fmap_compose. rewrite <- (list_fmap_id ks) at 2.
      apply list_fmap_ext. intros ? i _. cbn. apply Nat2Z.id.
    - apply Forall_fmap. eapply Forall_impl; [exact Hks|].
      intros i Hi. cbn in *. rewrite Hlen. lia. }
  destruct (get_circular_scene_distinct _ _ _ _ _ Hsel) as [Hnd Hdisj].
  exists an, fn. unfold ids. rewrite Ha, Hf.
  rewrite (gather_ids _ an Hnum') by (by rewrite Hlen).
  rewrite (gather_ids _ fn Hnum') by (by rewrite Hlen).
  rewrite !Hnorm by done. done.
Qed.

Lemma checkout_conflict_inv seed_index rnd s c s' :
  checkout_region seed_index rnd s = (Ok (Conflict c), s') → s' = s.
Proof.
  unfold checkout_region, mbind, M_mbind. intros Hrun.
  apply bind_ok_inv in Hrun as (s0 & s1 & Hget & Hrun).
  injection Hget as <- <-.
  apply bind_ok_inv in Hrun as (c' & s1 & Hc & Hrun).
  apply lift_ok_inv in Hc as [Hc ->].
  apply bind_ok_inv in Hrun as (sel & s1 & Hsel & Hrun).
  apply lift_ok_inv in Hsel as [Hsel ->].
  destruct sel as [[[radius an] fn]|]; [|by injection Hrun].
  apply bind_ok_inv in Hrun as (u1 & s1 & H1 & Hrun).
  apply bind_ok_inv in Hrun as (u2 & s2 & H2 & Hrun).
  apply bind_ok_inv in Hrun as (u3 & s3 & H3 & Hrun).
  apply bind_ok_inv in Hrun as (u4 & s4 & Hadd4 & Hrun).
  apply bind_ok_inv in Hrun as (u5 & s5 & Hadd5 & Hrun).
  apply bind_ok_inv in Hrun as (a' & s7 & Ha & Hrun).
  apply bind_ok_inv in Hrun as (f' & s8 & Hf & Hrun).
  discriminate.
Qed.

Lemma checkout_cat_lookup an fn cat i r :
  cat !! i = Some r →
  ∃ r', checkout_cat an fn cat !! i = Some r'
        ∧ source_index r' = source_index r
        ∧ is_valid r' = if decide (i ∈ an ∨ i ∈ fn) then false else is_valid r.
Proof.
  intros Hr. unfold checkout_cat.
  rewrite !scatter_scalar_lookup by done. rewrite Hr.
  destruct (decide (i ∈ an)), (decide (i ∈ fn)); cbn; eexists; (split; [done|]);
    cbn; (split; [done|]).
  - by rewrite decide_True by (by left).
  - by rewrite decide_True by (by left).
  - by rewrite decide_True by (by right).
  - by rewrite decide_False by (by intros [?|?]).
Qed.

Lemma write_cols_preserves {B} (g : source → B) active ka cs cat :
  (∀ f v r, g (set_col f v r) = g r) →
  g <$> write_cols active ka cs cat = g <$> cat.
Proof.
  intros Hg. revert cat. induction cs as [|f cs IH]; intros cat; [done|].
  rewrite write_cols_cons, IH. by apply scatter_preserves.
Qed.

Lemma checkin_cat_lookup active ka kf d cat i r :
  cat !! i = Some r →
  ∃ r', checkin_cat active ka kf d cat !! i = Some r'
        ∧ source_index r' = source_index r
        ∧ is_valid r' = if decide (i ∈ ka ∨ i ∈ kf) then true else is_valid r.
Proof.
  intros Hr. unfold checkin_cat. cbv zeta.
  set (c1 := write_cols active ka PAR_COLS cat).
  set (c2 := Np.scatter set_n_iter ka _ c1).
  set (c3 := Np.scatter set_is_active ka _ c2).
  set (c4 := Np.scatter set_n_patch ka _ c3).
  set (g := λ r : source, (source_index r, is_valid r)).
  assert (g <$> c4 = g <$> cat) as Hg.
  { unfold c4, c3, c2, c1.
    rewrite !(scatter_preserves g) by done.
    by apply write_cols_preserves. }
  assert (∃ r4, c4 !! i = Some r4 ∧ g r4 = g r) as (r4 & Hr4 & Hg4).
  { assert ((g <$> c4) !! i = Some (g r)) as Hi
      by (by rewrite Hg, list_lookup_fmap, Hr).
    rewrite list_lookup_fmap in Hi.
    destruct (c4 !! i) as [r4|]; [|discriminate].
    exists r4. split; [done|]. cbn in Hi. congruence. }
  injection Hg4 as Hsi Hval.
  rewrite !scatter_scalar_lookup by done. rewrite Hr4.
  destruct (decide (i ∈ ka)), (decide (i ∈ kf)); cbn; eexists; (split; [done|]);
    cbn; (split; [done|]).
  - by rewrite decide_True by (by left).
  - by rewrite decide_True by (by left).
  - by rewrite decide_True by (by right).
  - by rewrite decide_False by (by intros [?|?]).
Qed.

Lemma elem_of_delete_iff {A} (l : list A) j x :
  x ∈ delete j l ↔ ∃ j', j' ≠ j ∧ l !! j' = Some x.
Proof.
  rewrite list_elem_of_lookup. split.
  - intros [i Hi]. destruct (decide (i < j)%nat).
    + rewrite list_lookup_delete_lt in Hi by done. exists i. split; [lia|done].
    + rewrite list_lookup_delete_ge in Hi by lia. exists (S i). split; [lia|done].
  - intros (j' & Hne & Hj'). destruct (decide (j' < j)%nat).
    + exists j'. by rewrite list_lookup_delete_lt.
    + destruct j' as [|j']; [lia|]. exists j'.
      by rewrite list_lookup_delete_ge by lia.
Qed.

Lemma for_each_cols_raise active ai ka cs s :
  ¬ Forall (λ f, f ∈ names active) cs →
  Np.norm_inds (length (sourcecat s)) ai = Ok ka →
  ∃ s', for_each cs (λ f, vals ← lift (getitem_col active f);
                          setitem (set_col f) ai vals) s
        = (Raise ValueError, s').
Proof.
  revert s. induction cs as [|f cs IH]; intros s Hbad Hn.
  - destruct Hbad. constructor.
  - cbn [for_each]. unfold mbind, M_mbind.
    destruct (decide (f ∈ names active)) as [Hf|Hf].
    + destruct (IH (with_sourcecat s
                      (Np.scatter (set_col f) ka ((λ r, fld r f) <$> recs active)
                         (sourcecat s)))) as [s' Hs'].
      * intros Hall. apply Hbad. by constructor.
      * cbn. by rewrite scatter_length.
      * exists s'. erewrite bind_ok; [exact Hs'|].
        erewrite bind_ok; [by apply setitem_ok|].
        unfold getitem_col. by rewrite decide_True.
    + exists s. erewrite bind_raise; [done|].
      erewrite bind_raise; [done|].
      unfold getitem_col. by rewrite decide_False.
Qed.

(** A checkin that returns has written [checkin_cat]. *)
Lemma checkin_region_ok_inv active fixed d s u s' ka kf :
  checkin_region active fixed d s = (Ok u, s') →
  Np.norm_inds (length (sourcecat s)) (ids active) = Ok ka →
  Np.norm_inds (length (sourcecat s)) (ids fixed) = Ok kf →
  sourcecat s' = checkin_cat active ka kf d (sourcecat s).
Proof.
  intros Hrun Hka Hkf.
  destruct (decide ("source_index" ∈ names active)) as [Ha|Ha]; last first.
  { rewrite checkin_region_no_index in Hrun by (by left). discriminate. }
  destruct (decide ("source_index" ∈ names fixed)) as [Hf|Hf]; last first.
  { rewrite checkin_region_no_index in Hrun by (by right). discriminate. }
  destruct (decide (Forall (λ f, f ∈ names active) PAR_COLS)) as [Hc|Hc].
  - rewrite (checkin_region_ok active fixed d s ka kf) in Hrun; try done.
    + by injection Hrun as _ <-.
    + by apply Forall_forall.
  - exfalso.
    destruct (for_each_cols_raise active (ids active) ka PAR_COLS s Hc Hka)
      as [s1 Hs1].
    revert Hrun. unfold checkin_region, mbind, M_mbind, getitem_index.
    rewrite !decide_True by done.
    rewrite (bind_ok _ _ s _ s) by done.
    rewrite (bind_ok _ _ s _ s) by done.
    by erewrite bind_raise.
Qed.

Lemma disjoint_held_nil : disjoint_held [].
Proof. intros j1 j2 h1 h2 k Hj1. by rewrite lookup_nil in Hj1. Qed.

Lemma disjoint_held_singleton h : disjoint_held [h].
Proof.
  intros j1 j2 h1 h2 k Hj1 Hj2 Hne.
  apply lookup_lt_Some in Hj1, Hj2. cbn in *. lia.
Qed.

(** Every call that returns keeps the invariant, provided no two
    outstanding regions share an index when the call is made. *)
Lemma is_held_app out h i :
  is_held (out ++ [h]) i ↔ is_held out i ∨ Z.of_nat i ∈ held_ids h.
Proof.
  unfold is_held. split.
  - intros (h' & [Hh|Hh]%elem_of_app & Hk); [left; by exists h'|right].
    by apply list_elem_of_singleton in Hh as ->.
  - intros [(h' & Hh & Hk)|Hk].
    + exists h'. split; [|done]. apply elem_of_app. by left.
    + exists h. split; [|done]. apply elem_of_app. right. constructor.
Qed.

Lemma track_preserves s0 c st st' :
  protocol_inv s0 st → disjoint_held st.2 → track c st = Some st' →
  protocol_inv s0 st'.
Proof.
  destruct st as [s out]. intros (Hnum & Hrange & Hval) Hdisj Htrack.
  unfold protocol_inv, numbered in *.
  cbn in *. destruct c as [seed_index rnd|j a f d]; cbn in Htrack.
  - destruct (checkout_region seed_index rnd s) as [[[c|region a f]|e] s1] eqn:Hrun;
      [| |discriminate]; injection Htrack as <-.
    + apply checkout_conflict_inv in Hrun as ->. done.
    + apply checkout_region_inv in Hrun
        as (an & fn & _ & _ & _ & Han & Hfn & Hcat & Ha & Hf).
      assert (length (sourcecat s1) = length (sourcecat s)) as Hlen
        by (by rewrite Hcat, checkout_cat_length).
      assert (source_index <$> sourcecat s1
              = Z.of_nat <$> seq 0 (length (sourcecat s1))) as Hnum1.
      { rewrite Hlen, <- Hnum, Hcat. unfold checkout_cat.
        by rewrite !(scatter_preserves source_index). }
      assert (ids a = Z.of_nat <$> an) as Hida.
      { unfold ids. rewrite Ha. apply gather_ids; [done|]. by rewrite Hlen. }
      assert (ids f = Z.of_nat <$> fn) as Hidf.
      { unfold ids. rewrite Hf. apply gather_ids; [done|]. by rewrite Hlen. }
      rewrite Hida, Hidf. split; [done|]. cbn. split.
      * intros h k [Hh|Hh]%elem_of_app Hk.
        { rewrite Hlen. by eapply Hrange. }
        apply list_elem_of_singleton in Hh as ->.
        unfold held_ids in Hk. cbn in Hk. rewrite Hlen.
        apply elem_of_app in Hk as [Hk|Hk];
          apply list_elem_of_fmap in Hk as (i & -> & Hi).
        -- rewrite Forall_forall in Han. specialize (Han i Hi). lia.
        -- rewrite Forall_forall in Hfn. specialize (Hfn i Hi). lia.
      * intros i r1 Hr1.
        destruct (lookup_lt_is_Some_2 (sourcecat s) i) as [r Hr].
        { rewrite <- Hlen. by eapply lookup_lt_Some. }
        destruct (checkout_cat_lookup an fn _ i r Hr) as (r' & Hr' & _ & Hv).
        rewrite <- Hcat, Hr1 in Hr'. injection Hr' as <-. rewrite Hv.
        destruct (Hval i r Hr) as [Hheld Hinv].
        assert (Z.of_nat i ∈ held_ids (Z.of_nat <$> an, Z.of_nat <$> fn)
                ↔ i ∈ an ∨ i ∈ fn) as Hnew.
        { unfold held_ids. cbn. rewrite elem_of_app. split.
          - intros [Hk|Hk]; apply list_elem_of_fmap in Hk as (i' & Hi' & Hin);
              apply Nat2Z.inj in Hi' as <-; [by left|by right].
          - intros [Hin|Hin]; [left|right]; by apply list_elem_of_fmap_2. }
        rewrite is_held_app, Hnew.
        destruct (decide (i ∈ an ∨ i ∈ fn)) as [Hin|Hout].
        -- split; [done|]. intros _. left. by right.
        -- split.
           ++ intros [Hh|Hh]; [by apply Hheld|done].
           ++ intros Hv'. destruct (Hinv Hv') as [Hh|Hs]; [left; by left|by right].
  - destruct (out !! j) as [h|] eqn:Hj; [|discriminate].
    destruct (checkin_region a f d s) as [[u|e] s1] eqn:Hrun; [|discriminate].
    destruct (bool_decide (ids a = h.1 ∧ ids f = h.2)) eqn:Hids; [|discriminate].
    injection Htrack as <-. apply bool_decide_eq_true in Hids as [Hida Hidf].
    assert (h ∈ out) as Hh by (by eapply list_elem_of_lookup_2).
    assert (Forall (λ k, 0 ≤ k < Z.of_nat (length (sourcecat s)))%Z (ids a)) as Hra.
    { apply Forall_forall. intros k Hk. apply (Hrange h k Hh).
      unfold held_ids. rewrite <- Hida. apply elem_of_app. by left. }
    assert (Forall (λ k, 0 ≤ k < Z.of_nat (length (sourcecat s)))%Z (ids f)) as Hrf.
    { apply Forall_forall. intros k Hk. apply (Hrange h k Hh).
      unfold held_ids. rewrite <- Hidf. apply elem_of_app. by right. }
    pose proof (checkin_region_ok_inv a f d s u s1 _ _ Hrun
                  (norm_inds_nonneg _ _ Hra) (norm_inds_nonneg _ _ Hrf)) as Hcat.
    assert (length (sourcecat s1) = length (sourcecat s)) as Hlen
      by (by rewrite Hcat, checkin_cat_length).
    assert (∀ i, (i ∈ Z.to_nat <$> ids a ∨ i ∈ Z.to_nat <$> ids f)
                 ↔ Z.of_nat i ∈ held_ids h) as Hmem.
    { intros i. unfold held_ids. rewrite <- Hida, <- Hidf, elem_of_app.
      rewrite Forall_forall in Hra. rewrite Forall_forall in Hrf.
      split; (intros [Hi|Hi]; [left|right]).
      - apply list_elem_of_fmap in Hi as (k & -> & Hk).
        rewrite Z2Nat.id; [done|]. specialize (Hra k Hk). lia.
      - apply list_elem_of_fmap in Hi as (k & -> & Hk).
        rewrite Z2Nat.id; [done|]. specialize (Hrf k Hk). lia.
      - apply list_elem_of_fmap. exists (Z.of_nat i). split; [lia|done].
      - apply list_elem_of_fmap. exists (Z.of_nat i). split; [lia|done]. }
    split; [|split]; cbn.
    + rewrite Hlen, <- Hnum, Hcat.
      apply list_eq. intros i. rewrite !list_lookup_fmap.
      destruct (sourcecat s !! i) as [r|] eqn:Hr.
      * destruct (checkin_cat_lookup a (Z.to_nat <$> ids a) (Z.to_nat <$> ids f)
                    d _ i r Hr) as (r' & -> & Hsi & _).
        cbn. by rewrite Hsi.
      * apply lookup_ge_None in Hr.
        rewrite (proj2 (lookup_ge_None _ _)); [done|].
        by rewrite checkin_cat_length.
    + intros h' k Hh' Hk. rewrite Hlen. apply (Hrange h' k); [|done].
      apply elem_of_delete_iff in Hh' as (j' & _ & Hj').
      by eapply list_elem_of_lookup_2.
    + intros i r1 Hr1.
      destruct (lookup_lt_is_Some_2 (sourcecat s) i) as [r Hr].
      { rewrite <- Hlen. by eapply lookup_lt_Some. }
      destruct (checkin_cat_lookup a (Z.to_nat <$> ids a) (Z.to_nat <$> ids f)
                  d _ i r Hr) as (r' & Hr' & _ & Hv).
      rewrite <- Hcat, Hr1 in Hr'. injection Hr' as <-. rewrite Hv.
      destruct (Hval i r Hr) as [Hheld Hinv].
      destruct (decide _) as [Hin|Hout].
      * split; [|discriminate].
        intros (h' & Hh' & Hk). exfalso.
        apply elem_of_delete_iff in Hh' as (j' & Hne & Hj').
        apply (Hdisj j' j h' h (Z.of_nat i)); try done. by apply Hmem.
      * split.
        -- intros (h' & Hh' & Hk). apply Hheld. exists h'. split; [|done].
           apply elem_of_delete_iff in Hh' as (j' & _ & Hj').
           by eapply list_elem_of_lookup_2.
        -- intros Hv'. destruct (Hinv Hv') as [(h' & Hh' & Hk)|Hs]; [left|by right].
           apply list_elem_of_lookup_1 in Hh' as [j' Hj'].
           exists h'. split; [|done]. apply elem_of_delete_iff.
           exists j'. split; [|done]. intros Heq. subst j'.
           assert (Some h = Some h') as [= <-]
             by (etrans; [symmetry; exact Hj | exact Hj']).
           by apply Hout, Hmem.
Qed.

(** C1, as the code has it.  Starting from a catalog numbered by
    [ingest] with nothing checked out, after any sequence of checkout
    and checkin calls in which no two outstanding regions ever hold the
    same index: a row held by an outstanding region has [is_valid]
    false; a row with [is_valid] false is held by an outstanding region
    or had [is_valid] false before the first call; so for a row that was
    valid before the first call, [is_valid] is false if and only if the
    row is held. *)
Theorem validity_invariant s0 st :
  numbered (sourcecat s0) →
  reachable (s0, []) st →
  ∀ i r, sourcecat st.1 !! i = Some r →
    (is_held st.2 i → is_valid r = false)
    ∧ (is_valid r = false → is_held st.2 i ∨ invalid_at_start s0 i)
    ∧ ((∃ r0, sourcecat s0 !! i = Some r0 ∧ is_valid r0 = true) →
       (is_valid r = false ↔ is_held st.2 i)).
Proof.
  intros Hnum Hreach.
  assert (protocol_inv s0 st ∧ disjoint_held st.2) as [(_ & _ & Hval) _].
  { induction Hreach as [Hd|st c st' Hreach [IH Hd] Htrack Hd'].
    - split; [|done]. split; [done|]. split; cbn.
      + intros h k Hh. by apply elem_of_nil in Hh.
      + intros i r Hr. split.
        * intros (h & Hh & _). by apply elem_of_nil in Hh.
        * intros Hv. right. by exists r.
    - split; [|done]. by eapply track_preserves. }
  intros i r Hr. destruct (Hval i r Hr) as [Hheld Hinv].
  split; [done|]. split; [done|].
  intros (r0 & Hr0 & Hv0). split; [|done].
  intros Hv. destruct (Hinv Hv) as [?|(r0' & Hr0' & Hv0')]; [done|].
  rewrite Hr0 in Hr0'. injection Hr0' as <-. congruence.
Qed.

End ProtocolFacts.

(** ** The worker queue *)
Section QueueFacts.
Import Queue.
Context `{Comm}.

Lemma submit_workers tk tag q child q' :
  submit tk tag q = (Ok child, q') → workers q' ≡ₚ workers q.
Proof.
  unfold submit, workers. destruct (idle q) as [|c idle']; [discriminate|].
  intros [= <- <-]. cbn. rewrite fmap_app. cbn.
  rewrite (Permutation_app_comm (fst <$> busy q) [c]). cbn.
  by rewrite Permutation_middle.
Qed.

(** What a pass over [busy] finds: the first entry, in list order, whose
    probe answers; entry [j] is probed at clock [t + j]. *)
Lemma scan_found t i l i' c r t' :
  scan t i l = inl (i', (c, r), t') →
  ∃ j, i' = (i + j)%nat ∧ t' = (t + j)%nat ∧ l !! j = Some (c, r)
       ∧ Iprobe t' c = true
       ∧ ∀ j' c' r', (j' < j)%nat → l !! j' = Some (c', r') →
                     Iprobe (t + j') c' = false.
Proof.
  revert t i. induction l as [|[c0 r0] l IH]; intros t i; cbn; [discriminate|].
  destruct (Iprobe t c0) eqn:Hp.
  - intros [= <- <- <- <-]. exists 0%nat.
    rewrite !Nat.add_0_r. repeat split; try done. intros j' c' r' Hj'. lia.
  - intros Hs. apply IH in Hs as (j & -> & -> & Hj & Hp' & Hfirst).
    exists (S j). split; [lia|]. split; [lia|]. split; [done|].
    split; [by replace (t + S j)%nat with (S t + j)%nat by lia|].
    intros [|j'] c' r' Hlt Hj'; cbn in Hj'.
    + injection Hj' as <- <-. by rewrite Nat.add_0_r.
    + replace (t + S j')%nat with (S t + j')%nat by lia.
      apply (Hfirst j' c' r'); [lia|done].
Qed.

Lemma scan_finds t i l j c r :
  l !! j = Some (c, r) → Iprobe (t + j) c = true →
  ∃ i' c' r' t', scan t i l = inl (i', (c', r'), t').
Proof.
  revert t i j. induction l as [|[c0 r0] l IH]; intros t i j Hj Hp;
    [by rewrite lookup_nil in Hj|].
  cbn. destruct (Iprobe t c0) eqn:Hp0; [eauto|].
  destruct j as [|j]; cbn in Hj.
  - injection Hj as -> ->. rewrite Nat.add_0_r in Hp. congruence.
  - apply (IH (S t) (S i) j Hj). by rewrite Nat.add_succ_comm.
Qed.

Lemma collect_one_workers fuel t q v q' t' :
  collect_one fuel t q = Some (v, q', t') → workers q' ≡ₚ workers q.
Proof.
  revert t. induction fuel as [|fuel IH]; intros t; cbn; [discriminate|].
  destruct (scan t 0 (busy q)) as [[[i [c r]] t1]|t1] eqn:Hs; [|by apply IH].
  intros [= <- <- <-]. apply scan_found in Hs as (j & -> & -> & Hj & _).
  unfold workers. cbn.
  rewrite (delete_Permutation (busy q) j (c, r) Hj) at 2.
  rewrite fmap_cons. cbn. by rewrite <- app_assoc.
Qed.

Lemma run_workers cs t q q' t' :
  run cs t q = Some (q', t') → workers q' ≡ₚ workers q.
Proof.
  revert t q. induction cs as [|[tk tag|fuel] cs IH]; intros t q; cbn.
  - by intros [= <- <-].
  - destruct (submit tk tag q) as [[child|e] q1] eqn:Hs; [|discriminate].
    intros Hrun. rewrite (IH _ _ Hrun). by eapply submit_workers.
  - destruct (collect_one fuel t q) as [[[v q1] t1]|] eqn:Hc; [|discriminate].
    intros Hrun. rewrite (IH _ _ Hrun). by eapply collect_one_workers.
Qed.

(** C7.  After any sequence of [submit] and [collect_one] calls on a
    fresh queue in which every call returns (so [submit] is only called
    while [idle] is non-empty), the worker ids in [idle] together with
    those in [busy] are the ids 1 .. n_children, each exactly once. *)
Theorem queue_partition n cs t q t' :
  run cs t (init n) = Some (q, t') →
  workers q ≡ₚ Py.range1 (Z.to_nat n) ∧ NoDup (workers q).
Proof.
  intros Hrun. apply run_workers in Hrun.
  assert (workers (init n) = Py.range1 (Z.to_nat n)) as Hinit.
  { unfold workers, init. cbn. by rewrite app_nil_r. }
  rewrite Hinit in Hrun. split; [done|].
  rewrite Hrun. apply NoDup_seq.
Qed.

(** C8, as the code has it.  When some busy worker has a completed
    result, one pass suffices: [collect_one] returns the pair of the
    popped [busy] entry [(child, request)] of the first worker found
    complete and the result received from it, removes that entry from
    [busy] and appends the worker to [idle]. *)
Theorem collect_one_first_complete fuel t q j c r :
  busy q !! j = Some (c, r) →
  (∀ t', (t ≤ t')%nat → Iprobe t' c = true) →
  ∃ i c' r',
    busy q !! i = Some (c', r')
    ∧ Iprobe (t + i) c' = true
    ∧ (∀ i' c'' r'', (i' < i)%nat → busy q !! i' = Some (c'', r'') →
                     Iprobe (t + i') c'' = false)
    ∧ collect_one (S fuel) t q
      = Some (PTuple (PTuple (PInt (Z.of_nat c')) (PReq r'))
                     (PMsg (recv (t + i) c')),
              {| busy := delete i (busy q);
                 idle := idle q ++ [c'];
                 n_children := n_children q;
                 parent := parent q |},
              S (t + i)).
Proof.
  intros Hj Hdone.
  destruct (scan_finds t 0 (busy q) j c r Hj) as (i' & c' & r' & t1 & Hs).
  { apply Hdone. lia. }
  pose proof Hs as Hs'.
  apply scan_found in Hs' as (i & -> & -> & Hi & Hp & Hfirst).
  exists i, c', r'. repeat split; try done.
  cbn. by rewrite Hs.
Qed.

End QueueFacts.

(** ** Checkin of rows that were never checked out *)
Section CheckinExamples.
Import Scene Demo.

(** C9, against the claim as stated.  On the two-source catalog with
    nothing checked out, rows that reference index 0 are a violation in
    the sense of the spec, and yet [checkin_region] returns normally and
    counts a patch for source 0. *)
Lemma checkin_accepts_unchecked_index :
  identity_violation scene2 rows0 norows
  ∧ checkin_region rows0 norows 5 scene2
    = (Ok tt,
       with_counts
         (with_sourcecat scene2
            [set_n_patch 1 (set_n_iter 5 (src 0 0 (1 # 10))); src 1 1 (1 # 10)])
         (-1) 0)
  ∧ ¬ (fst (checkin_region rows0 norows 5 scene2) ≠ Ok tt
       ↔ identity_violation scene2 rows0 norows).
Proof.
  assert (identity_violation scene2 rows0 norows) as Hv.
  { right. right. exists 0%Z. split; [by left|].
    intros (i & r & Hi & Hr & Hval).
    injection Hi as <-. injection Hr as <-. discriminate. }
  assert (checkin_region rows0 norows 5 scene2
    = (Ok tt,
       with_counts
         (with_sourcecat scene2
            [set_n_patch 1 (set_n_iter 5 (src 0 0 (1 # 10))); src 1 1 (1 # 10)])
         (-1) 0)) as Hrun by (vm_compute; reflexivity).
  split; [done|]. split; [done|].
  intros [_ Hiff]. apply Hiff; [done|]. by rewrite Hrun.
Qed.

End CheckinExamples.

(** ** Seed weights and seeds on concrete catalogs *)
Section WeightExamples.
Import Scene Demo.


(** C5, against the claim as stated.  With the explicit seed index 0 and
    a generator that draws row 1 (whose weight is positive),
    [draw_center] returns the position of row 1, not that of row 0. *)
Lemma draw_center_ignores_seed_zero :
  draw_center scene2 (Some 0%Z) 1 = Ok (1%Q, 0%Q)
  ∧ draw_center scene2 (Some 0%Z) 1
    ≠ Ok (fld (src 0 0 (1 # 10)) "ra", fld (src 0 0 (1 # 10)) "dec")
  ∧ ∃ ws w, exp_weight scene2 = Ok ws
            ∧ ws !! 1%nat = Some w ∧ F64.ltb F64.zero w = true.
Proof.
  assert (draw_center scene2 (Some 0%Z) 1 = Ok (1%Q, 0%Q)) as Hd
    by (vm_compute; reflexivity).
  split; [exact Hd|]. split.
  - rewrite Hd. intros [= Hra].
  - exists [S754_finite false 4503599627370496 (-53);
            S754_finite false 4503599627370496 (-53)],
      (S754_finite false 4503599627370496 (-53)).
    split; [vm_compute; reflexivity|]. split; reflexivity.
Qed.

End WeightExamples.

(** ** Scenario B *)
Section QueueExamples.
Import Queue Demo.

(** C8, against the claim as stated.  In Scenario B, with worker 2
    complete, [collect_one] leaves [idle == [2]] but what it returns is
    [((2, request), result_B)]: its first component is the popped [busy]
    entry, not the worker id, so the value is not [(2, result_B)]. *)
Lemma collect_one_returns_busy_entry :
  fst <$> (fst <$> collect_one 1 0 queueB)
  = Some (PTuple (PTuple (PInt 2) (PReq ("B", 2%nat))) (PMsg "result_B"))
  ∧ fst <$> (fst <$> collect_one 1 0 queueB)
    ≠ Some (PTuple (PInt 2) (PMsg "result_B"))
  ∧ (idle ∘ snd) <$> (fst <$> collect_one 1 0 queueB) = Some [2%nat].
Proof. repeat split. discriminate. Qed.

End QueueExamples.

(** ** Selection on concrete catalogs *)
Section SelectionExamples.
Import Scene Demo.

(** C2, at the failing input.  Two sources at x = 0 and x = 1 with
    rhalf = 0.1 and the reference configuration, center (0, 0): both
    candidates have [outer] below [maxradius] = 5 (0.3 and 1.3), so two
    sorted candidates are inside, yet [N_inside] is 0 and the selection
    raises [ValueError] instead of returning both as the active set. *)
Lemma all_inside_two_sources :
  candidates scene2 (0, 0)%Q = [0; 1]%nat
  ∧ sorted_outer scene2 (0, 0)%Q = [3 # 10; 13 # 10]%Q
  ∧ count_inside scene2 (0, 0)%Q = 2%nat
  ∧ N_inside scene2 (0, 0)%Q = Ok 0%nat
  ∧ get_circular_scene scene2 (0, 0)%Q = Raise ValueError.
Proof. repeat split; vm_compute; reflexivity. Qed.

(** Scenario A: the selection seeded at x = 0 takes the sources at
    x = 0 and x = 2 as active, radius 2.3, and the source at x = 4 as
    fixed. *)
Lemma scenario_A :
  get_circular_scene sceneA (0, 0)%Q = Ok (Some ((23 # 10)%Q, [0; 1]%nat, [2%nat]))
  ∧ N_inside sceneA (0, 0)%Q = Ok (count_inside sceneA (0, 0)%Q).
Proof. split; vm_compute; reflexivity. Qed.

End SelectionExamples.

(** ** The theorems at work on the scenarios *)
Section Scenarios.
Import Scene Queue Demo.

(** Scenario A, whose rows start valid: after the checkout seeded with
    source 1 the row of source 1 is invalid and index 1 is held by the
    outstanding region (active 1 and 0, fixed 2); after that region is
    checked in the row is valid and nothing is outstanding. *)
Lemma validity_invariant_scenario_A :
  ((is_held [([1; 0]%Z, [2%Z])] 1
    → is_valid (set_is_valid false (set_is_active true (src 1 2 (1 # 10))))
      = false)
   ∧ (is_valid (set_is_valid false (set_is_active true (src 1 2 (1 # 10))))
      = false
      → is_held [([1; 0]%Z, [2%Z])] 1 ∨ invalid_at_start sceneA 1)
   ∧ ((∃ r0, sourcecat sceneA !! 1%nat = Some r0 ∧ is_valid r0 = true)
      → (is_valid (set_is_valid false (set_is_active true (src 1 2 (1 # 10))))
         = false
         ↔ is_held [([1; 0]%Z, [2%Z])] 1)))
  ∧ ((is_held [] 1
      → is_valid (set_n_patch 1 (set_n_iter 10 (src 1 2 (1 # 10)))) = false)
     ∧ (is_valid (set_n_patch 1 (set_n_iter 10 (src 1 2 (1 # 10)))) = false
        → is_held [] 1 ∨ invalid_at_start sceneA 1)
     ∧ ((∃ r0, sourcecat sceneA !! 1%nat = Some r0 ∧ is_valid r0 = true)
        → (is_valid (set_n_patch 1 (set_n_iter 10 (src 1 2 (1 # 10)))) = false
           ↔ is_held [] 1))).
Proof.
  assert (reachable (sceneA, []) (sceneA1, [([1; 0]%Z, [2%Z])])) as Hout.
  { apply (reach_call _ (sceneA, []) (Checkout (Some 1%Z) 0)).
    - apply reach_start, disjoint_held_nil.
    - vm_compute. reflexivity.
    - apply disjoint_held_singleton. }
  split.
  - apply (validity_invariant sceneA (sceneA1, [([1; 0]%Z, [2%Z])])).
    + reflexivity.
    + exact Hout.
    + vm_compute. reflexivity.
  - apply (validity_invariant sceneA
             ((checkin_region activeA fixedA 10 sceneA1).2, [])).
    + reflexivity.
    + apply (reach_call _ (sceneA1, [([1; 0]%Z, [2%Z])])
               (Checkin 0 activeA fixedA 10)).
      * exact Hout.
      * vm_compute. reflexivity.
      * apply disjoint_held_nil.
    + vm_compute. reflexivity.
Defined.

(** C1, against the claim as stated.  On the catalog that [ingest]
    builds from a file without an [is_valid] column every row is invalid
    before any call, while nothing is checked out; and after the
    checkout seeded with source 1 and the checkin of its rows (active 1
    and 0, fixed 2), with nothing outstanding again, the rows 3 and 4,
    which no region has held, are still invalid. *)
Lemma validity_fails_on_ingested_catalog :
  numbered (sourcecat sceneZ)
  ∧ reachable (sceneZ, []) (sceneZ, [])
  ∧ is_valid <$> sourcecat sceneZ = [false; false; false; false; false]
  ∧ reachable (sceneZ, []) (sceneZ2, [])
  ∧ is_valid <$> sourcecat sceneZ2 = [true; true; true; false; false]
  ∧ ¬ (∀ i r, sourcecat sceneZ !! i = Some r →
         (is_valid r = false ↔ is_held [] i))
  ∧ ¬ (∀ i r, sourcecat sceneZ2 !! i = Some r →
         (is_valid r = false ↔ is_held [] i)).
Proof.
  assert (reachable (sceneZ, []) (sceneZ, [])) as H0
    by apply reach_start, disjoint_held_nil.
  assert (reachable (sceneZ, []) (sceneZ1, [([1; 0]%Z, [2%Z])])) as H1.
  { apply (reach_call _ (sceneZ, []) (Checkout (Some 1%Z) 0)); [exact H0| |].
    - vm_compute. reflexivity.
    - apply disjoint_held_singleton. }
  assert (reachable (sceneZ, []) (sceneZ2, [])) as H2.
  { apply (reach_call _ (sceneZ1, [([1; 0]%Z, [2%Z])])
             (Checkin 0 activeZ fixedZ 10)); [exact H1| |].
    - vm_compute. reflexivity.
    - apply disjoint_held_nil. }
  split; [reflexivity|]. split; [exact H0|]. split; [reflexivity|].
  split; [exact H2|]. split; [vm_compute; reflexivity|]. split.
  - intros Hall.
    destruct (proj1 (Hall 0%nat (set_is_valid false (src 0 0 (1 # 10))) eq_refl)
                eq_refl) as (h & Hh & _).
    by apply elem_of_nil in Hh.
  - intros Hall.
    destruct (proj1 (Hall 4%nat (set_is_valid false (src 4 8 (1 # 10)))
                       ltac:(vm_compute; reflexivity)) eq_refl) as (h & Hh & _).
    by apply elem_of_nil in Hh.
Qed.

(** Scenario C: with sources 0 and 1 active, a checkout seeded with
    source 3 (x = 6) finds source 1 within the boundary radius and
    returns the conflict value, leaving the object as it was. *)
Lemma checkout_conflict_scenario_C :
  checkout_region (Some 3%Z) 0 sceneA1
  = (Ok (Conflict (sky_to_scene 6 0)), sceneA1).
Proof.
  apply (checkout_conflict_no_mutation sceneA1 (Some 3%Z) 0 (6, 0)%Q 1%nat
           (set_is_valid false (set_is_active true (src 1 2 (1 # 10))))).
  - vm_compute. reflexivity.
  - apply (bool_decide_unpack _). vm_compute. exact I.
  - vm_compute. reflexivity.
  - reflexivity.
Defined.

(** Scenario A: checking the region in with 10 iterations returns, and
    the row of source 1 is inactive and valid again with 10 iterations
    and one patch; the fixed source 2 is valid again. *)
Lemma checkin_scenario_A :
  ∃ s', checkin_region activeA fixedA 10 sceneA1 = (Ok tt, s')
    ∧ (∀ j i row r,
         [1; 0]%nat !! j = Some i → recs activeA !! j = Some row →
         sourcecat sceneA1 !! i = Some r →
         ∃ r', sourcecat s' !! i = Some r'
           ∧ (∀ f, f ∈ PAR_COLS → fld r' f = fld row f)
           ∧ (∀ f, f ∉ PAR_COLS → fld r' f = fld r f)
           ∧ n_iter r' = (n_iter r + 10)%Z
           ∧ n_patch r' = (n_patch r + 1)%Z
           ∧ is_active r' = false
           ∧ is_valid r' = true)
    ∧ (∀ i r, i ∈ [2%nat] → sourcecat sceneA1 !! i = Some r →
         sourcecat s' !! i = Some (set_is_valid true r))
    ∧ (∀ i, i ∉ [1; 0]%nat → i ∉ [2%nat] →
         sourcecat s' !! i = sourcecat sceneA1 !! i).
Proof.
  apply (checkin_region_effect sceneA1 activeA fixedA 10 [1; 0]%nat [2%nat]).
  - apply (bool_decide_unpack _). vm_compute. exact I.
  - apply (bool_decide_unpack _). vm_compute. exact I.
  - intros f Hf. apply list_elem_of_singleton in Hf as ->.
    apply (bool_decide_unpack _). vm_compute. exact I.
  - vm_compute. reflexivity.
  - vm_compute. reflexivity.
  - apply (bool_decide_unpack _). vm_compute. exact I.
  - intros i Hi Hf. apply list_elem_of_singleton in Hf as ->.
    revert Hi. apply (bool_decide_unpack _). vm_compute. exact I.
Defined.

(** Rows without any field, for an index that addresses no row: the
    call raises and leaves the catalog as it is.  Rows that address a
    catalog row without being checked out are not a failure: the check
    in of [rows0] on the untouched catalog returns. *)
Lemma checkin_only_checks_field :
  checkin_region nofield9 norows 5 scene2 = (Raise ValueError, scene2)
  ∧ fst (checkin_region rows0 norows 5 scene2) = Ok tt.
Proof.
  split.
  - apply (proj1 (checkin_fails_only_without_index_field scene2 nofield9 norows 5)).
    left. apply (bool_decide_unpack _). vm_compute. exact I.
  - destruct (fst (checkin_region rows0 norows 5 scene2)) as [[]|e] eqn:E;
      [reflexivity|exfalso].
    assert (fst (checkin_region rows0 norows 5 scene2) ≠ Ok tt) as Hfail
      by (rewrite E; discriminate).
    apply (proj2 (checkin_fails_only_without_index_field scene2 rows0 norows 5))
      in Hfail.
    + revert Hfail. apply (bool_decide_unpack _). vm_compute. exact I.
    + intros f Hf. apply list_elem_of_singleton in Hf as ->.
      apply (bool_decide_unpack _). vm_compute. exact I.
    + exists [0%nat]. vm_compute. reflexivity.
    + exists []. vm_compute. reflexivity.
Defined.

(** The explicit seed 1 selects the source at x = 2. *)
Lemma draw_center_seed_one :
  draw_center sceneA (Some 1%Z) 0 = Ok (fld (src 1 2 (1 # 10)) "ra",
                                        fld (src 1 2 (1 # 10)) "dec").
Proof.
  apply (draw_center_nonzero_seed sceneA 1%Z 0 1%nat (src 1 2 (1 # 10))).
  - lia.
  - reflexivity.
  - reflexivity.
Defined.


(** Scenario B: after two submits and one collect the ids 1 and 2 are
    still held exactly once. *)
Lemma queue_partition_scenario_B :
  workers (queueB_collected) ≡ₚ Py.range1 (Z.to_nat 2)
  ∧ NoDup (workers (queueB_collected)).
Proof.
  apply (@queue_partition mpi2 2
           [@Submit mpi2 "A" 1; @Submit mpi2 "B" 1; CollectOne 1] 0
           queueB_collected 2).
  vm_compute. reflexivity.
Defined.

(** Scenario B: worker 2 is complete, worker 1 is not; the first entry
    found complete is the second one, and [idle] becomes [[2]]. *)
Lemma collect_one_scenario_B :
  ∃ i c' r',
    busy queueB !! i = Some (c', r')
    ∧ Iprobe (0 + i) c' = true
    ∧ (∀ i' c'' r'', (i' < i)%nat → busy queueB !! i' = Some (c'', r'') →
                     Iprobe (0 + i') c'' = false)
    ∧ collect_one 1 0 queueB
      = Some (PTuple (PTuple (PInt (Z.of_nat c')) (PReq r'))
                     (PMsg (recv (0 + i) c')),
              {| busy := delete i (busy queueB);
                 idle := idle queueB ++ [c'];
                 n_children := n_children queueB;
                 parent := parent queueB |},
              S (0 + i)).
Proof.
  apply (@collect_one_first_complete mpi2 0 0 queueB 1 2%nat ("B", 2%nat)).
  - reflexivity.
  - intros t' _. reflexivity.
Defined.

End Scenarios.


(** ** The shape of a selection *)
Section SelectionShape.
Import Scene.
Context `{Imports} `{Np.Library}.

(** A selection that returns a patch, told in its locals. *)
Lemma get_circular_scene_ok_inv s center radius an fn :
  get_circular_scene s center = Ok (Some (radius, an, fn)) →
  ∃ n m,
    candidates s center ≠ []
    ∧ Np.any (is_active <$> Np.gather (sourcecat s) (candidates s center)) = false
    ∧ N_inside s center = Ok n
    ∧ Np.amax (Py.slice_to (Z.min (maxactive s) (Z.of_nat n)) (sorted_outer s center))
      = Ok m
    ∧ radius = Py.max (minradius s) m
    ∧ an = Np.gather (candidates s center)
             (Py.slice_to (Z.min (maxactive s) (Z.of_nat n)) (sort_order s center))
    ∧ fn = Np.gather (candidates s center)
             (fixed_positions s center (Z.min (maxactive s) (Z.of_nat n)) radius).
Proof.
  unfold get_circular_scene.
  change (query_ball_point s center (boundary_radius s)) with (candidates s center).
  destruct (bool_decide (candidates s center = [])) eqn:Hne; [discriminate|].
  apply bool_decide_eq_false in Hne.
  destruct (Np.any _) eqn:Hany; [discriminate|].
  change (Np.argmin _) with (N_inside s center).
  destruct (N_inside s center) as [n|]; [|discriminate].
  unfold mbind, res_mbind, res_bind at 1.
  change (Np.gather (outer_inner s center (candidates s center)).1
            (Np.argsort (outer_inner s center (candidates s center)).1))
    with (sorted_outer s center).
  destruct (Np.amax _) as [m|] eqn:Hm; [|discriminate].
  unfold mbind, res_mbind, res_bind at 1.
  intros [= <- <- <-]. exists n, m. repeat split; done.
Qed.

Lemma first_false_lt (l : list bool) n :
  Np.first_false l = Some n → (n < length l)%nat.
Proof.
  revert n. induction l as [|b l IH]; intros n; [discriminate|].
  cbn. destruct b; [|intros [= <-]; lia].
  destruct (Np.first_false l) as [n'|]; [|discriminate].
  intros [= <-]. specialize (IH n' eq_refl). lia.
Qed.

Lemma argmin_nonempty (l : list bool) :
  l ≠ [] → Np.argmin l = Ok (default 0%nat (Np.first_false l)).
Proof. by destruct l. Qed.

Lemma argmin_lt (l : list bool) n : Np.argmin l = Ok n → (n < length l)%nat.
Proof.
  destruct (decide (l = [])) as [->|Hne]; [discriminate|].
  rewrite argmin_nonempty by done. intros [= <-].
  destruct (Np.first_false l) as [n|] eqn:Hn.
  - by apply first_false_lt.
  - destruct l; [done|cbn; lia].
Qed.

Lemma first_false_prefix (l : list bool) n i :
  Np.first_false l = Some n → (i < n)%nat → l !! i = Some true.
Proof.
  revert n i. induction l as [|b l IH]; intros n i; [discriminate|].
  cbn. destruct b; [|intros [= <-]; lia].
  destruct (Np.first_false l) as [n'|] eqn:Hn; [|discriminate].
  intros [= <-] Hi. destruct i as [|i]; [done|].
  cbn. apply (IH n'); [done|lia].
Qed.

Lemma amax_nonempty (l : list Q) m : Np.amax l = Ok m → (0 < length l)%nat.
Proof. destruct l; [discriminate|cbn; lia]. Qed.

Lemma amax_fold_in (l : list Q) x :
  let m := foldl (λ m y, if Qlt_bool m y then y else m) x l in
  m = x ∨ m ∈ l.
Proof.
  cbv zeta. revert x. induction l as [|y l IH]; intros x; [by left|].
  cbn. destruct (IH (if Qlt_bool x y then y else x)) as [->|Hin].
  - destruct (Qlt_bool x y); [right; constructor|by left].
  - right. by constructor.
Qed.

Lemma amax_in (l : list Q) m : Np.amax l = Ok m → m ∈ l.
Proof.
  destruct l as [|x l]; [discriminate|]. cbn. intros [= <-].
  destruct (amax_fold_in l x) as [->|Hin]; [constructor|by constructor].
Qed.

Lemma Qlt_bool_false_le a b : Qlt_bool a b = false → (b <= a)%Q.
Proof.
  unfold Qlt_bool. rewrite negb_false_iff. apply Qle_bool_iff.
Qed.

Lemma Qlt_bool_true_le a b : Qlt_bool a b = true → (a <= b)%Q.
Proof.
  unfold Qlt_bool. rewrite negb_true_iff. intros Hf.
  apply Qlt_le_weak, Qnot_le_lt. intros Hle.
  apply Qle_bool_iff in Hle. congruence.
Qed.

Lemma amax_fold_ge (l : list Q) x :
  let m := foldl (λ m y, if Qlt_bool m y then y else m) x l in
  (x <= m)%Q ∧ ∀ y, y ∈ l → (y <= m)%Q.
Proof.
  cbv zeta. revert x. induction l as [|y l IH]; intros x.
  - cbn. split; [apply Qle_refl|]. by intros y ?%elem_of_nil.
  - cbn. destruct (IH (if Qlt_bool x y then y else x)) as [Hx Hl].
    destruct (Qlt_bool x y) eqn:Hxy.
    + split; [by eapply Qle_trans; [apply Qlt_bool_true_le|]|].
      intros z [->|Hz]%elem_of_cons; [done|by apply Hl].
    + split; [done|].
      intros z [->|Hz]%elem_of_cons; [|by apply Hl].
      eapply Qle_trans; [by apply Qlt_bool_false_le|done].
Qed.

Lemma amax_ge (l : list Q) m y : Np.amax l = Ok m → y ∈ l → (y <= m)%Q.
Proof.
  destruct l as [|x l]; [discriminate|]. cbn. intros [= <-].
  destruct (amax_fold_ge l x) as [Hx Hl].
  intros [->|Hy]%elem_of_cons; [done|by apply Hl].
Qed.

Lemma py_max_ge_l a b : (a <= Py.max a b)%Q.
Proof.
  unfold Py.max. destruct (Qlt_bool a b) eqn:E; [by apply Qlt_bool_true_le|].
  apply Qle_refl.
Qed.

Lemma py_max_ge_r a b : (b <= Py.max a b)%Q.
Proof.
  unfold Py.max. destruct (Qlt_bool a b) eqn:E; [apply Qle_refl|].
  by apply Qlt_bool_false_le.
Qed.

Lemma sort_order_length s center :
  length (sort_order s center) = length (candidates s center).
Proof. unfold sort_order. by rewrite argsort_length, outer_length. Qed.

Lemma slice_to_length {A} (k : Z) (l : list A) :
  length (Py.slice_to k l) = (Py.slice_bound (length l) k `min` length l)%nat.
Proof. unfold Py.slice_to. apply length_take. Qed.

Lemma N_inside_le_count s center n :
  N_inside s center = Ok n → (n ≤ count_inside s center)%nat.
Proof.
  unfold N_inside. rewrite count_inside_filter.
  pose proof (sorted_outer_monotone s center) as Hmono. revert Hmono.
  generalize ((λ o, Qlt_bool o (maxradius s)) <$> sorted_outer s center).
  intros l Hmono.
  destruct (decide (l = [])) as [->|Hne]; [discriminate|].
  rewrite argmin_nonempty by done. intros [= <-].
  destruct (Np.first_false l) as [n|] eqn:Hff.
  - by rewrite <- (first_false_count l n Hmono Hff).
  - apply Nat.le_0_l.
Qed.

(** The number of active rows of a patch: at least one, at most
    [maxactive], and at most the number of candidates inside [maxradius]. *)
Theorem active_set_size s center radius an fn :
  (0 ≤ maxactive s)%Z →
  get_circular_scene s center = Ok (Some (radius, an, fn)) →
  (1 ≤ length an)%nat
  ∧ (Z.of_nat (length an) ≤ maxactive s)%Z
  ∧ (length an ≤ count_inside s center)%nat.
Proof.
  intros Hmax Hsel.
  destruct (get_circular_scene_ok_inv _ _ _ _ _ Hsel)
    as (n & m & Hne & Hany & Hn & Hm & _ & -> & _).
  apply amax_nonempty in Hm.
  unfold Np.gather. rewrite length_fmap.
  rewrite slice_to_length, sorted_outer_length in Hm.
  rewrite slice_to_length, sort_order_length.
  assert (Py.slice_bound (length (candidates s center))
            (Z.min (maxactive s) (Z.of_nat n))
          = Z.to_nat (Z.min (maxactive s) (Z.of_nat n))) as Hb.
  { unfold Py.slice_bound.
    replace (_ <? 0)%Z with false; [done|]. symmetry. apply Z.ltb_ge. lia. }
  rewrite Hb in *.
  pose proof (N_inside_le_count _ _ _ Hn). lia.
Qed.

Lemma slice_from_length {A} (k : Z) (l : list A) :
  length (Py.slice_from k l) = (length l - Py.slice_bound (length l) k)%nat.
Proof. unfold Py.slice_from. apply length_drop. Qed.

(** In a selection that returns, some candidate is left over after the
    active ones. *)
Lemma finds_nonempty s center n :
  N_inside s center = Ok n →
  (1 ≤ length (Py.slice_from (Z.min (maxactive s) (Z.of_nat n)) (sort_order s center)))%nat.
Proof.
  intros Hn. apply argmin_lt in Hn.
  rewrite length_fmap, sorted_outer_length in Hn.
  rewrite slice_from_length, sort_order_length. unfold Py.slice_bound.
  destruct (Z.min (maxactive s) (Z.of_nat n) <? 0)%Z eqn:E.
  - apply Z.ltb_lt in E. lia.
  - apply Z.ltb_ge in E. lia.
Qed.

(** Every patch has a fixed row, and no more than [maxactive] of them. *)
Theorem fixed_set_size s center radius an fn :
  get_circular_scene s center = Ok (Some (radius, an, fn)) →
  (1 ≤ length fn)%nat
  ∧ ((0 ≤ maxactive s)%Z → (Z.of_nat (length fn) ≤ maxactive s)%Z).
Proof.
  intros Hsel.
  destruct (get_circular_scene_ok_inv _ _ _ _ _ Hsel)
    as (n & m & Hne & Hany & Hn & Hm & _ & _ & ->).
  pose proof (finds_nonempty s center n Hn) as Hfinds.
  apply amax_nonempty in Hm.
  rewrite slice_to_length, sorted_outer_length in Hm.
  unfold Np.gather. rewrite length_fmap. unfold fixed_positions. cbv zeta.
  set (k := Z.min (maxactive s) (Z.of_nat n)) in *.
  set (finds := Py.slice_from k (sort_order s center)) in *.
  set (F := Py.slice_to _ (List.filter _ finds)).
  destruct (length F =? 0)%nat eqn:EF.
  - rewrite slice_to_length. cbn. split; [lia|]. intros Hmax.
    unfold Py.slice_bound in Hm.
    destruct (k <? 0)%Z eqn:E; [apply Z.ltb_lt in E; lia|]. lia.
  - apply Nat.eqb_neq in EF. split; [lia|]. intros Hmax.
    unfold F. rewrite slice_to_length. unfold Py.slice_bound.
    destruct (_ <? 0)%Z eqn:E; [apply Z.ltb_lt in E; lia|]. lia.
Qed.

(** The patch radius: at least [minradius], at least the outer distance
    of every active candidate, and, unless [minradius] sets it, below
    [maxradius]. *)
Theorem patch_radius_bounds s center radius an fn :
  get_circular_scene s center = Ok (Some (radius, an, fn)) →
  (minradius s <= radius)%Q
  ∧ (∀ j o, (j < length an)%nat → sorted_outer s center !! j = Some o →
            (o <= radius)%Q)
  ∧ ((0 ≤ maxactive s)%Z →
     radius = minradius s ∨ Qlt_bool radius (maxradius s) = true).
Proof.
  intros Hsel.
  destruct (get_circular_scene_ok_inv _ _ _ _ _ Hsel)
    as (n & m & Hne & Hany & Hn & Hm & -> & -> & _).
  set (k := Z.min (maxactive s) (Z.of_nat n)) in *.
  split; [apply py_max_ge_l|]. split.
  - intros j o Hj Ho. eapply Qle_trans; [|apply py_max_ge_r].
    apply (amax_ge _ _ _ Hm).
    unfold Np.gather in Hj.
    rewrite length_fmap, slice_to_length, sort_order_length in Hj.
    unfold Py.slice_to. rewrite sorted_outer_length.
    apply list_elem_of_lookup. exists j.
    rewrite lookup_take_lt by lia. done.
  - intros Hmax. unfold Py.max.
    destruct (Qlt_bool (minradius s) m); [right|by left].
    pose proof (amax_in _ _ Hm) as Hin.
    unfold Py.slice_to in Hin. apply elem_of_take in Hin as (j & Hj & Hlt).
    rewrite sorted_outer_length in Hlt. unfold Py.slice_bound in Hlt.
    destruct (k <? 0)%Z eqn:E; [apply Z.ltb_lt in E; lia|].
    unfold N_inside in Hn.
    destruct (decide ((λ o, Qlt_bool o (maxradius s)) <$> sorted_outer s center = []))
      as [Hnil|Hnn]; [rewrite Hnil in Hn; discriminate|].
    rewrite argmin_nonempty in Hn by done. injection Hn as Hn.
    destruct (Np.first_false _) as [n'|] eqn:Hff; cbn in Hn; [|lia].
    subst n'.
    assert (((λ o, Qlt_bool o (maxradius s)) <$> sorted_outer s center) !! j
            = Some true) as Htrue
      by (apply (first_false_prefix _ n); [done|lia]).
    rewrite list_lookup_fmap, Hj in Htrue. by injection Htrue.
Qed.

Lemma ball_from_elem i pts center r k :
  k ∈ ball_from i pts center r →
  ∃ p, pts !! (k - i)%nat = Some p
       ∧ Qle_bool (hypot (p.1 - center.1) (p.2 - center.2)) r = true.
Proof.
  revert i. induction pts as [|p pts IH]; intros i; cbn; [by intros ?%elem_of_nil|].
  destruct (Qle_bool _ r) eqn:E.
  - intros [->|Hk]%elem_of_cons.
    + exists p. by rewrite Nat.sub_diag.
    + pose proof (ball_from_bound _ _ _ _ _ Hk) as Hb.
      destruct (IH _ Hk) as (q & Hq & Hd). exists q. split; [|done].
      replace (k - i)%nat with (S (k - S i)) by lia. done.
  - intros Hk. pose proof (ball_from_bound _ _ _ _ _ Hk) as Hb.
    destruct (IH _ Hk) as (q & Hq & Hd). exists q. split; [|done].
    replace (k - i)%nat with (S (k - S i)) by lia. done.
Qed.

Lemma gather_elem (kinds : list nat) ps i :
  Forall (λ p, p < length kinds)%nat ps → i ∈ Np.gather kinds ps → i ∈ kinds.
Proof.
  intros Hps Hi. unfold Np.gather in Hi.
  apply list_elem_of_fmap in Hi as (p & -> & Hp).
  rewrite Forall_forall in Hps.
  destruct (lookup_lt_is_Some_2 kinds p (Hps p Hp)) as [x Hx].
  rewrite (list_lookup_total_correct _ _ _ Hx).
  by eapply list_elem_of_lookup_2.
Qed.

Lemma sort_order_range s center :
  Forall (λ p, p < length (candidates s center))%nat (sort_order s center).
Proof.
  apply Forall_forall. intros p Hp. unfold sort_order in Hp.
  rewrite argsort_perm in Hp. apply elem_of_seq in Hp.
  rewrite outer_length in Hp. lia.
Qed.

Lemma sort_order_NoDup s center : NoDup (sort_order s center).
Proof. unfold sort_order. rewrite argsort_perm. apply NoDup_seq. Qed.

Lemma fixed_positions_sub s center k radius p :
  p ∈ fixed_positions s center k radius → p ∈ sort_order s center.
Proof.
  unfold fixed_positions. cbv zeta.
  destruct (_ =? 0)%nat; rewrite slice_to_take.
  - intros Hp%subseteq_take. unfold Py.slice_from in Hp.
    by apply subseteq_drop in Hp.
  - intros Hp%subseteq_take. apply list_elem_of_In in Hp.
    apply filter_In in Hp as [Hp _]. apply list_elem_of_In in Hp.
    unfold Py.slice_from in Hp. by apply subseteq_drop in Hp.
Qed.

Lemma filter_NoDup {A} (f : A → bool) (l : list A) :
  NoDup l → NoDup (List.filter f l).
Proof.
  induction 1 as [|x l Hx Hl IH]; cbn; [constructor|].
  destruct (f x); [|done]. constructor; [|done].
  intros Hin. apply Hx. apply list_elem_of_In in Hin.
  apply filter_In in Hin as [Hin _]. by apply list_elem_of_In.
Qed.

Lemma fixed_positions_NoDup s center k radius :
  NoDup (fixed_positions s center k radius).
Proof.
  assert (NoDup (Py.slice_from k (sort_order s center))) as Hfinds.
  { unfold Py.slice_from.
    eapply sublist_NoDup; [apply sort_order_NoDup|apply sublist_drop]. }
  unfold fixed_positions. cbv zeta.
  destruct (_ =? 0)%nat; rewrite slice_to_take.
  - eapply sublist_NoDup; [done|apply sublist_take].
  - eapply sublist_NoDup; [by apply filter_NoDup|apply sublist_take].
Qed.

(** The rows of a patch: no row is selected twice, as active or as
    fixed, and every selected row lies within [boundary_radius] of the
    center. *)
Theorem selected_rows_distinct_within_boundary s center radius an fn :
  get_circular_scene s center = Ok (Some (radius, an, fn)) →
  NoDup (an ++ fn)
  ∧ ∀ i, i ∈ an ++ fn →
      ∃ p, scene_coordinates s !! i = Some p
           ∧ Qle_bool (hypot (p.1 - center.1) (p.2 - center.2))
               (boundary_radius s) = true.
Proof.
  intros Hsel.
  destruct (get_circular_scene_distinct _ _ _ _ _ Hsel) as [Hnd Hdisj].
  destruct (get_circular_scene_ok_inv _ _ _ _ _ Hsel)
    as (n & m & Hne & Hany & Hn & Hm & -> & -> & ->).
  set (k := Z.min (maxactive s) (Z.of_nat n)) in *.
  assert (Forall (λ p, p < length (candidates s center))%nat
            (fixed_positions s center k (Py.max (minradius s) m))) as Hfr.
  { apply Forall_forall. intros p Hp%fixed_positions_sub.
    pose proof (sort_order_range s center) as Hr.
    rewrite Forall_forall in Hr. by apply Hr. }
  assert (Forall (λ p, p < length (candidates s center))%nat
            (Py.slice_to k (sort_order s center))) as Har.
  { apply Forall_forall. intros p Hp. rewrite slice_to_take in Hp.
    apply subseteq_take in Hp.
    pose proof (sort_order_range s center) as Hr.
    rewrite Forall_forall in Hr. by apply Hr. }
  split.
  - apply NoDup_app. split; [exact Hnd|]. split; [exact Hdisj|].
    apply gather_NoDup; [apply ball_from_NoDup|done|apply fixed_positions_NoDup].
  - intros i Hi.
    assert (i ∈ candidates s center) as Hc.
    { apply elem_of_app in Hi as [Hi|Hi].
      - by apply (gather_elem _ _ _ Har).
      - by apply (gather_elem _ _ _ Hfr). }
    apply ball_from_elem in Hc as (p & Hp & Hd).
    rewrite Nat.sub_0_r in Hp. eauto.
Qed.

Lemma conflict_has_active_candidate s center :
  length (scene_coordinates s) = length (sourcecat s) →
  get_circular_scene s center = Ok None →
  ∃ k r, k ∈ candidates s center ∧ sourcecat s !! k = Some r
         ∧ is_active r = true.
Proof.
  intros Hwf. unfold get_circular_scene.
  change (query_ball_point s center (boundary_radius s))
    with (candidates s center).
  destruct (bool_decide _); [discriminate|].
  destruct (Np.any _) eqn:Hany.
  - intros _. apply any_true in Hany.
    apply list_elem_of_fmap in Hany as (r & Hr & Hin).
    unfold Np.gather in Hin. apply list_elem_of_fmap in Hin as (k & -> & Hk).
    pose proof (ball_from_bound _ _ _ _ _ Hk) as Hb.
    destruct (lookup_lt_is_Some_2 (sourcecat s) k) as [r Hr']; [lia|].
    rewrite (list_lookup_total_correct _ _ _ Hr') in Hr.
    exists k, r. done.
  - destruct (Np.argmin _); [|discriminate].
    unfold mbind, res_mbind, res_bind at 1.
    destruct (Np.amax _); discriminate.
Qed.

(** The selection signals a conflict for exactly one reason: a candidate
    within the boundary radius is active. *)
Theorem conflict_iff_active_candidate s center :
  length (scene_coordinates s) = length (sourcecat s) →
  get_circular_scene s center = Ok None
  ↔ ∃ k r, k ∈ candidates s center ∧ sourcecat s !! k = Some r
           ∧ is_active r = true.
Proof.
  intros Hwf. split.
  - by apply conflict_has_active_candidate.
  - intros (k & r & Hk & Hr & Ha). by eapply get_circular_scene_conflict.
Qed.

Lemma gather_fmap_eq {A B} `{Inhabited A} (f : A → B) (a a' : list A) ks :
  f <$> a' = f <$> a → Forall (λ k, k < length a)%nat ks →
  f <$> Np.gather a' ks = f <$> Np.gather a ks.
Proof.
  intros Heq Hks. unfold Np.gather. rewrite <- !list_fmap_compose.
  apply Forall_fmap_ext_1. eapply Forall_impl; [exact Hks|].
  intros k Hk. cbn in *.
  assert (length a' = length a) as Hlen
    by (by rewrite <- (length_fmap f a'), Heq, length_fmap).
  destruct (lookup_lt_is_Some_2 a k Hk) as [x Hx].
  destruct (lookup_lt_is_Some_2 a' k) as [x' Hx']; [lia|].
  rewrite (list_lookup_total_correct _ _ _ Hx),
    (list_lookup_total_correct _ _ _ Hx').
  assert ((f <$> a') !! k = (f <$> a) !! k) as Hk' by (by rewrite Heq).
  rewrite !list_lookup_fmap, Hx, Hx' in Hk'. by injection Hk'.
Qed.

(** What the selection reads of the catalog rows: the [is_active] flags
    and the half-light radii.  Replacing the catalog by one that agrees
    on these two columns (whatever its [is_valid] flags, counters and
    other parameters are) gives the same outcome. *)
Theorem selection_reads_activity_and_size s cat' center :
  length (scene_coordinates s) = length (sourcecat s) →
  is_active <$> cat' = is_active <$> sourcecat s →
  (λ r, fld r "rhalf") <$> cat' = (λ r, fld r "rhalf") <$> sourcecat s →
  get_circular_scene (with_sourcecat s cat') center = get_circular_scene s center.
Proof.
  intros Hwf Hact Hrh.
  assert (Forall (λ k, k < length (sourcecat s))%nat (candidates s center)) as Hk.
  { apply Forall_forall. intros k Hk. apply ball_from_bound in Hk. lia. }
  assert (outer_inner (with_sourcecat s cat') center (candidates s center)
          = outer_inner s center (candidates s center)) as Houter.
  { unfold outer_inner. cbn [sourcecat with_sourcecat].
    by rewrite (gather_fmap_eq _ _ _ _ Hrh Hk). }
  unfold get_circular_scene.
  change (query_ball_point (with_sourcecat s cat') center
            (boundary_radius (with_sourcecat s cat')))
    with (candidates s center).
  change (query_ball_point s center (boundary_radius s))
    with (candidates s center).
  rewrite Houter. cbn [sourcecat with_sourcecat].
  rewrite (gather_fmap_eq _ _ _ _ Hact Hk). reflexivity.
Qed.

End SelectionShape.


(** ** What checkout and checkin leave alone *)
Section FrameFacts.
Import Scene.
Context `{Imports} `{Np.Library}.

Lemma keeps_bind {A B} (R : SuperScene → SuperScene → Prop)
    (m : M A) (f : A → M B) :
  (∀ s1 s2 s3, R s1 s2 → R s2 s3 → R s1 s3) →
  keeps R m → (∀ a, keeps R (f a)) → keeps R (bind m f).
Proof.
  intros Htrans Hm Hf s. unfold bind.
  specialize (Hm s). destruct (m s) as [[a|e] s1]; cbn in *; [|done].
  eapply Htrans; [exact Hm|]. apply Hf.
Qed.

Lemma keeps_lift {A} (R : SuperScene → SuperScene → Prop) (r : res A) :
  (∀ s, R s s) → keeps R (lift r).
Proof. intros Hrefl s. apply Hrefl. Qed.

Lemma keeps_ret {A} (R : SuperScene → SuperScene → Prop) (a : A) :
  (∀ s, R s s) → keeps R (ret a).
Proof. intros Hrefl s. apply Hrefl. Qed.

Lemma keeps_for_each {A} (R : SuperScene → SuperScene → Prop)
    (l : list A) (body : A → M unit) :
  (∀ s, R s s) → (∀ s1 s2 s3, R s1 s2 → R s2 s3 → R s1 s3) →
  (∀ x, keeps R (body x)) → keeps R (for_each l body).
Proof.
  intros Hrefl Htrans Hbody. induction l as [|x l IH]; cbn.
  - by apply keeps_ret.
  - apply keeps_bind; [done|apply Hbody|]. by intros _.
Qed.

Lemma same_setup_refl s : same_setup s s.
Proof. by repeat split. Qed.

Lemma same_setup_trans s1 s2 s3 :
  same_setup s1 s2 → same_setup s2 s3 → same_setup s1 s3.
Proof.
  unfold same_setup. intros Ha Hb.
  destruct Ha as (?&?&?&?&?&?&?&?&?&?), Hb as (?&?&?&?&?&?&?&?&?&?).
  repeat split; congruence.
Qed.

Lemma same_setup_with_sourcecat s cat :
  source_index <$> cat = source_index <$> sourcecat s →
  same_setup s (with_sourcecat s cat).
Proof. intros Hc. by repeat split. Qed.

Lemma same_setup_with_counts s na nf : same_setup s (with_counts s na nf).
Proof. by repeat split. Qed.

Lemma keeps_setup_setitem {V} (upd : V → source → source) inds vals :
  (∀ v r, source_index (upd v r) = source_index r) →
  keeps same_setup (setitem upd inds vals).
Proof.
  intros Hupd s. unfold setitem.
  destruct (Np.norm_inds _ inds); cbn; [|apply same_setup_refl].
  apply same_setup_with_sourcecat. by apply scatter_preserves.
Qed.

Lemma keeps_setup_iadd (col : source → Z) upd inds d :
  (∀ v r, source_index (upd v r) = source_index r) →
  keeps same_setup (iadd col upd inds d).
Proof.
  intros Hupd s. unfold iadd.
  destruct (Np.norm_inds _ inds); cbn; [|apply same_setup_refl].
  apply same_setup_with_sourcecat. by apply scatter_preserves.
Qed.

Lemma keeps_setup_getrows inds : keeps same_setup (getrows inds).
Proof.
  intros s. unfold getrows.
  destruct (Np.norm_inds _ inds); cbn; apply same_setup_refl.
Qed.

Lemma keeps_setup_checkout seed_index rnd :
  keeps same_setup (checkout_region seed_index rnd).
Proof.
  unfold checkout_region, mbind, M_mbind.
  apply keeps_bind; [apply same_setup_trans|intros s; apply same_setup_refl|].
  intros s0.
  apply keeps_bind; [apply same_setup_trans|apply keeps_lift, same_setup_refl|].
  intros c.
  apply keeps_bind; [apply same_setup_trans|apply keeps_lift, same_setup_refl|].
  intros [[[radius an] fn]|]; [|apply keeps_ret, same_setup_refl].
  repeat (apply keeps_bind;
          [apply same_setup_trans
          |first [by apply keeps_setup_setitem
                 |apply keeps_setup_getrows
                 |intros s; apply same_setup_with_counts]
          |intros ?]).
  apply keeps_ret, same_setup_refl.
Qed.

Lemma keeps_setup_checkin active fixed niter :
  keeps same_setup (checkin_region active fixed niter).
Proof.
  unfold checkin_region, mbind, M_mbind.
  apply keeps_bind; [apply same_setup_trans|apply keeps_lift, same_setup_refl|].
  intros ai.
  apply keeps_bind; [apply same_setup_trans|apply keeps_lift, same_setup_refl|].
  intros fi.
  apply keeps_bind; [apply same_setup_trans| |intros _].
  { apply keeps_for_each; [apply same_setup_refl|apply same_setup_trans|].
    intros f.
    apply keeps_bind; [apply same_setup_trans|apply keeps_lift, same_setup_refl|].
    intros vals. by apply keeps_setup_setitem. }
  repeat (apply keeps_bind;
          [apply same_setup_trans
          |first [by apply keeps_setup_setitem
                 |by apply keeps_setup_iadd
                 |intros s; apply same_setup_with_counts]
          |intros ?]).
  intros s. apply same_setup_with_counts.
Qed.

(** Whatever a checkout or a checkin does, and whether it returns or
    raises, the object keeps its cached scene coordinates, its number of
    sources, its configuration and the [source_index] column of its
    catalog: selection always works on the positions and settings fixed
    by the constructor. *)
Theorem checkout_checkin_keep_setup s seed_index rnd active fixed niter :
  same_setup s (checkout_region seed_index rnd s).2
  ∧ same_setup s (checkin_region active fixed niter s).2.
Proof.
  split; [apply keeps_setup_checkout|apply keeps_setup_checkin].
Qed.

(** An in-place addition leaves, in every addressed row, the old value
    plus the increment, however often the row is addressed. *)
Lemma scatter_fmap_lookup {V} (upd : V → source → source) (g : nat → V)
    ks (a : list source) i :
  (∀ v v' r, upd v (upd v' r) = upd v r) →
  Np.scatter upd ks (g <$> ks) a !! i
  = if decide (i ∈ ks) then upd (g i) <$> a !! i else a !! i.
Proof.
  intros Hover. revert a. induction ks as [|k ks IH]; intros a.
  - cbn. by rewrite decide_False by (by intros ?%elem_of_nil).
  - rewrite fmap_cons, scatter_cons, IH.
    destruct (decide (k = i)) as [->|Hne].
    + rewrite (decide_True (P := i ∈ i :: ks)) by constructor.
      rewrite list_lookup_alter_eq.
      destruct (decide (i ∈ ks)); [|done].
      destruct (a !! i); cbn; [|done]. by rewrite Hover.
    + rewrite list_lookup_alter_ne by done.
      destruct (decide (i ∈ ks)).
      * by rewrite decide_True by (by constructor).
      * by rewrite decide_False by (by apply not_elem_of_cons).
Qed.

Lemma counters_grow_refl s : counters_grow s s.
Proof.
  split; [done|]. intros i r r' Hr Hr'. rewrite Hr in Hr'.
  injection Hr' as <-. lia.
Qed.

Lemma counters_grow_trans s1 s2 s3 :
  counters_grow s1 s2 → counters_grow s2 s3 → counters_grow s1 s3.
Proof.
  intros [Hl1 H1] [Hl2 H2]. split; [congruence|].
  intros i r r' Hr Hr'.
  destruct (lookup_lt_is_Some_2 (sourcecat s2) i) as [r2 Hr2].
  { rewrite Hl1. by eapply lookup_lt_Some. }
  destruct (H1 i r r2 Hr Hr2), (H2 i r2 r' Hr2 Hr'). lia.
Qed.

Lemma counters_grow_with_counts s na nf : counters_grow s (with_counts s na nf).
Proof. exact (counters_grow_refl s). Qed.

Lemma keeps_counters_setitem {V} (upd : V → source → source) inds vals :
  (∀ v r, n_iter (upd v r) = n_iter r ∧ n_patch (upd v r) = n_patch r) →
  keeps counters_grow (setitem upd inds vals).
Proof.
  intros Hupd s. unfold setitem.
  destruct (Np.norm_inds _ inds) as [ks|]; cbn; [|apply counters_grow_refl].
  split; cbn; [apply scatter_length|]. intros i r r' Hr Hr'.
  assert ((λ r, (n_iter r, n_patch r)) <$> Np.scatter upd ks vals (sourcecat s)
          = (λ r, (n_iter r, n_patch r)) <$> sourcecat s) as Hg.
  { apply scatter_preserves. intros v x. by destruct (Hupd v x) as [-> ->]. }
  assert (Some (n_iter r', n_patch r') = Some (n_iter r, n_patch r)) as Heq.
  { pose proof (f_equal (λ l, l !! i) Hg) as Hi. cbn in Hi.
    by rewrite !list_lookup_fmap, Hr, Hr' in Hi. }
  injection Heq as -> ->. lia.
Qed.

Lemma keeps_counters_iadd_n_iter inds d :
  (0 ≤ d)%Z → keeps counters_grow (iadd n_iter set_n_iter inds d).
Proof.
  intros Hd s. unfold iadd.
  destruct (Np.norm_inds _ inds) as [ks|]; cbn; [|apply counters_grow_refl].
  split; cbn; [apply scatter_length|]. intros i r r' Hr Hr'.
  rewrite scatter_fmap_lookup in Hr' by done. rewrite Hr in Hr'.
  rewrite (list_lookup_total_correct _ _ _ Hr) in Hr'.
  destruct (decide (i ∈ ks)); cbn in Hr'; injection Hr' as <-; cbn; lia.
Qed.

Lemma keeps_counters_iadd_n_patch inds :
  keeps counters_grow (iadd n_patch set_n_patch inds 1).
Proof.
  intros s. unfold iadd.
  destruct (Np.norm_inds _ inds) as [ks|]; cbn; [|apply counters_grow_refl].
  split; cbn; [apply scatter_length|]. intros i r r' Hr Hr'.
  rewrite scatter_fmap_lookup in Hr' by done. rewrite Hr in Hr'.
  rewrite (list_lookup_total_correct _ _ _ Hr) in Hr'.
  destruct (decide (i ∈ ks)); cbn in Hr'; injection Hr' as <-; cbn; lia.
Qed.

Lemma keeps_counters_getrows inds : keeps counters_grow (getrows inds).
Proof.
  intros s. unfold getrows.
  destruct (Np.norm_inds _ inds); cbn; apply counters_grow_refl.
Qed.

Lemma keeps_counters_checkout seed_index rnd :
  keeps counters_grow (checkout_region seed_index rnd).
Proof.
  unfold checkout_region, mbind, M_mbind.
  apply keeps_bind; [apply counters_grow_trans|intros s; apply counters_grow_refl|].
  intros s0.
  apply keeps_bind; [apply counters_grow_trans|apply keeps_lift, counters_grow_refl|].
  intros c.
  apply keeps_bind; [apply counters_grow_trans|apply keeps_lift, counters_grow_refl|].
  intros [[[radius an] fn]|]; [|apply keeps_ret, counters_grow_refl].
  repeat (apply keeps_bind;
          [apply counters_grow_trans
          |first [by apply keeps_counters_setitem
                 |apply keeps_counters_getrows
                 |intros s; apply counters_grow_with_counts]
          |intros ?]).
  apply keeps_ret, counters_grow_refl.
Qed.

Lemma keeps_counters_checkin active fixed niter :
  (0 ≤ niter)%Z → keeps counters_grow (checkin_region active fixed niter).
Proof.
  intros Hd. unfold checkin_region, mbind, M_mbind.
  apply keeps_bind; [apply counters_grow_trans|apply keeps_lift, counters_grow_refl|].
  intros ai.
  apply keeps_bind; [apply counters_grow_trans|apply keeps_lift, counters_grow_refl|].
  intros fi.
  apply keeps_bind; [apply counters_grow_trans| |intros _].
  { apply keeps_for_each; [apply counters_grow_refl|apply counters_grow_trans|].
    intros f.
    apply keeps_bind; [apply counters_grow_trans|apply keeps_lift, counters_grow_refl|].
    intros vals. by apply keeps_counters_setitem. }
  repeat (apply keeps_bind;
          [apply counters_grow_trans
          |first [by apply keeps_counters_setitem
                 |by apply keeps_counters_iadd_n_iter
                 |apply keeps_counters_iadd_n_patch
                 |intros s; apply counters_grow_with_counts]
          |intros ?]).
  intros s. apply counters_grow_with_counts.
Qed.

(** The counters [n_iter] and [n_patch] of a row never decrease: not by a
    checkout, and not by a checkin with a non-negative number of
    iterations, whether the call returns or raises part-way. *)
Theorem row_counters_never_decrease s seed_index rnd active fixed niter :
  (0 ≤ niter)%Z →
  counters_grow s (checkout_region seed_index rnd s).2
  ∧ counters_grow s (checkin_region active fixed niter s).2.
Proof.
  intros Hd. split; [apply keeps_counters_checkout|by apply keeps_counters_checkin].
Qed.

Lemma undone_false s :
  undone s = false ↔ ∀ r, r ∈ sourcecat s → (target_niter s ≤ n_iter r)%Z.
Proof.
  unfold undone. rewrite <- not_true_iff_false, any_true. split.
  - intros Hno r Hr.
    destruct (Z.ltb_spec (n_iter r) (target_niter s)) as [Hlt|Hge]; [|done].
    exfalso. apply Hno. apply list_elem_of_fmap.
    exists (n_iter r). split; [|by apply list_elem_of_fmap_2].
    symmetry. by apply Z.ltb_lt.
  - intros Hall Hin. apply list_elem_of_fmap in Hin as (n & Hn & Hin).
    apply list_elem_of_fmap in Hin as (r & -> & Hr).
    symmetry in Hn. apply Z.ltb_lt in Hn. specialize (Hall r Hr). lia.
Qed.

Lemma undone_stays_false s s' :
  same_setup s s' → counters_grow s s' → undone s = false → undone s' = false.
Proof.
  intros Hsetup [Hlen Hgrow]. rewrite !undone_false. intros Hall r' Hr'.
  destruct Hsetup as (_ & _ & _ & -> & _).
  apply list_elem_of_lookup_1 in Hr' as [i Hi].
  destruct (lookup_lt_is_Some_2 (sourcecat s) i) as [r Hr].
  { rewrite <- Hlen. by eapply lookup_lt_Some. }
  destruct (Hgrow i r r' Hr Hi) as [Hle _].
  assert (r ∈ sourcecat s) as Hin by (by eapply list_elem_of_lookup_2).
  specialize (Hall r Hin). lia.
Qed.

(** Once every source has reached [target_niter] ([undone] is false), it
    stays that way through any checkout and any checkin with a
    non-negative number of iterations. *)
Theorem undone_never_returns s seed_index rnd active fixed niter :
  (0 ≤ niter)%Z →
  undone s = false →
  undone (checkout_region seed_index rnd s).2 = false
  ∧ undone (checkin_region active fixed niter s).2 = false.
Proof.
  intros Hd Hu. split.
  - eapply undone_stays_false; [apply keeps_setup_checkout
                               |apply keeps_counters_checkout|done].
  - eapply undone_stays_false; [apply keeps_setup_checkin
                               |by apply keeps_counters_checkin|done].
Qed.

End FrameFacts.


(** ** What a checkout does *)
Section CheckoutFacts.
Import Scene.
Context `{Imports} `{Np.Library}.

Lemma norm_inds_of_nat_ok n (l : list nat) :
  Forall (λ i, i < n)%nat l → Np.norm_inds n (Z.of_nat <$> l) = Ok l.
Proof.
  intros Hl. rewrite norm_inds_nonneg.
  - f_equal. rewrite <- list_fmap_compose. rewrite <- (list_fmap_id l) at 2.
    apply list_fmap_ext. intros ? i _. cbn. apply Nat2Z.id.
  - apply Forall_fmap. eapply Forall_impl; [exact Hl|]. intros i Hi. cbn in *. lia.
Qed.

(** The rows of a patch are candidates, none of which is active. *)
Lemma selected_rows_inactive s center radius an fn :
  length (scene_coordinates s) = length (sourcecat s) →
  get_circular_scene s center = Ok (Some (radius, an, fn)) →
  ∀ i, i ∈ an ++ fn →
    ∃ r, sourcecat s !! i = Some r ∧ is_active r = false.
Proof.
  intros Hwf Hsel i Hi.
  destruct (get_circular_scene_ok_inv _ _ _ _ _ Hsel)
    as (n & m & Hne & Hany & Hn & Hm & -> & -> & ->).
  assert (i ∈ candidates s center) as Hc.
  { pose proof (sort_order_range s center) as Hr. rewrite Forall_forall in Hr.
    apply elem_of_app in Hi as [Hi|Hi]; eapply gather_elem; try exact Hi.
    - apply Forall_forall. intros p Hp. rewrite slice_to_take in Hp.
      by apply Hr, (subseteq_take _ _ _ Hp).
    - apply Forall_forall. intros p Hp%fixed_positions_sub. by apply Hr. }
  pose proof (ball_from_bound _ _ _ _ _ Hc) as Hb.
  destruct (lookup_lt_is_Some_2 (sourcecat s) i) as [r Hr]; [lia|].
  exists r. split; [done|].
  destruct (is_active r) eqn:Ha; [|done].
  assert (Np.any (is_active <$> Np.gather (sourcecat s) (candidates s center)) = true)
    as Hany'; [|congruence].
  apply any_true. apply list_elem_of_lookup_1 in Hc as [j Hj].
  apply list_elem_of_lookup. exists j.
  rewrite list_lookup_fmap, (gather_lookup _ _ _ _ _ Hj Hr). cbn. by rewrite Ha.
Qed.

Lemma selected_rows_range s center radius an fn :
  length (scene_coordinates s) = length (sourcecat s) →
  get_circular_scene s center = Ok (Some (radius, an, fn)) →
  Forall (λ i, i < length (sourcecat s))%nat an
  ∧ Forall (λ i, i < length (sourcecat s))%nat fn.
Proof.
  intros Hwf Hsel.
  pose proof (selected_rows_inactive s center radius an fn Hwf Hsel) as Hrows.
  split; apply Forall_forall; intros i Hi;
    (destruct (Hrows i) as (r & Hr & _);
     [apply elem_of_app; auto|by eapply lookup_lt_Some]).
Qed.

Lemma checkout_cat_row an fn cat i r :
  cat !! i = Some r →
  checkout_cat an fn cat !! i = Some (marked an fn i r).
Proof.
  intros Hr. unfold checkout_cat, marked.
  rewrite !scatter_scalar_lookup by done. rewrite Hr.
  by destruct (decide (i ∈ an)), (decide (i ∈ fn)).
Qed.

Lemma getrows_ok inds ks s :
  Np.norm_inds (length (sourcecat s)) inds = Ok ks →
  getrows inds s = (Ok (RecArray sourcecat_dtype (Np.gather (sourcecat s) ks)), s).
Proof. unfold getrows. by intros ->. Qed.

(** A checkout whose draw and selection succeed, run forward. *)
Lemma checkout_region_run seed_index rnd s c radius an fn :
  length (scene_coordinates s) = length (sourcecat s) →
  draw_center s seed_index rnd = Ok c →
  get_circular_scene s (sky_to_scene c.1 c.2) = Ok (Some (radius, an, fn)) →
  checkout_region seed_index rnd s
  = (Ok (Region {| region_ra := c.1; region_dec := c.2;
                   region_radius := (radius / 3600)%Q |}
           (RecArray sourcecat_dtype
              (Np.gather (checkout_cat an fn (sourcecat s)) an))
           (RecArray sourcecat_dtype
              (Np.gather (checkout_cat an fn (sourcecat s)) fn))),
     with_counts (with_sourcecat s (checkout_cat an fn (sourcecat s)))
       (n_active s + Z.of_nat (length an)) (n_fixed s + Z.of_nat (length fn))).
Proof.
  intros Hwf Hc Hsel.
  destruct (selected_rows_range _ _ _ _ _ Hwf Hsel) as [Han Hfn].
  unfold checkout_region, mbind, M_mbind.
  rewrite (bind_ok get _ s s s) by done.
  rewrite (bind_ok _ _ s c s) by (by rewrite Hc).
  rewrite (bind_ok _ _ s (Some (radius, an, fn)) s) by (by rewrite Hsel).
  unfold setitem_scalar.
  erewrite bind_ok; [|apply setitem_ok; by apply norm_inds_of_nat_ok].
  erewrite bind_ok;
    [|apply setitem_ok; cbn; rewrite scatter_length; by apply norm_inds_of_nat_ok].
  erewrite bind_ok;
    [|apply setitem_ok; cbn; rewrite !scatter_length; by apply norm_inds_of_nat_ok].
  erewrite bind_ok; [|reflexivity].
  erewrite bind_ok; [|reflexivity].
  erewrite bind_ok;
    [|apply getrows_ok; cbn; rewrite !scatter_length; by apply norm_inds_of_nat_ok].
  erewrite bind_ok;
    [|apply getrows_ok; cbn; rewrite !scatter_length; by apply norm_inds_of_nat_ok].
  unfold ret, checkout_cat. cbn. rewrite !length_fmap. reflexivity.
Qed.

(** The three ways a checkout can go, by what [draw_center] and
    [get_circular_scene] do. *)
Lemma checkout_region_cases seed_index rnd s :
  length (scene_coordinates s) = length (sourcecat s) →
  (∃ e, draw_center s seed_index rnd = Raise e
        ∧ checkout_region seed_index rnd s = (Raise e, s))
  ∨ (∃ c e, draw_center s seed_index rnd = Ok c
            ∧ get_circular_scene s (sky_to_scene c.1 c.2) = Raise e
            ∧ checkout_region seed_index rnd s = (Raise e, s))
  ∨ (∃ c, draw_center s seed_index rnd = Ok c
          ∧ get_circular_scene s (sky_to_scene c.1 c.2) = Ok None
          ∧ checkout_region seed_index rnd s
            = (Ok (Conflict (sky_to_scene c.1 c.2)), s))
  ∨ (∃ c radius an fn, draw_center s seed_index rnd = Ok c
          ∧ get_circular_scene s (sky_to_scene c.1 c.2) = Ok (Some (radius, an, fn))
          ∧ checkout_region seed_index rnd s
            = (Ok (Region {| region_ra := c.1; region_dec := c.2;
                             region_radius := (radius / 3600)%Q |}
                     (RecArray sourcecat_dtype
                        (Np.gather (checkout_cat an fn (sourcecat s)) an))
                     (RecArray sourcecat_dtype
                        (Np.gather (checkout_cat an fn (sourcecat s)) fn))),
               with_counts (with_sourcecat s (checkout_cat an fn (sourcecat s)))
                 (n_active s + Z.of_nat (length an))
                 (n_fixed s + Z.of_nat (length fn)))).
Proof.
  intros Hwf.
  destruct (draw_center s seed_index rnd) as [c|e] eqn:Hc.
  - destruct (get_circular_scene s (sky_to_scene c.1 c.2))
      as [[[[radius an] fn]|]|e] eqn:Hsel.
    + right. right. right. exists c, radius, an, fn.
      split; [done|]. split; [done|]. by apply checkout_region_run.
    + right. right. left. exists c. split; [done|]. split; [done|].
      unfold checkout_region, mbind, M_mbind.
      rewrite (bind_ok get _ s s s) by done.
      rewrite (bind_ok _ _ s c s) by (by rewrite Hc).
      rewrite (bind_ok _ _ s None s); [done|]. by rewrite Hsel.
    + right. left. exists c, e. split; [done|]. split; [done|].
      unfold checkout_region, mbind, M_mbind.
      rewrite (bind_ok get _ s s s) by done.
      rewrite (bind_ok _ _ s c s) by (by rewrite Hc).
      rewrite (bind_raise _ _ s e s); [done|]. by rewrite Hsel.
  - left. exists e. split; [done|].
    unfold checkout_region, mbind, M_mbind.
    rewrite (bind_ok get _ s s s) by done.
    rewrite (bind_raise _ _ s e s); [done|]. by rewrite Hc.
Qed.

(** A checkout that returns a region has marked exactly the rows of the
    selection: the active rows are active and invalid, the fixed rows
    invalid, every other row and every parameter and counter of every
    row is as before; the occupancy counters have grown by the sizes of
    the two sets, and the rows handed out are copies of the marked rows. *)
Theorem checkout_region_effect seed_index rnd s region a f s' :
  length (scene_coordinates s) = length (sourcecat s) →
  checkout_region seed_index rnd s = (Ok (Region region a f), s') →
  ∃ c radius an fn,
    draw_center s seed_index rnd = Ok c
    ∧ get_circular_scene s (sky_to_scene c.1 c.2) = Ok (Some (radius, an, fn))
    ∧ region = {| region_ra := c.1; region_dec := c.2;
                  region_radius := (radius / 3600)%Q |}
    ∧ (∀ i r, sourcecat s !! i = Some r →
         sourcecat s' !! i = Some (marked an fn i r))
    ∧ n_active s' = (n_active s + Z.of_nat (length an))%Z
    ∧ n_fixed s' = (n_fixed s + Z.of_nat (length fn))%Z
    ∧ recs a = Np.gather (sourcecat s') an
    ∧ recs f = Np.gather (sourcecat s') fn.
Proof.
  intros Hwf Hrun.
  destruct (checkout_region_cases seed_index rnd s Hwf)
    as [(e & _ & He)|[(c & e & _ & _ & He)|[(c & _ & _ & He)
       |(c & radius & an & fn & Hc & Hsel & He)]]];
    rewrite He in Hrun; try discriminate.
  injection Hrun as <- <- <- <-.
  exists c, radius, an, fn. repeat split; try done.
  intros i r Hr. cbn. by apply checkout_cat_row.
Qed.

(** A checkout that raises has not touched the object: the exception is
    that of the draw of the center or of the selection, both of which
    only read. *)
Theorem checkout_region_raise_unchanged seed_index rnd s e s' :
  length (scene_coordinates s) = length (sourcecat s) →
  checkout_region seed_index rnd s = (Raise e, s') →
  s' = s
  ∧ (draw_center s seed_index rnd = Raise e
     ∨ ∃ c, draw_center s seed_index rnd = Ok c
            ∧ get_circular_scene s (sky_to_scene c.1 c.2) = Raise e).
Proof.
  intros Hwf Hrun.
  destruct (checkout_region_cases seed_index rnd s Hwf)
    as [(e' & Hc & He)|[(c & e' & Hc & Hsel & He)|[(c & _ & _ & He)
       |(c & radius & an & fn & _ & _ & He)]]];
    rewrite He in Hrun; try discriminate; injection Hrun as <- <-.
  - split; [done|]. by left.
  - split; [done|]. right. by exists c.
Qed.

Lemma elem_of_fmap_of_nat (l : list nat) i :
  Z.of_nat i ∈ Z.of_nat <$> l ↔ i ∈ l.
Proof.
  split.
  - intros (j & Hj & Hin)%list_elem_of_fmap. by apply Nat2Z.inj in Hj as ->.
  - apply list_elem_of_fmap_2.
Qed.

Lemma fld_written (row r : source) (cs : list string) g :
  fld row g = fld r g →
  default 0%Q (foldl (λ m f, <[f := fld row f]> m) (cols r) cs !! g) = fld r g.
Proof.
  intros Heq. destruct (decide (g ∈ cs)) as [Hin|Hout].
  - by rewrite fld_write.
  - unfold fld at 2. f_equal. revert Hout. generalize (cols r).
    induction cs as [|f cs IH]; intros m Hout; [done|].
    cbn. apply not_elem_of_cons in Hout as [Hne Hout].
    rewrite IH by done. by apply lookup_insert_ne.
Qed.

(** Checkout followed by the checkin of the very rows it handed out:
    the checkin returns, the two occupancy counters are back at their
    values, and every row is as before the checkout except that the
    rows of the region are valid and the active ones count [d] more
    iterations and one more patch. *)
Theorem checkout_checkin_round_trip seed_index rnd s region a f s1 d :
  length (scene_coordinates s) = length (sourcecat s) →
  source_index <$> sourcecat s = Z.of_nat <$> seq 0 (length (sourcecat s)) →
  "source_index" ∈ sourcecat_dtype →
  (∀ g, g ∈ PAR_COLS → g ∈ sourcecat_dtype) →
  checkout_region seed_index rnd s = (Ok (Region region a f), s1) →
  ∃ s2, checkin_region a f d s1 = (Ok tt, s2)
    ∧ n_active s2 = n_active s
    ∧ n_fixed s2 = n_fixed s
    ∧ ∀ i r, sourcecat s !! i = Some r →
        ∃ r2, sourcecat s2 !! i = Some r2
          ∧ source_index r2 = source_index r
          ∧ (∀ g, fld r2 g = fld r g)
          ∧ is_active r2 = is_active r
          ∧ is_valid r2
            = (if decide (Z.of_nat i ∈ ids a ++ ids f) then true else is_valid r)
          ∧ n_iter r2
            = (if decide (Z.of_nat i ∈ ids a) then n_iter r + d else n_iter r)%Z
          ∧ n_patch r2
            = (if decide (Z.of_nat i ∈ ids a) then n_patch r + 1 else n_patch r)%Z.
Proof.
  intros Hwf Hnum Hidx Hpar Hrun.
  destruct (checkout_region_cases seed_index rnd s Hwf)
    as [(e & _ & He)|[(c & e & _ & _ & He)|[(c & _ & _ & He)
       |(c & radius & an & fn & Hc & Hsel & He)]]];
    rewrite He in Hrun; try discriminate.
  injection Hrun as <- <- <- <-.
  set (cat1 := checkout_cat an fn (sourcecat s)).
  destruct (selected_rows_range _ _ _ _ _ Hwf Hsel) as [Han Hfn].
  destruct (get_circular_scene_distinct _ _ _ _ _ Hsel) as [Hnd Hdisj].
  assert (length cat1 = length (sourcecat s)) as Hlen
    by apply checkout_cat_length.
  assert (source_index <$> cat1 = Z.of_nat <$> seq 0 (length cat1)) as Hnum1.
  { rewrite Hlen, <- Hnum. unfold cat1, checkout_cat.
    by rewrite !(scatter_preserves source_index). }
  assert (source_index <$> Np.gather cat1 an = Z.of_nat <$> an) as Hida
    by (apply gather_ids; [done|by rewrite Hlen]).
  assert (source_index <$> Np.gather cat1 fn = Z.of_nat <$> fn) as Hidf
    by (apply gather_ids; [done|by rewrite Hlen]).
  eexists. split.
  { apply (checkin_region_ok _ _ d _ an fn); cbn; try done.
    - rewrite Hida, Hlen. by apply norm_inds_of_nat_ok.
    - rewrite Hidf, Hlen. by apply norm_inds_of_nat_ok. }
  cbn. unfold Np.gather at 1 2. rewrite !length_fmap.
  split; [lia|]. split; [lia|].
  intros i r Hr. unfold ids. cbn [recs]. rewrite Hida, Hidf.
  pose proof (checkout_cat_row an fn _ i r Hr) as Hr1. fold cat1 in Hr1.
  destruct (decide (i ∈ an)) as [Ha|Ha].
  - apply list_elem_of_lookup_1 in Ha as [j Hj].
    assert (i ∈ an) as Ha by (by eapply list_elem_of_lookup_2).
    eexists. split.
    { eapply (checkin_cat_active _ an fn d cat1 j i); try done.
      - by apply Hdisj.
      - cbn. apply (gather_lookup _ _ _ _ _ Hj Hr1). }
    destruct (selected_rows_inactive _ _ _ _ _ Hwf Hsel i) as (r' & Hr' & Hina).
    { apply elem_of_app. by left. }
    rewrite Hr in Hr'. injection Hr' as <-.
    unfold marked. rewrite (decide_True (P := i ∈ an)) by done.
    rewrite (decide_True (P := Z.of_nat i ∈ _ ++ _))
      by (apply elem_of_app; left; by apply elem_of_fmap_of_nat).
    rewrite !(decide_True (P := Z.of_nat i ∈ Z.of_nat <$> an))
      by (by apply elem_of_fmap_of_nat).
    cbn. repeat split; try done.
    intros g. unfold fld at 1. cbn. by apply fld_written.
  - assert (Z.of_nat i ∉ Z.of_nat <$> an) as Ha'
      by (by rewrite elem_of_fmap_of_nat).
    rewrite !(decide_False (P := Z.of_nat i ∈ Z.of_nat <$> an)) by done.
    destruct (decide (i ∈ fn)) as [Hf|Hf].
    + eexists. split.
      { rewrite checkin_cat_fixed by done. by rewrite Hr1. }
      unfold marked. rewrite (decide_False (P := i ∈ an)) by done.
      rewrite (decide_True (P := i ∈ fn)) by done.
      rewrite (decide_True (P := Z.of_nat i ∈ _ ++ _))
        by (apply elem_of_app; right; by apply elem_of_fmap_of_nat).
      by repeat split.
    + eexists. split.
      { rewrite checkin_cat_other by done. exact Hr1. }
      unfold marked. rewrite (decide_False (P := i ∈ an)) by done.
      rewrite (decide_False (P := i ∈ fn)) by done.
      rewrite (decide_False (P := Z.of_nat i ∈ _ ++ _)).
      * by repeat split.
      * intros [Hx|Hx]%elem_of_app; by apply elem_of_fmap_of_nat in Hx.
Qed.

End CheckoutFacts.


(** ** Activity and occupancy along a run *)
Section ActivityFacts.
Import Scene.
Context `{Imports} `{Np.Library}.

Lemma total_app g out h : total g (out ++ [h]) = (total g out + Z.of_nat (g h))%Z.
Proof.
  unfold total. induction out as [|h' out IH]; cbn; [lia|]. rewrite IH. lia.
Qed.

Lemma total_delete g (out : list held) j h :
  out !! j = Some h → total g (delete j out) = (total g out - Z.of_nat (g h))%Z.
Proof.
  unfold total. revert j. induction out as [|h' out IH]; intros j Hj; [done|].
  destruct j as [|j]; cbn in Hj.
  - injection Hj as ->. cbn. lia.
  - change (delete (S j) (h' :: out)) with (h' :: delete j out).
    cbn [foldr]. rewrite (IH j Hj). lia.
Qed.

(** A checkin that returns, with the whole state it leaves. *)
Lemma checkin_region_ok_inv_full active fixed d s u s' ka kf :
  checkin_region active fixed d s = (Ok u, s') →
  Np.norm_inds (length (sourcecat s)) (ids active) = Ok ka →
  Np.norm_inds (length (sourcecat s)) (ids fixed) = Ok kf →
  s' = with_counts (with_sourcecat s (checkin_cat active ka kf d (sourcecat s)))
         (n_active s + - Z.of_nat (length (recs active)))
         (n_fixed s + - Z.of_nat (length (recs fixed))).
Proof.
  intros Hrun Hka Hkf.
  destruct (decide ("source_index" ∈ names active)) as [Ha|Ha]; last first.
  { rewrite checkin_region_no_index in Hrun by (by left). discriminate. }
  destruct (decide ("source_index" ∈ names fixed)) as [Hf|Hf]; last first.
  { rewrite checkin_region_no_index in Hrun by (by right). discriminate. }
  destruct (decide (Forall (λ f, f ∈ names active) PAR_COLS)) as [Hc|Hc].
  - rewrite (checkin_region_ok active fixed d s ka kf) in Hrun; try done.
    + by injection Hrun as _ <-.
    + by apply Forall_forall.
  - exfalso.
    destruct (for_each_cols_raise active (ids active) ka PAR_COLS s Hc Hka)
      as [s1 Hs1].
    revert Hrun. unfold checkin_region, mbind, M_mbind, getitem_index.
    rewrite !decide_True by done.
    rewrite (bind_ok _ _ s _ s) by done.
    rewrite (bind_ok _ _ s _ s) by done.
    by erewrite bind_raise.
Qed.

Lemma checkin_cat_is_active active ka kf d cat i r :
  cat !! i = Some r →
  ∃ r', checkin_cat active ka kf d cat !! i = Some r'
        ∧ is_active r' = if decide (i ∈ ka) then false else is_active r.
Proof.
  intros Hr. unfold checkin_cat. cbv zeta.
  set (c1 := write_cols active ka PAR_COLS cat).
  set (c2 := Np.scatter set_n_iter ka _ c1).
  set (c3 := Np.scatter set_is_active ka _ c2).
  assert (is_active <$> c2 = is_active <$> cat) as H2.
  { unfold c2, c1. rewrite (scatter_preserves is_active) by done.
    by apply write_cols_preserves. }
  assert (∃ r2, c2 !! i = Some r2 ∧ is_active r2 = is_active r) as (r2 & Hr2 & Ha2).
  { pose proof (f_equal (λ l, l !! i) H2) as Hi. cbn in Hi.
    rewrite !list_lookup_fmap, Hr in Hi.
    destruct (c2 !! i) as [r2|]; [|discriminate].
    exists r2. split; [done|]. cbn in Hi. congruence. }
  assert (c3 !! i = Some (if decide (i ∈ ka) then set_is_active false r2 else r2))
    as Hr3.
  { unfold c3. rewrite scatter_scalar_lookup by done. rewrite Hr2.
    by destruct (decide (i ∈ ka)). }
  set (c6 := Np.scatter set_is_valid kf _ _).
  assert (is_active <$> c6 = is_active <$> c3) as H6.
  { unfold c6. by rewrite !(scatter_preserves is_active). }
  pose proof (f_equal (λ l, l !! i) H6) as Hi. cbn in Hi.
  rewrite !list_lookup_fmap, Hr3 in Hi.
  destruct (c6 !! i) as [r6|]; [|discriminate].
  exists r6. split; [done|]. cbn in Hi. injection Hi as ->.
  destruct (decide (i ∈ ka)); [done|]. done.
Qed.

Lemma track_keeps_activity s0 c st st' :
  activity_inv s0 st → track c st = Some st' → activity_inv s0 st'.
Proof.
  destruct st as [s out].
  intros (Hwf & Hnum & Hrange & Hact & Hnd & Hdisj & Hna & Hnf) Htrack.
  cbn [fst snd] in *. destruct c as [seed_index rnd|j a f d]; cbn in Htrack.
  - destruct (checkout_region_cases seed_index rnd s Hwf)
      as [(e & _ & He)|[(c & e & _ & _ & He)|[(c & _ & _ & He)
         |(c & radius & an & fn & Hc & Hsel & He)]]];
      rewrite He in Htrack; try discriminate; injection Htrack as <-.
    { exact (conj Hwf (conj Hnum (conj Hrange (conj Hact (conj Hnd
               (conj Hdisj (conj Hna Hnf))))))). }
    unfold activity_inv.
    set (cat1 := checkout_cat an fn (sourcecat s)).
    destruct (selected_rows_range _ _ _ _ _ Hwf Hsel) as [Han Hfn].
    destruct (get_circular_scene_distinct _ _ _ _ _ Hsel) as [Hndan _].
    assert (length cat1 = length (sourcecat s)) as Hlen
      by apply checkout_cat_length.
    assert (source_index <$> cat1 = Z.of_nat <$> seq 0 (length cat1)) as Hnum1.
    { rewrite Hlen, <- Hnum. unfold cat1, checkout_cat.
      by rewrite !(scatter_preserves source_index). }
    unfold ids. cbn [recs fst snd sourcecat with_counts with_sourcecat
                     scene_coordinates n_active n_fixed].
    fold cat1.
    rewrite (gather_ids cat1 an Hnum1) by (by rewrite Hlen).
    rewrite (gather_ids cat1 fn Hnum1) by (by rewrite Hlen).
    assert (∀ i, i ∈ an → ∀ h, h ∈ out → Z.of_nat i ∉ h.1) as Hfresh.
    { intros i Hi h Hh Hk.
      destruct (selected_rows_inactive _ _ _ _ _ Hwf Hsel i) as (r & Hr & Hina).
      { apply elem_of_app. by left. }
      assert (is_active r = true) as Htrue by (apply (Hact i r Hr); eauto).
      congruence. }
    split; [by rewrite Hlen|]. split; [done|]. split; [|split; [|split; [|split]]].
    + intros h k [Hh|Hh]%elem_of_app Hk.
      { rewrite Hlen. by eapply Hrange. }
      apply list_elem_of_singleton in Hh as ->.
      unfold held_ids in Hk. cbn in Hk. rewrite Hlen.
      apply elem_of_app in Hk as [Hk|Hk];
        apply list_elem_of_fmap in Hk as (i & -> & Hi).
      * rewrite Forall_forall in Han. specialize (Han i Hi). lia.
      * rewrite Forall_forall in Hfn. specialize (Hfn i Hi). lia.
    + intros i r1 Hr1.
      destruct (lookup_lt_is_Some_2 (sourcecat s) i) as [r Hr].
      { rewrite <- Hlen. by eapply lookup_lt_Some. }
      pose proof (checkout_cat_row an fn _ i r Hr) as Hrow. fold cat1 in Hrow.
      rewrite Hr1 in Hrow. injection Hrow as ->.
      unfold marked. destruct (decide (i ∈ an)) as [Hi|Hi].
      * split; [intros _|done].
        exists (Z.of_nat <$> an, Z.of_nat <$> fn). split.
        -- apply elem_of_app. right. constructor.
        -- cbn. by apply elem_of_fmap_of_nat.
      * assert (is_active (if decide (i ∈ fn) then set_is_valid false r else r)
                = is_active r) as -> by (by destruct (decide (i ∈ fn))).
        rewrite (Hact i r Hr). split.
        -- intros (h & Hh & Hk). exists h. split; [|done].
           apply elem_of_app. by left.
        -- intros (h & [Hh|Hh]%elem_of_app & Hk); [by exists h|].
           apply list_elem_of_singleton in Hh as ->. cbn in Hk.
           by apply elem_of_fmap_of_nat in Hk.
    + intros h [Hh|Hh]%elem_of_app; [by apply Hnd|].
      apply list_elem_of_singleton in Hh as ->. cbn.
      apply NoDup_fmap_2; [apply Nat2Z.inj'|done].
    + intros j1 j2 h1 h2 k Hj1 Hj2 Hne Hk1 Hk2.
      apply lookup_app_Some in Hj1 as [Hj1|[Hl1 Hj1]];
        apply lookup_app_Some in Hj2 as [Hj2|[Hl2 Hj2]].
      * by apply (Hdisj j1 j2 h1 h2 k).
      * apply list_lookup_singleton_Some in Hj2 as [_ <-]. cbn in Hk2.
        apply list_elem_of_fmap in Hk2 as (i & -> & Hi).
        apply (Hfresh i Hi h1); [by eapply list_elem_of_lookup_2|done].
      * apply list_lookup_singleton_Some in Hj1 as [_ <-]. cbn in Hk1.
        apply list_elem_of_fmap in Hk1 as (i & -> & Hi).
        apply (Hfresh i Hi h2); [by eapply list_elem_of_lookup_2|done].
      * apply list_lookup_singleton_Some in Hj1 as [Hz1 _].
        apply list_lookup_singleton_Some in Hj2 as [Hz2 _]. lia.
    + rewrite !total_app. cbn [fst snd]. rewrite !length_fmap. lia.
  - destruct (out !! j) as [h|] eqn:Hj; [|discriminate].
    destruct (checkin_region a f d s) as [[u|e] s1] eqn:Hrun; [|discriminate].
    destruct (bool_decide (ids a = h.1 ∧ ids f = h.2)) eqn:Hids; [|discriminate].
    injection Htrack as <-. apply bool_decide_eq_true in Hids as [Hida Hidf].
    assert (h ∈ out) as Hh by (by eapply list_elem_of_lookup_2).
    assert (Forall (λ k, 0 ≤ k < Z.of_nat (length (sourcecat s)))%Z (ids a)) as Hra.
    { apply Forall_forall. intros k Hk. apply (Hrange h k Hh).
      unfold held_ids. rewrite <- Hida. apply elem_of_app. by left. }
    assert (Forall (λ k, 0 ≤ k < Z.of_nat (length (sourcecat s)))%Z (ids f)) as Hrf.
    { apply Forall_forall. intros k Hk. apply (Hrange h k Hh).
      unfold held_ids. rewrite <- Hidf. apply elem_of_app. by right. }
    pose proof (checkin_region_ok_inv_full a f d s u s1 _ _ Hrun
                  (norm_inds_nonneg _ _ Hra) (norm_inds_nonneg _ _ Hrf)) as ->.
    unfold activity_inv.
    cbn [fst snd sourcecat with_counts with_sourcecat
         scene_coordinates n_active n_fixed].
    set (ka := Z.to_nat <$> ids a). set (kf := Z.to_nat <$> ids f).
    assert (length (checkin_cat a ka kf d (sourcecat s)) = length (sourcecat s))
      as Hlen by apply checkin_cat_length.
    assert (∀ i, i ∈ ka ↔ Z.of_nat i ∈ h.1) as Hmem.
    { intros i. rewrite <- Hida. unfold ka.
      rewrite Forall_forall in Hra. split.
      - intros (k & -> & Hk)%list_elem_of_fmap.
        rewrite Z2Nat.id; [done|]. specialize (Hra k Hk). lia.
      - intros Hi. apply list_elem_of_fmap. exists (Z.of_nat i).
        split; [lia|done]. }
    split; [by rewrite Hlen|]. split; [|split; [|split; [|split; [|split; [|split]]]]].
    + rewrite Hlen, <- Hnum.
      apply list_eq. intros i. rewrite !list_lookup_fmap.
      destruct (sourcecat s !! i) as [r|] eqn:Hr.
      * destruct (checkin_cat_lookup a ka kf d _ i r Hr) as (r' & -> & Hsi & _).
        cbn. by rewrite Hsi.
      * apply lookup_ge_None in Hr.
        rewrite (proj2 (lookup_ge_None _ _)); [done|]. by rewrite Hlen.
    + intros h' k Hh' Hk. rewrite Hlen. apply (Hrange h' k); [|done].
      apply elem_of_delete_iff in Hh' as (j' & _ & Hj').
      by eapply list_elem_of_lookup_2.
    + intros i r1 Hr1.
      destruct (lookup_lt_is_Some_2 (sourcecat s) i) as [r Hr].
      { rewrite <- Hlen. by eapply lookup_lt_Some. }
      destruct (checkin_cat_is_active a ka kf d _ i r Hr) as (r' & Hr' & Hv).
      rewrite Hr1 in Hr'. injection Hr' as <-. rewrite Hv.
      destruct (decide (i ∈ ka)) as [Hin|Hout].
      * split; [discriminate|].
        intros (h' & Hh' & Hk). exfalso.
        apply elem_of_delete_iff in Hh' as (j' & Hne & Hj').
        apply (Hdisj j' j h' h (Z.of_nat i)); try done. by apply Hmem.
      * rewrite (Hact i r Hr). split.
        -- intros (h' & Hh' & Hk).
           apply list_elem_of_lookup_1 in Hh' as [j' Hj'].
           exists h'. split; [|done]. apply elem_of_delete_iff.
           exists j'. split; [|done]. intros Heq. subst j'.
           assert (Some h = Some h') as [= <-]
             by (etrans; [symmetry; exact Hj | exact Hj']).
           by apply Hout, Hmem.
        -- intros (h' & Hh' & Hk). exists h'. split; [|done].
           apply elem_of_delete_iff in Hh' as (j' & _ & Hj').
           by eapply list_elem_of_lookup_2.
    + intros h' Hh'. apply Hnd.
      apply elem_of_delete_iff in Hh' as (j' & _ & Hj').
      by eapply list_elem_of_lookup_2.
    + intros j1 j2 h1 h2 k Hj1 Hj2 Hne.
      rewrite list_lookup_delete in Hj1. rewrite list_lookup_delete in Hj2.
      eapply Hdisj; [exact Hj1|exact Hj2|].
      repeat case_decide; lia.
    + rewrite (total_delete _ out j h Hj), Hna.
      change (length (recs a)) with (length (recs a)).
      assert (length (recs a) = length h.1) as ->
        by (rewrite <- Hida; unfold ids; by rewrite length_fmap).
      lia.
    + rewrite (total_delete _ out j h Hj), Hnf.
      assert (length (recs f) = length h.2) as ->
        by (rewrite <- Hidf; unfold ids; by rewrite length_fmap).
      lia.
Qed.

Lemma reaches_activity s0 st :
  length (scene_coordinates s0) = length (sourcecat s0) →
  source_index <$> sourcecat s0 = Z.of_nat <$> seq 0 (length (sourcecat s0)) →
  is_active <$> sourcecat s0 = replicate (length (sourcecat s0)) false →
  reaches (s0, []) st → activity_inv s0 st.
Proof.
  intros Hwf Hnum Hina Hreach.
  induction Hreach as [|st c st' Hreach IH Htrack].
  - split; [done|]. split; [done|]. cbn. split; [|split; [|split; [|split; [|split]]]].
    + intros h k Hh. by apply elem_of_nil in Hh.
    + intros i r Hr.
      assert ((is_active <$> sourcecat s0) !! i = Some (is_active r)) as Hi
        by (by rewrite list_lookup_fmap, Hr).
      rewrite Hina in Hi. apply lookup_replicate_1 in Hi as [-> _].
      split; [discriminate|]. intros (h & Hh & _). by apply elem_of_nil in Hh.
    + intros h Hh. by apply elem_of_nil in Hh.
    + intros j1 j2 h1 h2 k Hj1. by rewrite lookup_nil in Hj1.
    + lia.
    + lia.
  - by eapply track_keeps_activity.
Qed.

(** Along any run of returning checkouts and checkins (each checkin
    giving back an outstanding region) from a catalog with no active
    row, a row is active exactly when an outstanding region holds it as
    active, and no index is active in two outstanding regions: the
    conflict check alone keeps the active sets apart. *)
Theorem active_rows_are_held s0 st :
  length (scene_coordinates s0) = length (sourcecat s0) →
  source_index <$> sourcecat s0 = Z.of_nat <$> seq 0 (length (sourcecat s0)) →
  is_active <$> sourcecat s0 = replicate (length (sourcecat s0)) false →
  reaches (s0, []) st →
  (∀ i r, sourcecat st.1 !! i = Some r →
     (is_active r = true ↔ ∃ h, h ∈ st.2 ∧ Z.of_nat i ∈ h.1))
  ∧ (∀ j1 j2 h1 h2 k, st.2 !! j1 = Some h1 → st.2 !! j2 = Some h2 → j1 ≠ j2 →
       k ∈ h1.1 → k ∉ h2.1).
Proof.
  intros Hwf Hnum Hina Hreach.
  by destruct (reaches_activity s0 st Hwf Hnum Hina Hreach)
    as (_ & _ & _ & Hact & _ & Hdisj & _).
Qed.

(** Along such a run the occupancy counters count what is outstanding:
    [n_active] has grown by the number of active rows held by the
    outstanding regions and [n_fixed] by the number of their fixed rows. *)
Theorem occupancy_counters_count_held s0 st :
  length (scene_coordinates s0) = length (sourcecat s0) →
  source_index <$> sourcecat s0 = Z.of_nat <$> seq 0 (length (sourcecat s0)) →
  is_active <$> sourcecat s0 = replicate (length (sourcecat s0)) false →
  reaches (s0, []) st →
  n_active st.1 = (n_active s0 + total (λ h, length h.1) st.2)%Z
  ∧ n_fixed st.1 = (n_fixed s0 + total (λ h, length h.2) st.2)%Z.
Proof.
  intros Hwf Hnum Hina Hreach.
  by destruct (reaches_activity s0 st Hwf Hnum Hina Hreach)
    as (_ & _ & _ & _ & _ & _ & Hna & Hnf).
Qed.

End ActivityFacts.


(** ** Polling, capacity and shutdown of the queue *)
Section QueueMore.
Import Queue.
Context `{Comm}.

Lemma scan_none t i l t1 :
  scan t i l = inr t1 →
  t1 = (t + length l)%nat
  ∧ ∀ j c r, l !! j = Some (c, r) → Iprobe (t + j) c = false.
Proof.
  revert t i. induction l as [|[c0 r0] l IH]; intros t i; cbn.
  - intros [= <-]. split; [lia|]. intros j c r Hj. by rewrite lookup_nil in Hj.
  - destruct (Iprobe t c0) eqn:Hp; [discriminate|].
    intros Hs. apply IH in Hs as [-> Hall]. split; [lia|].
    intros [|j] c r Hj; cbn in Hj.
    + injection Hj as <- <-. by rewrite Nat.add_0_r.
    + replace (t + S j)%nat with (S t + j)%nat by lia. by apply (Hall j c r).
Qed.

Lemma scan_silent t i l :
  (∀ t' c r, (t ≤ t')%nat → (c, r) ∈ l → Iprobe t' c = false) →
  scan t i l = inr (t + length l)%nat.
Proof.
  revert t i. induction l as [|[c0 r0] l IH]; intros t i Hno; cbn.
  - f_equal. lia.
  - rewrite (Hno t c0 r0) by (done || by left).
    rewrite IH; [f_equal; lia|].
    intros t' c r Ht Hin. apply (Hno t' c r); [lia|by right].
Qed.

(** As long as no busy worker has a result, [collect_one] keeps polling:
    no number of passes makes it return.  With an empty [busy] list the
    loop never ends. *)
Theorem collect_one_polls_without_result fuel t q :
  (∀ t' c r, (t ≤ t')%nat → (c, r) ∈ busy q → Iprobe t' c = false) →
  collect_one fuel t q = None.
Proof.
  revert t. induction fuel as [|fuel IH]; intros t Hno; [done|].
  cbn. rewrite (scan_silent t 0 (busy q)) by done.
  apply IH. intros t' c r Ht. apply Hno. lia.
Qed.

(** What a returning [collect_one] has done: it has probed the busy
    workers round-robin in list order, one probe per clock tick, every
    probe before the last has answered False, the last one has answered
    True, and the value, the popped entry and the new idle worker are
    those of that last probe. *)
Theorem collect_one_round_robin fuel t q v q' t' :
  collect_one fuel t q = Some (v, q', t') →
  ∃ i c r,
    (t < t')%nat
    ∧ i = ((t' - 1 - t) mod length (busy q))%nat
    ∧ busy q !! i = Some (c, r)
    ∧ Iprobe (t' - 1) c = true
    ∧ (∀ m, (t ≤ m < t' - 1)%nat →
         ∃ c' r', busy q !! ((m - t) mod length (busy q))%nat = Some (c', r')
                  ∧ Iprobe m c' = false)
    ∧ v = PTuple (PTuple (PInt (Z.of_nat c)) (PReq r)) (PMsg (recv (t' - 1) c))
    ∧ busy q' = delete i (busy q)
    ∧ idle q' = idle q ++ [c]
    ∧ n_children q' = n_children q
    ∧ parent q' = parent q.
Proof.
  revert t. induction fuel as [|fuel IH]; intros t; cbn; [discriminate|].
  destruct (scan t 0 (busy q)) as [[[i [c r]] t1]|t1] eqn:Hs.
  - intros [= <- <- <-].
    apply scan_found in Hs as (j & -> & -> & Hj & Hp & Hfirst).
    pose proof (lookup_lt_Some _ _ _ Hj) as Hlt.
    exists j, c, r. cbn.
    replace (t + j - 0 - t)%nat with j by lia.
    replace (t + j - 0)%nat with (t + j)%nat by lia.
    rewrite (Nat.mod_small j) by done.
    split; [lia|]. split; [done|]. split; [done|]. split; [done|].
    split; [|done].
    intros m Hm. replace ((m - t) mod length (busy q))%nat with (m - t)%nat
      by (symmetry; apply Nat.mod_small; lia).
    destruct (lookup_lt_is_Some_2 (busy q) (m - t)) as [[c' r'] Hm']; [lia|].
    exists c', r'. split; [done|].
    replace m with (t + (m - t))%nat at 1 by lia.
    apply (Hfirst (m - t)%nat c' r'); [lia|done].
  - intros Hc. apply scan_none in Hs as [-> Hall].
    apply IH in Hc as (i & c & r & Hlt & Hi & Hbi & Hp & Hfirst & Hrest).
    pose proof (lookup_lt_Some _ _ _ Hbi) as Hlen.
    set (n := length (busy q)) in *.
    assert (n ≠ 0)%nat as Hn by lia.
    exists i, c, r. split; [lia|]. split.
    { rewrite Hi.
      replace (t' - 1 - t)%nat with ((t' - 1 - (t + n)) + 1 * n)%nat by lia.
      by rewrite Nat.Div0.mod_add. }
    split; [done|]. split; [done|]. split; [|done].
    intros m Hm. destruct (decide (m < t + n)%nat) as [Hm1|Hm1].
    + rewrite (Nat.mod_small (m - t)) by lia.
      destruct (lookup_lt_is_Some_2 (busy q) (m - t)) as [[c' r'] Hm'];
        [fold n; lia|].
      exists c', r'. split; [done|].
      replace m with (t + (m - t))%nat at 1 by lia.
      by apply (Hall (m - t)%nat c' r').
    + destruct (Hfirst m) as (c' & r' & Hm' & Hp'); [lia|].
      exists c', r'. split; [|done].
      replace (m - t)%nat with ((m - (t + n)) + 1 * n)%nat by lia.
      by rewrite Nat.Div0.mod_add.
Qed.

Lemma run_n_children cs t q q' t' :
  run cs t q = Some (q', t') → n_children q' = n_children q.
Proof.
  revert t q. induction cs as [|[tk tag|fuel] cs IH]; intros t q; cbn.
  - by intros [= <- <-].
  - unfold submit. destruct (idle q) as [|c idle']; [discriminate|].
    intros Hrun. by rewrite (IH _ _ Hrun).
  - destruct (collect_one fuel t q) as [[[v q1] t1]|] eqn:Hc; [|discriminate].
    intros Hrun. rewrite (IH _ _ Hrun).
    clear Hrun IH. revert t Hc. induction fuel as [|fuel IH]; intros t; cbn;
      [discriminate|].
    destruct (scan t 0 (busy q)) as [[[i [c r]] t2]|t2]; [|by apply IH].
    by intros [= <- <- <-].
Qed.

(** The capacity of the queue.  After any sequence of returning calls on
    a fresh queue the idle and the busy workers number [n_children], and
    [submit] raises [IndexError], leaving the queue as it is, exactly when
    all [n_children] workers are busy. *)
Theorem submit_raises_iff_all_busy n cs t q t' tk tag :
  run cs t (init n) = Some (q, t') →
  (length (idle q) + length (busy q))%nat = Z.to_nat n
  ∧ (submit tk tag q = (Raise IndexError, q)
     ↔ length (busy q) = Z.to_nat n)
  ∧ ((∃ child q1, submit tk tag q = (Ok child, q1))
     ↔ (length (busy q) < Z.to_nat n)%nat).
Proof.
  intros Hrun. apply run_workers in Hrun.
  assert (length (idle q) + length (busy q) = Z.to_nat n)%nat as Hlen.
  { apply Permutation_length in Hrun. unfold workers, init in Hrun. cbn in Hrun.
    rewrite app_nil_r in Hrun. unfold Py.range1 in Hrun.
    by rewrite length_app, length_fmap, length_seq in Hrun. }
  split; [done|]. unfold submit.
  destruct (idle q) as [|c idle'] eqn:Hidle; cbn in Hlen.
  - split; [split; [lia|done]|]. split; [|lia].
    by intros (child & q1 & [=]).
  - split; [split; [discriminate|lia]|]. split; [lia|]. eauto.
Qed.

(** [closeout] sends one kill message to every worker that the queue
    holds, idle or busy: results of busy workers are not collected
    first. *)
Theorem closeout_reaches_every_worker n cs t q t' :
  run cs t (init n) = Some (q, t') →
  fst <$> closeout q ≡ₚ workers q
  ∧ NoDup (fst <$> closeout q)
  ∧ snd <$> closeout q = replicate (length (workers q)) 0%Z.
Proof.
  intros Hrun. pose proof (run_n_children _ _ _ _ _ Hrun) as Hn. cbn in Hn.
  apply run_workers in Hrun.
  assert (workers (init n) = Py.range1 (Z.to_nat n)) as Hinit.
  { unfold workers, init. cbn. by rewrite app_nil_r. }
  rewrite Hinit in Hrun.
  assert (fst <$> closeout q = Py.range1 (Z.to_nat n)) as Hfst.
  { unfold closeout. rewrite Hn, <- list_fmap_compose.
    rewrite <- (list_fmap_id (Py.range1 _)) at 2. by apply list_fmap_ext. }
  split; [by rewrite Hfst, Hrun|]. split; [rewrite Hfst; apply NoDup_seq|].
  rewrite (Permutation_length Hrun). unfold closeout. rewrite Hn.
  rewrite <- list_fmap_compose. unfold Py.range1. rewrite length_seq.
  clear. generalize 1%nat, (Z.to_nat n). intros a m. revert a.
  induction m as [|m IH]; intros a; [done|].
  cbn. f_equal. apply IH.
Qed.

Lemma run_submits (tks : list (task * Z)) t q :
  (length tks ≤ length (idle q))%nat →
  ∃ q', run (submits tks) t q = Some (q', t)
        ∧ idle q' = drop (length tks) (idle q)
        ∧ fst <$> busy q' = (fst <$> busy q) ++ take (length tks) (idle q)
        ∧ snd <$> busy q'
          = (snd <$> busy q)
            ++ zip_with (λ x child, isend x.1 child x.2) tks (idle q).
Proof.
  revert q. induction tks as [|[tk tag] tks IH]; intros q Hlen.
  - exists q. cbn. by rewrite drop_0, !app_nil_r.
  - cbn in Hlen. cbn [submits fmap list_fmap run]. unfold submit. cbn [fst snd].
    destruct (idle q) as [|c idle'] eqn:Hidle; [cbn in Hlen; lia|].
    cbn in Hlen.
    destruct (IH {| busy := busy q ++ [(c, isend tk c tag)]; idle := idle';
                    n_children := n_children q; parent := parent q |})
      as (q' & Hrun & Hi & Hb & Hr); [cbn; lia|].
    exists q'. split; [exact Hrun|]. cbn in Hi, Hb, Hr.
    split; [done|]. rewrite Hb, Hr, !fmap_app. cbn.
    by rewrite <- !app_assoc.
Qed.

(** On a fresh queue the tasks go to the workers 1, 2, 3, ... in the
    order of submission: submitting no more tasks than there are workers
    always returns, and the k-th task is sent to worker k. *)
Theorem fresh_queue_assigns_in_order n (tks : list (task * Z)) t :
  (length tks ≤ Z.to_nat n)%nat →
  ∃ q, run (submits tks) t (init n) = Some (q, t)
       ∧ busy q = zip_with (λ x child, (child, isend x.1 child x.2)) tks
                    (seq 1 (length tks))
       ∧ idle q = seq (S (length tks)) (Z.to_nat n - length tks).
Proof.
  intros Hlen.
  destruct (run_submits tks t (init n)) as (q & Hrun & Hi & Hb & Hr).
  { cbn. unfold Py.range1. by rewrite length_seq. }
  exists q. split; [done|]. cbn in Hi, Hb, Hr. unfold Py.range1 in *.
  split; [|by rewrite Hi, drop_seq].
  rewrite take_seq, Nat.min_l in Hb by done.
  apply (list_eq_same_length _ _ (length tks)).
  - rewrite length_zip_with, length_seq. lia.
  - rewrite <- (length_fmap fst), Hb. by rewrite length_seq.
  - intros i [c r] [c' r'] Hlt Hq Hz.
    assert ((fst <$> busy q) !! i = Some c) as Hc
      by (by rewrite list_lookup_fmap, Hq).
    assert ((snd <$> busy q) !! i = Some r) as Hreq
      by (by rewrite list_lookup_fmap, Hq).
    rewrite Hb in Hc. rewrite Hr in Hreq.
    apply lookup_zip_with_Some in Hz as (x & child & [= -> ->] & Hx & Hchild).
    apply lookup_zip_with_Some in Hreq as (x' & child' & -> & Hx' & Hchild').
    rewrite Hx in Hx'. injection Hx' as <-.
    rewrite lookup_seq in Hc, Hchild, Hchild'.
    destruct Hc as [-> _], Hchild as [-> _], Hchild' as [-> _]. done.
Qed.

End QueueMore.

(** ** The draw of the center *)
Section DrawFacts.
Import Scene.
Context `{Imports} `{Np.Library}.

Lemma random_choice_nan n m rnd :
  random_choice n (replicate (S m) F64.nan) rnd = Raise ValueError.
Proof.
  unfold random_choice.
  destruct (Np.np_choice_valid (replicate (S m) F64.nan)) eqn:Hv;
    [|by rewrite andb_false_r].
  apply Np.np_choice_numbers in Hv. apply Forall_cons in Hv as [Hv _].
  discriminate.
Qed.

Lemma norm_index_cases n k :
  ((0 ≤ k < Z.of_nat n)%Z ∧ Py.norm_index n k = Ok (Z.to_nat k))
  ∨ ((- Z.of_nat n ≤ k < 0)%Z
     ∧ Py.norm_index n k = Ok (Z.to_nat (k + Z.of_nat n)))
  ∨ ((k < - Z.of_nat n ∨ Z.of_nat n ≤ k)%Z
     ∧ Py.norm_index n k = Raise IndexError).
Proof.
  unfold Py.norm_index.
  destruct (Z.leb_spec 0 k), (Z.ltb_spec k (Z.of_nat n)),
    (Z.leb_spec (- Z.of_nat n) k), (Z.ltb_spec k 0); cbn;
    first [left; split; [lia|done]
          |right; left; split; [lia|done]
          |right; right; split; [lia|done]].
Qed.

(** An explicit non-zero seed index addresses the catalog as Python
    indexes a sequence: it raises [IndexError] exactly when it lies
    outside [-n, n), and a negative index in range counts rows from the
    end of the catalog. *)
Theorem draw_center_seed_index_range s k rnd :
  k ≠ 0%Z →
  (draw_center s (Some k) rnd = Raise IndexError
   ↔ (k < - Z.of_nat (length (sourcecat s))
      ∨ Z.of_nat (length (sourcecat s)) ≤ k)%Z)
  ∧ ((- Z.of_nat (length (sourcecat s)) ≤ k < 0)%Z →
     ∃ r, sourcecat s !! Z.to_nat (k + Z.of_nat (length (sourcecat s))) = Some r
          ∧ draw_center s (Some k) rnd = Ok (fld r "ra", fld r "dec")).
Proof.
  intros Hk. unfold draw_center, seed_given, Py.truthy.
  replace (k =? 0)%Z with false by (symmetry; by apply Z.eqb_neq).
  change (default 0%Z (Some k)) with k.
  cbn [negb]. cbn [mbind res_mbind res_bind].
  destruct (norm_index_cases (length (sourcecat s)) k)
    as [[Hr ->]|[[Hr ->]|[Hr ->]]]; cbn.
  - split; [|lia]. split; [discriminate|lia].
  - split; [split; [discriminate|lia]|]. intros _.
    destruct (lookup_lt_is_Some_2 (sourcecat s)
                (Z.to_nat (k + Z.of_nat (length (sourcecat s))))) as [r Hrow];
      [lia|].
    exists r. split; [done|]. by rewrite (list_lookup_total_correct _ _ _ Hrow).
  - split; [done|lia].
Qed.

(** Without an explicit seed the draw needs an inactive row: on a
    catalog whose rows are all active (or without rows) [draw_center]
    raises [ValueError], and so does [checkout_region], leaving the
    object as it is. *)
Theorem unseeded_draw_needs_inactive_row s seed_index rnd :
  seed_given seed_index = false →
  (∀ r, r ∈ sourcecat s → is_active r = true) →
  draw_center s seed_index rnd = Raise ValueError
  ∧ checkout_region seed_index rnd s = (Raise ValueError, s).
Proof.
  intros Hseed Hall.
  assert (draw_center s seed_index rnd = Raise ValueError) as Hd.
  { unfold draw_center, seed_weight. rewrite Hseed.
    destruct (sourcecat s) as [|r0 cat] eqn:Hcat.
    - unfold exp_weight. by rewrite Hcat.
    - rewrite exp_weight_all_nan; [|by rewrite Hcat|by rewrite Hcat].
      rewrite Hcat. cbn [length replicate mbind res_mbind res_bind].
      by rewrite (random_choice_nan _ (length cat)). }
  split; [done|].
  unfold checkout_region, mbind, M_mbind.
  rewrite (bind_ok _ _ s s s) by done.
  by erewrite bind_raise; [|unfold lift; by rewrite Hd].
Qed.

End DrawFacts.

(** ** Checkins that raise, and repeated rows *)
Section CheckinFailure.
Import Scene.
Context `{Imports} `{Np.Library}.

Lemma raising_bind {A B} (R : SuperScene → SuperScene → Prop) (E : exn → Prop)
    (m : M A) (f : A → M B) :
  (∀ s1 s2 s3, R s1 s2 → R s2 s3 → R s1 s3) →
  keeps R m → raising R E m → (∀ a, raising R E (f a)) →
  raising R E (bind m f).
Proof.
  intros Htrans Hk Hm Hf s e s'. unfold bind.
  specialize (Hk s). destruct (m s) as [[a|e1] s1] eqn:Hms; cbn in Hk.
  - intros Hfa. destruct (Hf a s1 e s' Hfa) as [HR HE].
    split; [by eapply Htrans|done].
  - intros [= <- <-]. by apply (Hm s).
Qed.

Lemma raising_lift {A} (R : SuperScene → SuperScene → Prop) (E : exn → Prop)
    (r : res A) :
  (∀ s, R s s) → (∀ e, r = Raise e → E e) → raising R E (lift r).
Proof.
  intros Hrefl Hr s e s'. unfold lift. intros [= -> <-].
  split; [apply Hrefl|by apply Hr].
Qed.

Lemma raising_for_each {A} (R : SuperScene → SuperScene → Prop) (E : exn → Prop)
    (l : list A) (body : A → M unit) :
  (∀ s1 s2 s3, R s1 s2 → R s2 s3 → R s1 s3) →
  (∀ x, keeps R (body x)) → (∀ x, raising R E (body x)) →
  raising R E (for_each l body).
Proof.
  intros Htrans Hk Hbody. induction l as [|x l IH]; cbn.
  - intros s e s'. unfold ret. discriminate.
  - apply raising_bind; [done|apply Hk|apply Hbody|]. by intros _.
Qed.

Lemma norm_inds_raise n inds e : Np.norm_inds n inds = Raise e → e = IndexError.
Proof.
  induction inds as [|k inds IH]; cbn; [discriminate|].
  destruct (norm_index_cases n k) as [[_ ->]|[[_ ->]|[_ ->]]]; cbn.
  - destruct (Np.norm_inds n inds); cbn; [discriminate|].
    intros [= <-]. by apply IH.
  - destruct (Np.norm_inds n inds); cbn; [discriminate|].
    intros [= <-]. by apply IH.
  - by intros [= <-].
Qed.

Lemma same_occupancy_refl s : same_occupancy s s.
Proof. by split. Qed.

Lemma same_occupancy_trans s1 s2 s3 :
  same_occupancy s1 s2 → same_occupancy s2 s3 → same_occupancy s1 s3.
Proof. intros [? ?] [? ?]. split; congruence. Qed.

Lemma keeps_occupancy_setitem {V} (upd : V → source → source) inds vals :
  keeps same_occupancy (setitem upd inds vals).
Proof. intros s. unfold setitem. by destruct (Np.norm_inds _ inds). Qed.

Lemma keeps_occupancy_iadd (col : source → Z) upd inds d :
  keeps same_occupancy (iadd col upd inds d).
Proof. intros s. unfold iadd. by destruct (Np.norm_inds _ inds). Qed.

Lemma raising_setitem {V} (upd : V → source → source) inds vals :
  raising same_occupancy lookup_error (setitem upd inds vals).
Proof.
  intros s e s'. unfold setitem.
  destruct (Np.norm_inds _ inds) eqn:Hn; [discriminate|].
  intros [= <- <-]. split; [done|]. right. by eapply norm_inds_raise.
Qed.

Lemma raising_iadd (col : source → Z) upd inds d :
  raising same_occupancy lookup_error (iadd col upd inds d).
Proof.
  intros s e s'. unfold iadd.
  destruct (Np.norm_inds _ inds) eqn:Hn; [discriminate|].
  intros [= <- <-]. split; [done|]. right. by eapply norm_inds_raise.
Qed.

Lemma getitem_index_raise a e : getitem_index a = Raise e → lookup_error e.
Proof. unfold getitem_index. destruct (decide _); [discriminate|]. intros [= <-]. by left. Qed.

Lemma getitem_col_raise a f e : getitem_col a f = Raise e → lookup_error e.
Proof. unfold getitem_col. destruct (decide _); [discriminate|]. intros [= <-]. by left. Qed.

Lemma raising_checkin active fixed niter :
  raising same_occupancy lookup_error (checkin_region active fixed niter).
Proof.
  unfold checkin_region, mbind, M_mbind.
  apply raising_bind;
    [apply same_occupancy_trans|apply keeps_lift, same_occupancy_refl
    |apply raising_lift; [apply same_occupancy_refl|apply getitem_index_raise]|].
  intros ai.
  apply raising_bind;
    [apply same_occupancy_trans|apply keeps_lift, same_occupancy_refl
    |apply raising_lift; [apply same_occupancy_refl|apply getitem_index_raise]|].
  intros fi.
  assert (∀ f, keeps same_occupancy
                 (bind (lift (getitem_col active f))
                    (λ vals, setitem (set_col f) ai vals))) as Hkb.
  { intros f. apply keeps_bind;
      [apply same_occupancy_trans|apply keeps_lift, same_occupancy_refl|].
    intros vals. apply keeps_occupancy_setitem. }
  apply raising_bind; [apply same_occupancy_trans| | |intros _].
  { apply keeps_for_each;
      [apply same_occupancy_refl|apply same_occupancy_trans|exact Hkb]. }
  { apply raising_for_each; [apply same_occupancy_trans|exact Hkb|].
    intros f. apply raising_bind;
      [apply same_occupancy_trans|apply keeps_lift, same_occupancy_refl
      |apply raising_lift; [apply same_occupancy_refl|apply getitem_col_raise]|].
    intros vals. apply raising_setitem. }
  apply raising_bind;
    [apply same_occupancy_trans|apply keeps_occupancy_iadd|apply raising_iadd|].
  intros _.
  apply raising_bind;
    [apply same_occupancy_trans|apply keeps_occupancy_setitem
    |apply raising_setitem|].
  intros _.
  apply raising_bind;
    [apply same_occupancy_trans|apply keeps_occupancy_iadd|apply raising_iadd|].
  intros _.
  apply raising_bind;
    [apply same_occupancy_trans|apply keeps_occupancy_setitem
    |apply raising_setitem|].
  intros _.
  apply raising_bind;
    [apply same_occupancy_trans|apply keeps_occupancy_setitem
    |apply raising_setitem|].
  intros _.
  intros s e s'. unfold bind, add_n_active, add_n_fixed. discriminate.
Qed.

(** A checkin that raises has not changed the occupancy counters
    [n_active] and [n_fixed] (they are updated last, whatever was written
    to the rows before), and the exception is the [ValueError] of a
    structured array for a missing field or an [IndexError] for an index
    that addresses no row. *)
Theorem checkin_raise_keeps_occupancy active fixed niter s e s' :
  checkin_region active fixed niter s = (Raise e, s') →
  n_active s' = n_active s ∧ n_fixed s' = n_fixed s
  ∧ (e = ValueError ∨ e = IndexError).
Proof.
  intros Hrun. destruct (raising_checkin active fixed niter s e s' Hrun)
    as [[Hna Hnf] He]. done.
Qed.

Lemma setitem_raise {V} (upd : V → source → source) inds vals e s :
  Np.norm_inds (length (sourcecat s)) inds = Raise e →
  setitem upd inds vals s = (Raise e, s).
Proof. unfold setitem. by intros ->. Qed.

(** A checkin is not atomic.  When the active rows are in order and an
    index of the fixed rows addresses no catalog row, the call raises
    [IndexError] after the active rows have been written back and
    released: they are valid and inactive again with their counters
    increased, while the fixed rows stay invalid and the occupancy
    counters still count the region. *)
Theorem checkin_bad_fixed_index_is_partial s active fixed d ka e :
  "source_index" ∈ names active →
  "source_index" ∈ names fixed →
  (∀ f, f ∈ PAR_COLS → f ∈ names active) →
  Np.norm_inds (length (sourcecat s)) (ids active) = Ok ka →
  Np.norm_inds (length (sourcecat s)) (ids fixed) = Raise e →
  checkin_region active fixed d s
  = (Raise IndexError,
     with_sourcecat s (checkin_cat active ka [] d (sourcecat s))).
Proof.
  intros Hia Hif Hcols Hka Hkf.
  pose proof (norm_inds_raise _ _ _ Hkf) as ->.
  unfold checkin_region, mbind, M_mbind, getitem_index.
  rewrite !decide_True by done.
  rewrite (bind_ok _ _ s _ s) by done.
  rewrite (bind_ok _ _ s _ s) by done.
  erewrite bind_ok; [|by apply for_each_cols_ok].
  erewrite bind_ok;
    [|apply iadd_ok; cbn; by rewrite write_cols_length].
  erewrite bind_ok;
    [|apply setitem_ok; cbn; by rewrite scatter_length, write_cols_length].
  erewrite bind_ok;
    [|apply iadd_ok; cbn; by rewrite !scatter_length, write_cols_length].
  erewrite bind_ok;
    [|apply setitem_ok; cbn; by rewrite !scatter_length, write_cols_length].
  erewrite bind_raise;
    [|apply setitem_raise; cbn; by rewrite !scatter_length, write_cols_length].
  unfold checkin_cat. cbn. rewrite !length_fmap.
  assert (length (recs active) = length ka) as ->
    by (rewrite (norm_inds_length _ _ _ Hka); unfold ids; by rewrite length_fmap).
  rewrite ?with_sourcecat_twice. reflexivity.
Qed.

Lemma lookup_preserved {B} (g : source → B) (c c' : list source) i r :
  g <$> c' = g <$> c → c !! i = Some r →
  ∃ r', c' !! i = Some r' ∧ g r' = g r.
Proof.
  intros Hg Hr. pose proof (f_equal (λ l, l !! i) Hg) as Hi. cbn in Hi.
  rewrite !list_lookup_fmap, Hr in Hi.
  destruct (c' !! i) as [r'|]; [|discriminate].
  exists r'. split; [done|]. cbn in Hi. congruence.
Qed.

(** NumPy's [a[inds] += d] reads before it writes: a catalog row that
    the returned active rows list more than once still gets [d] more
    iterations and one more patch, once, although [n_active] falls by
    the number of listed rows. *)
Theorem checkin_counts_a_listed_row_once s active fixed d ka kf :
  "source_index" ∈ names active →
  "source_index" ∈ names fixed →
  (∀ f, f ∈ PAR_COLS → f ∈ names active) →
  Np.norm_inds (length (sourcecat s)) (ids active) = Ok ka →
  Np.norm_inds (length (sourcecat s)) (ids fixed) = Ok kf →
  ∃ s', checkin_region active fixed d s = (Ok tt, s')
    ∧ (∀ i r, i ∈ ka → sourcecat s !! i = Some r →
         ∃ r', sourcecat s' !! i = Some r'
           ∧ n_iter r' = (n_iter r + d)%Z
           ∧ n_patch r' = (n_patch r + 1)%Z
           ∧ is_active r' = false
           ∧ is_valid r' = true)
    ∧ n_active s' = (n_active s - Z.of_nat (length ka))%Z
    ∧ n_fixed s' = (n_fixed s - Z.of_nat (length kf))%Z.
Proof.
  intros Hia Hif Hcols Hka Hkf.
  eexists. split; [by eapply checkin_region_ok|].
  cbn [sourcecat n_active n_fixed with_counts with_sourcecat].
  split; [|split].
  - intros i r Hi Hr. unfold checkin_cat. cbv zeta.
    set (c1 := write_cols active ka PAR_COLS (sourcecat s)).
    destruct (lookup_preserved (λ r, (n_iter r, n_patch r)) (sourcecat s) c1 i r)
      as (r1 & Hr1 & Hg1); [by apply write_cols_preserves|done|].
    injection Hg1 as Hit1 Hpa1.
    set (c2 := Np.scatter set_n_iter ka _ c1).
    assert (c2 !! i = Some (set_n_iter (n_iter r + d) r1)) as Hr2.
    { unfold c2.
      rewrite (scatter_fmap_lookup set_n_iter (λ k, (n_iter (c1 !!! k) + d)%Z))
        by done.
      rewrite decide_True by done.
      by rewrite (list_lookup_total_correct _ _ _ Hr1), Hr1, Hit1. }
    set (c3 := Np.scatter set_is_active ka _ c2).
    assert (c3 !! i
            = Some (set_is_active false (set_n_iter (n_iter r + d) r1))) as Hr3.
    { unfold c3. rewrite scatter_scalar_lookup by done.
      by rewrite decide_True, Hr2 by done. }
    set (c4 := Np.scatter set_n_patch ka _ c3).
    assert (c4 !! i
            = Some (set_n_patch (n_patch r + 1)
                      (set_is_active false (set_n_iter (n_iter r + d) r1))))
      as Hr4.
    { unfold c4.
      rewrite (scatter_fmap_lookup set_n_patch (λ k, (n_patch (c3 !!! k) + 1)%Z))
        by done.
      rewrite decide_True by done.
      rewrite (list_lookup_total_correct _ _ _ Hr3), Hr3. cbn.
      by rewrite Hpa1. }
    rewrite !scatter_scalar_lookup by done.
    rewrite (decide_True (P := i ∈ ka)) by done. rewrite Hr4.
    destruct (decide (i ∈ kf)); cbn; eexists; (split; [done|]); done.
  - rewrite (norm_inds_length _ _ _ Hka). unfold ids.
    rewrite length_fmap. lia.
  - rewrite (norm_inds_length _ _ _ Hkf). unfold ids.
    rewrite length_fmap. lia.
Qed.

End CheckinFailure.


(** ** When the selection raises *)
Section SelectionFailure.
Import Scene.
Context `{Imports} `{Np.Library}.

Lemma first_false_none_inv (l : list bool) :
  Np.first_false l = None → Forall (λ b, b = true) l.
Proof.
  induction l as [|b l IH]; [constructor|]. cbn.
  destruct b; [|discriminate].
  destruct (Np.first_false l); [discriminate|].
  intros _. constructor; [done|by apply IH].
Qed.

Lemma filter_all_true (l : list bool) :
  Forall (λ b, b = true) l → length (List.filter (λ b : bool, b) l) = length l.
Proof. induction 1 as [|b l -> _ IH]; [done|]. cbn. by rewrite IH. Qed.

Lemma filter_length_le (l : list bool) :
  (length (List.filter (λ b : bool, b) l) ≤ length l)%nat.
Proof. induction l as [|[] l IH]; cbn; lia. Qed.

(** [N_inside] is 0 in two cases: no candidate is inside [maxradius], or
    all of them are. *)
Lemma N_inside_zero_iff s center n :
  candidates s center ≠ [] →
  N_inside s center = Ok n →
  n = 0%nat
  ↔ count_inside s center = 0%nat
    ∨ count_inside s center = length (candidates s center).
Proof.
  intros Hne. unfold N_inside.
  rewrite count_inside_filter, <- sorted_outer_length.
  rewrite <- (length_fmap (λ o, Qlt_bool o (maxradius s)) (sorted_outer s center)).
  pose proof (sorted_outer_monotone s center) as Hmono. revert Hmono.
  assert ((λ o, Qlt_bool o (maxradius s)) <$> sorted_outer s center ≠ []) as Hl.
  { intros E. apply (f_equal length) in E.
    rewrite length_fmap, sorted_outer_length in E. by destruct (candidates s center). }
  revert Hl. generalize ((λ o, Qlt_bool o (maxradius s)) <$> sorted_outer s center).
  intros l Hl Hmono. rewrite argmin_nonempty by done. intros [= <-].
  destruct (Np.first_false l) as [m|] eqn:Hff; cbn.
  - pose proof (first_false_lt l m Hff) as Hlt.
    rewrite <- (first_false_count l m Hmono Hff). split; [by left|].
    intros [?|?]; [done|lia].
  - split; [|done]. intros _. right.
    by apply filter_all_true, first_false_none_inv.
Qed.

Lemma amax_raise_iff (l : list Q) e : Np.amax l = Raise e ↔ l = [] ∧ e = ValueError.
Proof.
  destruct l as [|x l]; cbn.
  - split; [by intros [= <-]|by intros [_ ->]].
  - split; [discriminate|by intros [? _]].
Qed.

Lemma slice_to_nil_iff {A} (k : Z) (l : list A) :
  (0 ≤ k)%Z → l ≠ [] → Py.slice_to k l = [] ↔ k = 0%Z.
Proof.
  intros Hk Hl. unfold Py.slice_to, Py.slice_bound.
  replace (k <? 0)%Z with false by (symmetry; apply Z.ltb_ge; lia).
  destruct l as [|x l]; [done|]. split.
  - destruct (Z.to_nat k) as [|n] eqn:Hn; [lia|discriminate].
  - by intros ->.
Qed.

(** The selection raises in exactly two ways, for a non-negative
    [maxactive].  [IndexError]: no catalog row lies within
    [boundary_radius] of the center.  [ValueError]: there are candidates,
    none of them active, and the active set would be empty, because
    [maxactive] is 0, or no candidate is inside [maxradius], or every
    candidate is. *)
Theorem selection_raises_iff s center :
  (0 ≤ maxactive s)%Z →
  (get_circular_scene s center = Raise IndexError ↔ candidates s center = [])
  ∧ (get_circular_scene s center = Raise ValueError
     ↔ candidates s center ≠ []
       ∧ Np.any (is_active <$> Np.gather (sourcecat s) (candidates s center))
         = false
       ∧ (maxactive s = 0%Z
          ∨ count_inside s center = 0%nat
          ∨ count_inside s center = length (candidates s center)))
  ∧ get_circular_scene s center ≠ Raise KeyError.
Proof.
  intros Hmax. remember (get_circular_scene s center) as g eqn:Hg.
  revert Hg. unfold get_circular_scene.
  change (query_ball_point s center (boundary_radius s)) with (candidates s center).
  destruct (bool_decide (candidates s center = [])) eqn:Hne.
  { apply bool_decide_eq_true in Hne. intros ->.
    split; [done|]. split; [|discriminate].
    split; [discriminate|]. by intros [? _]. }
  apply bool_decide_eq_false in Hne.
  destruct (Np.any _) eqn:Hany.
  { intros ->. split; [split; [discriminate|done]|]. split; [|discriminate].
    split; [discriminate|]. by intros (_ & ? & _). }
  change (Np.argmin _) with (N_inside s center).
  destruct (N_inside s center) as [n|e] eqn:Hn; last first.
  { exfalso. revert Hn. unfold N_inside.
    rewrite argmin_nonempty; [discriminate|].
    intros E. apply (f_equal length) in E.
    rewrite length_fmap, sorted_outer_length in E.
    by destruct (candidates s center). }
  unfold mbind, res_mbind, res_bind at 1.
  change (Np.gather (outer_inner s center (candidates s center)).1
            (Np.argsort (outer_inner s center (candidates s center)).1))
    with (sorted_outer s center).
  pose proof (N_inside_zero_iff s center n Hne Hn) as Hzero.
  assert (sorted_outer s center ≠ []) as Hso.
  { intros E. apply (f_equal length) in E. rewrite sorted_outer_length in E.
    by destruct (candidates s center). }
  pose proof (slice_to_nil_iff (Z.min (maxactive s) (Z.of_nat n))
                (sorted_outer s center)) as Hnil.
  destruct (Np.amax _) as [m|e] eqn:Hm.
  - unfold mbind, res_mbind, res_bind at 1. intros ->.
    split; [split; [discriminate|done]|]. split; [|discriminate].
    split; [discriminate|]. intros (_ & _ & Hz). exfalso.
    assert (Py.slice_to (Z.min (maxactive s) (Z.of_nat n)) (sorted_outer s center)
            = []) as E.
    { apply Hnil; [lia|done|]. destruct Hz as [Hz|Hz]; [lia|].
      apply Hzero in Hz. lia. }
    rewrite E in Hm. discriminate.
  - unfold mbind, res_mbind, res_bind at 1. intros ->.
    apply amax_raise_iff in Hm as [Hm ->].
    split; [split; [discriminate|done]|]. split; [|discriminate].
    split; [|done]. intros _. split; [done|]. split; [done|].
    apply Hnil in Hm; [|lia|done].
    destruct (decide (maxactive s = 0%Z)) as [?|Hnz]; [by left|].
    right. apply Hzero. lia.
Qed.

End SelectionFailure.


(** ** What a caller gets from the first checkout *)
Section CallerFacts.
Import Scene.
Context `{Imports} `{Np.Library}.

Lemma selection_nonempty s center radius an fn :
  get_circular_scene s center = Ok (Some (radius, an, fn)) →
  (1 ≤ length an)%nat ∧ (1 ≤ length fn)%nat.
Proof.
  intros Hsel.
  destruct (get_circular_scene_ok_inv _ _ _ _ _ Hsel)
    as (n & m & Hne & Hany & Hn & Hm & _ & -> & ->).
  pose proof (finds_nonempty s center n Hn) as Hfinds.
  apply amax_nonempty in Hm.
  rewrite slice_to_length, sorted_outer_length in Hm.
  unfold Np.gather. rewrite !length_fmap. split.
  - rewrite slice_to_length, sort_order_length. lia.
  - unfold fixed_positions. cbv zeta.
    set (k := Z.min (maxactive s) (Z.of_nat n)) in *.
    set (finds := Py.slice_from k (sort_order s center)) in *.
    set (F := Py.slice_to _ (List.filter _ finds)).
    destruct (length F =? 0)%nat eqn:EF.
    + rewrite slice_to_length. cbn. lia.
    + apply Nat.eqb_neq in EF. lia.
Qed.

(** The sample driver (test_sample.py) checks out a region from a
    catalog on which nothing is active and goes on to use [len(active)],
    [active[0]] and [len(fixed)].  On such a catalog a checkout that
    returns never returns the [(center, None, None)] value: it hands out
    a region with a first active row, marked active and invalid, and at
    least one fixed row. *)
Theorem idle_catalog_checkout_has_active_row seed_index rnd s out s' :
  length (scene_coordinates s) = length (sourcecat s) →
  (∀ r, r ∈ sourcecat s → is_active r = false) →
  checkout_region seed_index rnd s = (Ok out, s') →
  ∃ region a f row,
    out = Region region a f
    ∧ recs a !! 0%nat = Some row
    ∧ is_active row = true
    ∧ is_valid row = false
    ∧ (1 ≤ length (recs f))%nat.
Proof.
  intros Hwf Hidle Hrun.
  destruct (checkout_region_cases seed_index rnd s Hwf)
    as [(e & _ & Hc)|[(c & e & _ & _ & Hc)|[(c & _ & Hsel & _)
       |(c & radius & an & fn & Hd & Hsel & _)]]].
  - rewrite Hc in Hrun. discriminate.
  - rewrite Hc in Hrun. discriminate.
  - exfalso.
    destruct (conflict_has_active_candidate s _ Hwf Hsel) as (k & r & _ & Hr & Ha).
    rewrite (Hidle r) in Ha; [discriminate|]. by eapply list_elem_of_lookup_2.
  - rewrite (checkout_region_run seed_index rnd s c radius an fn Hwf Hd Hsel)
      in Hrun.
    injection Hrun as <- <-.
    destruct (selection_nonempty _ _ _ _ _ Hsel) as [Han Hfn].
    destruct (selected_rows_range _ _ _ _ _ Hwf Hsel) as [Hra _].
    destruct an as [|i an]; [cbn in Han; lia|].
    apply Forall_cons in Hra as [Hi _].
    destruct (lookup_lt_is_Some_2 (sourcecat s) i Hi) as [r Hr].
    pose proof (checkout_cat_row (i :: an) fn (sourcecat s) i r Hr) as Hrow.
    eexists _, _, _, (marked (i :: an) fn i r).
    split; [done|]. cbn [recs]. split; [|split; [|split]].
    + cbn. by rewrite (list_lookup_total_correct _ _ _ Hrow).
    + unfold marked. by rewrite decide_True by constructor.
    + unfold marked. by rewrite decide_True by constructor.
    + unfold Np.gather. by rewrite length_fmap.
Qed.

End CallerFacts.

(** ** Which rows are fixed *)
Section FixedRows.
Import Scene.
Context `{Imports} `{Np.Library}.

Lemma List_filter_sublist {A} (f : A → bool) (l : list A) :
  List.filter f l `sublist_of` l.
Proof.
  induction l as [|x l IH]; [constructor|]. cbn.
  destruct (f x); by constructor.
Qed.

Lemma List_filter_nil {A} (f : A → bool) (l : list A) :
  List.filter f l = [] → Forall (λ x, f x = false) l.
Proof.
  induction l as [|x l IH]; [constructor|]. cbn.
  destruct (f x) eqn:E; [discriminate|]. intros Hl. constructor; [done|by apply IH].
Qed.

(** The fixed rows of a patch are candidates that were not taken as
    active, in the order of their outer distance, and they are of one of
    two kinds: either each of them reaches into the patch (its inner
    distance is below the patch radius), or no left-over candidate does
    and the fixed set is the single nearest left-over candidate. *)
Theorem fixed_rows_overlap_patch s center radius an fn :
  (0 ≤ maxactive s)%Z →
  get_circular_scene s center = Ok (Some (radius, an, fn)) →
  ∃ ps,
    fn = Np.gather (candidates s center) ps
    ∧ ps `sublist_of` drop (length an) (sort_order s center)
    ∧ (Forall (λ j, Qlt_bool
                      ((outer_inner s center (candidates s center)).2 !!! j)
                      radius = true) ps
       ∨ (ps = take 1 (drop (length an) (sort_order s center))
          ∧ Forall (λ j, Qlt_bool
                           ((outer_inner s center (candidates s center)).2 !!! j)
                           radius = false)
               (drop (length an) (sort_order s center)))).
Proof.
  intros Hmax Hsel.
  destruct (get_circular_scene_ok_inv _ _ _ _ _ Hsel)
    as (n & m & Hne & Hany & Hn & Hm & _ & -> & ->).
  pose proof (finds_nonempty s center n Hn) as Hfinds.
  apply amax_nonempty in Hm.
  rewrite slice_to_length, sorted_outer_length in Hm.
  apply argmin_lt in Hn. rewrite length_fmap, sorted_outer_length in Hn.
  set (k := Z.min (maxactive s) (Z.of_nat n)) in *.
  assert (Py.slice_bound (length (candidates s center)) k = Z.to_nat k) as Hb.
  { unfold Py.slice_bound.
    replace (k <? 0)%Z with false; [done|]. symmetry. apply Z.ltb_ge. lia. }
  rewrite Hb in Hm.
  assert (length (Np.gather (candidates s center)
                    (Py.slice_to k (sort_order s center))) = Z.to_nat k) as ->.
  { unfold Np.gather. rewrite length_fmap, slice_to_length, sort_order_length, Hb.
    lia. }
  assert (Py.slice_from k (sort_order s center)
          = drop (Z.to_nat k) (sort_order s center)) as Hfrom.
  { unfold Py.slice_from. by rewrite sort_order_length, Hb. }
  exists (fixed_positions s center k radius). split; [done|].
  unfold fixed_positions. cbv zeta. rewrite Hfrom in *.
  set (finds := drop (Z.to_nat k) (sort_order s center)) in *.
  set (P := λ j, Qlt_bool ((outer_inner s center (candidates s center)).2 !!! j)
                   radius).
  set (F := Py.slice_to _ (List.filter P finds)).
  assert (F `sublist_of` List.filter P finds) as HF
    by (unfold F; rewrite slice_to_take; apply sublist_take).
  destruct (length F =? 0)%nat eqn:EF.
  - apply Nat.eqb_eq in EF. rewrite slice_to_take.
    replace (Py.slice_bound (length finds) 1) with 1%nat by done.
    split; [apply sublist_take|]. right. split; [done|].
    apply List_filter_nil.
    destruct (List.filter P finds) as [|j js] eqn:Hfil; [done|]. exfalso.
    revert EF. unfold F. rewrite slice_to_length. unfold Py.slice_bound.
    replace (_ <? 0)%Z with false by (symmetry; apply Z.ltb_ge; lia).
    cbn [length]. lia.
  - split; [by etrans; [exact HF|apply List_filter_sublist]|]. left.
    apply Forall_forall. intros j Hj.
    apply (elem_of_sublist _ _ _ Hj) in HF.
    apply list_elem_of_In, filter_In in HF as [_ HF]. done.
Qed.

End FixedRows.

(** ** The further properties at work on the scenarios *)
Section FurtherScenarios.
Import Scene Queue Demo.

(** Scenario A, selection around x = 0: two active rows, which is
    [maxactive] and the number of candidates inside [maxradius]. *)
Lemma active_set_size_scenario_A :
  (1 ≤ length [0; 1]%nat)%nat
  ∧ (Z.of_nat (length [0; 1]%nat) ≤ maxactive sceneA)%Z
  ∧ (length [0; 1]%nat ≤ count_inside sceneA (0, 0)%Q)%nat.
Proof.
  apply (active_set_size sceneA (0, 0)%Q (23 # 10)%Q [0; 1]%nat [2%nat]).
  - vm_compute. discriminate.
  - vm_compute. reflexivity.
Defined.

(** Scenario A: one fixed row. *)
Lemma fixed_set_size_scenario_A :
  (1 ≤ length [2%nat])%nat
  ∧ ((0 ≤ maxactive sceneA)%Z → (Z.of_nat (length [2%nat]) ≤ maxactive sceneA)%Z).
Proof.
  apply (fixed_set_size sceneA (0, 0)%Q (23 # 10)%Q [0; 1]%nat [2%nat]).
  vm_compute. reflexivity.
Defined.

(** Scenario A: the radius 2.3 is the outer distance of the source at
    x = 2, above [minradius] = 1 and below [maxradius] = 5. *)
Lemma patch_radius_bounds_scenario_A :
  (minradius sceneA <= 23 # 10)%Q
  ∧ (∀ j o, (j < length [0; 1]%nat)%nat →
            sorted_outer sceneA (0, 0)%Q !! j = Some o → (o <= 23 # 10)%Q)
  ∧ ((0 ≤ maxactive sceneA)%Z →
     (23 # 10)%Q = minradius sceneA
     ∨ Qlt_bool (23 # 10) (maxradius sceneA) = true).
Proof.
  apply (patch_radius_bounds sceneA (0, 0)%Q (23 # 10)%Q [0; 1]%nat [2%nat]).
  vm_compute. reflexivity.
Defined.

(** Scenario A: rows 0, 1 and 2 are distinct and within 8 arcsec. *)
Lemma selected_rows_scenario_A :
  NoDup ([0; 1]%nat ++ [2%nat])
  ∧ ∀ i, i ∈ [0; 1]%nat ++ [2%nat] →
      ∃ p, scene_coordinates sceneA !! i = Some p
           ∧ Qle_bool (hypot (p.1 - (0, 0)%Q.1) (p.2 - (0, 0)%Q.2))
               (boundary_radius sceneA) = true.
Proof.
  apply (selected_rows_distinct_within_boundary sceneA (0, 0)%Q (23 # 10)%Q
           [0; 1]%nat [2%nat]).
  vm_compute. reflexivity.
Defined.

(** Scenario C: around x = 6 the selection signals a conflict, and the
    active source 1 at x = 2 is among the candidates. *)
Lemma conflict_scenario_C :
  get_circular_scene sceneA1 (6, 0)%Q = Ok None
  ↔ ∃ k r, k ∈ candidates sceneA1 (6, 0)%Q ∧ sourcecat sceneA1 !! k = Some r
           ∧ is_active r = true.
Proof.
  apply (conflict_iff_active_candidate sceneA1 (6, 0)%Q).
  vm_compute. reflexivity.
Defined.

(** Scenario A with every row invalid and 7 iterations: the selection is
    the same. *)
Lemma selection_ignores_validity_scenario_A :
  get_circular_scene (with_sourcecat sceneA line5_touched) (0, 0)%Q
  = get_circular_scene sceneA (0, 0)%Q.
Proof.
  apply (selection_reads_activity_and_size sceneA line5_touched (0, 0)%Q).
  - vm_compute. reflexivity.
  - vm_compute. reflexivity.
  - vm_compute. reflexivity.
Defined.

(** Scenario A: the checkout and a checkin with 10 iterations. *)
Lemma row_counters_scenario_A :
  counters_grow sceneA (checkout_region (Some 1%Z) 0 sceneA).2
  ∧ counters_grow sceneA (checkin_region activeA fixedA 10 sceneA).2.
Proof.
  apply (row_counters_never_decrease sceneA (Some 1%Z) 0 activeA fixedA 10).
  lia.
Defined.

(** With a target of 0 iterations nothing is undone, before and after. *)
Lemma undone_scenario_A_done :
  undone (checkout_region (Some 1%Z) 0 sceneA_done).2 = false
  ∧ undone (checkin_region activeA fixedA 10 sceneA_done).2 = false.
Proof.
  apply (undone_never_returns sceneA_done (Some 1%Z) 0 activeA fixedA 10).
  - lia.
  - vm_compute. reflexivity.
Defined.

(** Scenario A: the checkout seeded with source 1. *)
Lemma checkout_effect_scenario_A :
  ∃ c radius an fn,
    draw_center sceneA (Some 1%Z) 0 = Ok c
    ∧ get_circular_scene sceneA (sky_to_scene c.1 c.2) = Ok (Some (radius, an, fn))
    ∧ regionA = {| region_ra := c.1; region_dec := c.2;
                   region_radius := (radius / 3600)%Q |}
    ∧ (∀ i r, sourcecat sceneA !! i = Some r →
         sourcecat sceneA1 !! i = Some (marked an fn i r))
    ∧ n_active sceneA1 = (n_active sceneA + Z.of_nat (length an))%Z
    ∧ n_fixed sceneA1 = (n_fixed sceneA + Z.of_nat (length fn))%Z
    ∧ recs activeA = Np.gather (sourcecat sceneA1) an
    ∧ recs fixedA = Np.gather (sourcecat sceneA1) fn.
Proof.
  apply (checkout_region_effect (Some 1%Z) 0 sceneA regionA activeA fixedA sceneA1).
  - vm_compute. reflexivity.
  - vm_compute. reflexivity.
Defined.

(** The two close sources: the selection raises [ValueError], and the
    checkout seeded with source 1 leaves the object as it was. *)
Lemma checkout_raise_scene2 :
  scene2 = scene2
  ∧ (draw_center scene2 (Some 1%Z) 0 = Raise ValueError
     ∨ ∃ c, draw_center scene2 (Some 1%Z) 0 = Ok c
            ∧ get_circular_scene scene2 (sky_to_scene c.1 c.2) = Raise ValueError).
Proof.
  apply (checkout_region_raise_unchanged (Some 1%Z) 0 scene2 ValueError scene2).
  - vm_compute. reflexivity.
  - vm_compute. reflexivity.
Defined.

(** Scenario A: checkout, then checkin of the same rows with 10
    iterations. *)
Lemma round_trip_scenario_A :
  ∃ s2, checkin_region activeA fixedA 10 sceneA1 = (Ok tt, s2)
    ∧ n_active s2 = n_active sceneA
    ∧ n_fixed s2 = n_fixed sceneA
    ∧ ∀ i r, sourcecat sceneA !! i = Some r →
        ∃ r2, sourcecat s2 !! i = Some r2
          ∧ source_index r2 = source_index r
          ∧ (∀ g, fld r2 g = fld r g)
          ∧ is_active r2 = is_active r
          ∧ is_valid r2
            = (if decide (Z.of_nat i ∈ ids activeA ++ ids fixedA) then true
               else is_valid r)
          ∧ n_iter r2
            = (if decide (Z.of_nat i ∈ ids activeA) then n_iter r + 10
               else n_iter r)%Z
          ∧ n_patch r2
            = (if decide (Z.of_nat i ∈ ids activeA) then n_patch r + 1
               else n_patch r)%Z.
Proof.
  apply (checkout_checkin_round_trip (Some 1%Z) 0 sceneA regionA activeA fixedA
           sceneA1 10).
  - vm_compute. reflexivity.
  - vm_compute. reflexivity.
  - apply (bool_decide_unpack _). vm_compute. exact I.
  - intros g Hg. apply list_elem_of_singleton in Hg as ->.
    apply (bool_decide_unpack _). vm_compute. exact I.
  - vm_compute. reflexivity.
Defined.

(** Scenario A after the checkout: rows 1 and 0 are the active ones. *)
Lemma active_rows_scenario_A :
  (∀ i r, sourcecat runA1.1 !! i = Some r →
     (is_active r = true ↔ ∃ h, h ∈ runA1.2 ∧ Z.of_nat i ∈ h.1))
  ∧ (∀ j1 j2 h1 h2 k, runA1.2 !! j1 = Some h1 → runA1.2 !! j2 = Some h2 →
       j1 ≠ j2 → k ∈ h1.1 → k ∉ h2.1).
Proof.
  apply (active_rows_are_held sceneA runA1).
  - vm_compute. reflexivity.
  - vm_compute. reflexivity.
  - vm_compute. reflexivity.
  - apply (reaches_call _ (sceneA, []) (Checkout (Some 1%Z) 0)).
    + apply reaches_start.
    + vm_compute. reflexivity.
Defined.

(** Scenario A after the checkout: two active rows, one fixed row. *)
Lemma occupancy_scenario_A :
  n_active runA1.1 = (n_active sceneA + total (λ h, length h.1) runA1.2)%Z
  ∧ n_fixed runA1.1 = (n_fixed sceneA + total (λ h, length h.2) runA1.2)%Z.
Proof.
  apply (occupancy_counters_count_held sceneA runA1).
  - vm_compute. reflexivity.
  - vm_compute. reflexivity.
  - vm_compute. reflexivity.
  - apply (reaches_call _ (sceneA, []) (Checkout (Some 1%Z) 0)).
    + apply reaches_start.
    + vm_compute. reflexivity.
Defined.

(** Worker 1 never answers: three passes over [busy] and no result. *)
Lemma polling_scenario_B : collect_one 3 0 queueA = None.
Proof.
  apply (@collect_one_polls_without_result mpi2 3 0 queueA).
  intros t' c r _ Hin. apply list_elem_of_singleton in Hin.
  injection Hin as -> _. reflexivity.
Defined.

(** Scenario B: worker 1 is probed at clock 0 without result, worker 2
    at clock 1 with result. *)
Lemma round_robin_scenario_B :
  ∃ i c r,
    (0 < 2)%nat
    ∧ i = ((2 - 1 - 0) mod length (busy queueB))%nat
    ∧ busy queueB !! i = Some (c, r)
    ∧ Iprobe (2 - 1) c = true
    ∧ (∀ m, (0 ≤ m < 2 - 1)%nat →
         ∃ c' r', busy queueB !! ((m - 0) mod length (busy queueB))%nat
                  = Some (c', r')
                  ∧ Iprobe m c' = false)
    ∧ resultB
      = PTuple (PTuple (PInt (Z.of_nat c)) (PReq r)) (PMsg (recv (2 - 1) c))
    ∧ busy queueB_collected = delete i (busy queueB)
    ∧ idle queueB_collected = idle queueB ++ [c]
    ∧ n_children queueB_collected = n_children queueB
    ∧ parent queueB_collected = parent queueB.
Proof.
  apply (@collect_one_round_robin mpi2 1 0 queueB resultB queueB_collected 2).
  vm_compute. reflexivity.
Defined.

(** Scenario B with both workers busy: a third submit raises. *)
Lemma capacity_scenario_B :
  (length (idle queueB) + length (busy queueB))%nat = Z.to_nat 2
  ∧ (submit "C" 1 queueB = (Raise IndexError, queueB)
     ↔ length (busy queueB) = Z.to_nat 2)
  ∧ ((∃ child q1, submit "C" 1 queueB = (Ok child, q1))
     ↔ (length (busy queueB) < Z.to_nat 2)%nat).
Proof.
  apply (@submit_raises_iff_all_busy mpi2 2
           [@Submit mpi2 "A" 1; @Submit mpi2 "B" 1] 0 queueB 0 "C" 1%Z).
  vm_compute. reflexivity.
Defined.

(** Scenario B after the collection: workers 1 (busy) and 2 (idle) both
    get the kill message. *)
Lemma closeout_scenario_B :
  fst <$> closeout queueB_collected ≡ₚ workers queueB_collected
  ∧ NoDup (fst <$> closeout queueB_collected)
  ∧ snd <$> closeout queueB_collected
    = replicate (length (workers queueB_collected)) 0%Z.
Proof.
  apply (@closeout_reaches_every_worker mpi2 2
           [@Submit mpi2 "A" 1; @Submit mpi2 "B" 1; CollectOne 1] 0
           queueB_collected 2).
  vm_compute. reflexivity.
Defined.

(** Scenario B: task A goes to worker 1 and task B to worker 2. *)
Lemma assigns_in_order_scenario_B :
  ∃ q, run (submits tasksB) 0 (init 2) = Some (q, 0%nat)
       ∧ busy q = zip_with (λ x child, (child, isend x.1 child x.2)) tasksB
                    (seq 1 (length tasksB))
       ∧ idle q = seq (S (length tasksB)) (Z.to_nat 2 - length tasksB).
Proof.
  apply (@fresh_queue_assigns_in_order mpi2 2 tasksB 0).
  vm_compute. lia.
Defined.

(** Scenario A has five rows: the seed -1 is the last one (x = 8), and
    it is in range. *)
Lemma seed_minus_one_scenario_A :
  (draw_center sceneA (Some (-1)%Z) 0 = Raise IndexError
   ↔ (-1 < - Z.of_nat (length (sourcecat sceneA))
      ∨ Z.of_nat (length (sourcecat sceneA)) ≤ -1)%Z)
  ∧ ((- Z.of_nat (length (sourcecat sceneA)) ≤ -1 < 0)%Z →
     ∃ r, sourcecat sceneA
            !! Z.to_nat (-1 + Z.of_nat (length (sourcecat sceneA))) = Some r
          ∧ draw_center sceneA (Some (-1)%Z) 0 = Ok (fld r "ra", fld r "dec")).
Proof.
  apply (draw_center_seed_index_range sceneA (-1)%Z 0). lia.
Defined.

(** The catalog whose only source is active: no draw, no checkout. *)
Lemma unseeded_draw_scene_busy :
  draw_center scene_busy None 0 = Raise ValueError
  ∧ checkout_region None 0 scene_busy = (Raise ValueError, scene_busy).
Proof.
  apply (unseeded_draw_needs_inactive_row scene_busy None 0).
  - reflexivity.
  - intros r Hr. apply list_elem_of_singleton in Hr as ->. reflexivity.
Defined.

(** Scenario A: the region comes back with a fixed row of index 9. *)
Lemma checkin_raise_scenario_A :
  n_active sceneA1_failed = n_active sceneA1
  ∧ n_fixed sceneA1_failed = n_fixed sceneA1
  ∧ (IndexError = ValueError ∨ IndexError = IndexError).
Proof.
  apply (checkin_raise_keeps_occupancy activeA rows9 10 sceneA1 IndexError
           sceneA1_failed).
  vm_compute. reflexivity.
Defined.

(** Scenario A: the same call, with the state it leaves. *)
Lemma checkin_partial_scenario_A :
  checkin_region activeA rows9 10 sceneA1
  = (Raise IndexError,
     with_sourcecat sceneA1
       (checkin_cat activeA [1; 0]%nat [] 10 (sourcecat sceneA1))).
Proof.
  apply (checkin_bad_fixed_index_is_partial sceneA1 activeA rows9 10 [1; 0]%nat
           IndexError).
  - apply (bool_decide_unpack _). vm_compute. exact I.
  - apply (bool_decide_unpack _). vm_compute. exact I.
  - intros f Hf. apply list_elem_of_singleton in Hf as ->.
    apply (bool_decide_unpack _). vm_compute. exact I.
  - vm_compute. reflexivity.
  - vm_compute. reflexivity.
Defined.

(** Source 0 listed twice with 5 iterations: it counts 5 iterations and
    one patch, and [n_active] falls by 2. *)
Lemma checkin_twice_listed_scene2 :
  ∃ s', checkin_region rows00 norows 5 scene2 = (Ok tt, s')
    ∧ (∀ i r, i ∈ [0; 0]%nat → sourcecat scene2 !! i = Some r →
         ∃ r', sourcecat s' !! i = Some r'
           ∧ n_iter r' = (n_iter r + 5)%Z
           ∧ n_patch r' = (n_patch r + 1)%Z
           ∧ is_active r' = false
           ∧ is_valid r' = true)
    ∧ n_active s' = (n_active scene2 - Z.of_nat (length [0; 0]%nat))%Z
    ∧ n_fixed s' = (n_fixed scene2 - Z.of_nat (length (@nil nat)))%Z.
Proof.
  apply (checkin_counts_a_listed_row_once scene2 rows00 norows 5 [0; 0]%nat []).
  - apply (bool_decide_unpack _). vm_compute. exact I.
  - apply (bool_decide_unpack _). vm_compute. exact I.
  - intros f Hf. apply list_elem_of_singleton in Hf as ->.
    apply (bool_decide_unpack _). vm_compute. exact I.
  - vm_compute. reflexivity.
  - vm_compute. reflexivity.
Defined.

(** The two close sources: both are inside [maxradius], which is one of
    the ways to a [ValueError]. *)
Lemma selection_raises_scene2 :
  (get_circular_scene scene2 (0, 0)%Q = Raise IndexError
   ↔ candidates scene2 (0, 0)%Q = [])
  ∧ (get_circular_scene scene2 (0, 0)%Q = Raise ValueError
     ↔ candidates scene2 (0, 0)%Q ≠ []
       ∧ Np.any (is_active
                   <$> Np.gather (sourcecat scene2) (candidates scene2 (0, 0)%Q))
         = false
       ∧ (maxactive scene2 = 0%Z
          ∨ count_inside scene2 (0, 0)%Q = 0%nat
          ∨ count_inside scene2 (0, 0)%Q
            = length (candidates scene2 (0, 0)%Q)))
  ∧ get_circular_scene scene2 (0, 0)%Q ≠ Raise KeyError.
Proof.
  apply (selection_raises_iff scene2 (0, 0)%Q). vm_compute. discriminate.
Defined.

(** Scenario A around x = 0: the fixed row is the source at x = 4, whose
    inner distance 3.7 is not below the radius 2.3; it is the nearest
    left-over candidate. *)
Lemma fixed_rows_scenario_A :
  ∃ ps,
    [2%nat] = Np.gather (candidates sceneA (0, 0)%Q) ps
    ∧ ps `sublist_of` drop (length [0; 1]%nat) (sort_order sceneA (0, 0)%Q)
    ∧ (Forall (λ j, Qlt_bool
                      ((outer_inner sceneA (0, 0)%Q
                          (candidates sceneA (0, 0)%Q)).2 !!! j)
                      (23 # 10) = true) ps
       ∨ (ps = take 1 (drop (length [0; 1]%nat) (sort_order sceneA (0, 0)%Q))
          ∧ Forall (λ j, Qlt_bool
                           ((outer_inner sceneA (0, 0)%Q
                               (candidates sceneA (0, 0)%Q)).2 !!! j)
                           (23 # 10) = false)
               (drop (length [0; 1]%nat) (sort_order sceneA (0, 0)%Q)))).
Proof.
  apply (fixed_rows_overlap_patch sceneA (0, 0)%Q (23 # 10)%Q [0; 1]%nat [2%nat]).
  - vm_compute. discriminate.
  - vm_compute. reflexivity.
Defined.

(** Scenario A: the first checkout hands out an active row. *)
Lemma first_checkout_scenario_A :
  ∃ region a f row,
    Region regionA activeA fixedA = Region region a f
    ∧ recs a !! 0%nat = Some row
    ∧ is_active row = true
    ∧ is_valid row = false
    ∧ (1 ≤ length (recs f))%nat.
Proof.
  apply (idle_catalog_checkout_has_active_row (Some 1%Z) 0 sceneA
           (Region regionA activeA fixedA) sceneA1).
  - vm_compute. reflexivity.
  - apply Forall_forall. vm_compute. repeat constructor.
  - vm_compute. reflexivity.
Defined.

End FurtherScenarios.
